(** * Query document compiler and validator (packages/client/src/runtime/query.ts)

    A shallow embedding of the runtime query module: the tree model
    (Document / Field / Args / Arg), the selection compiler
    ([makeDocument], [selectionToFields]), the argument inference engine
    ([valueToArg], [tryInferArgs], [objectToArgs], [hasCorrectScalarType]),
    the error collector and path normaliser ([collectErrors],
    [normalizePath], [Document.validate]) and the result scalar remapper
    ([mapScalars]). *)

From Stdlib Require Import String Ascii List Bool ZArith Arith Lia.
From Stdlib Require Import Reals Lra.
Import ListNotations.

Open Scope string_scope.
Open Scope list_scope.

Set Implicit Arguments.
Set Warnings "-register-all".

(** ** JavaScript values

    The caller's selection, the argument values and the response payload are
    untyped JavaScript values.  Objects are modelled by the list of their own
    enumerable properties in enumeration order (keys are pairwise distinct in
    a JavaScript object; [get] reads the first binding).  Numbers are modelled
    by integers; the host objects the module tests for with [instanceof] or
    [isDate] have a constructor each. *)

Inductive JsValue : Type :=
| JUndefined
| JNull
| JBool (b : bool)
| JNumber (n : Z)
| JString (s : string)
| JSymbol (description : string)
| JDate (valid : bool)
| JObjectEnumValue (name : string)
| JFieldRef (name : string)
| JHost (tag : string) (repr : string)
| JArray (elements : list JsValue)
| JObject (properties : list (string * JsValue)).

(** [typeof value] *)
Definition typeof (v : JsValue) : string :=
  match v with
  | JUndefined => "undefined"
  | JBool _ => "boolean"
  | JNumber _ => "number"
  | JString _ => "string"
  | JSymbol _ => "symbol"
  | _ => "object"
  end.

(** Truthiness: [Boolean(value)], the test made by [if (value)] and [!value]. *)
Definition truthy (v : JsValue) : bool :=
  match v with
  | JUndefined | JNull => false
  | JBool b => b
  | JNumber n => negb (n =? 0)%Z
  | JString s => negb (s =? "")
  | _ => true
  end.

Definition Array_isArray (v : JsValue) : bool :=
  match v with JArray _ => true | _ => false end.

Definition is_undefined (v : JsValue) : bool :=
  match v with JUndefined => true | _ => false end.

Definition is_null (v : JsValue) : bool :=
  match v with JNull => true | _ => false end.

Fixpoint assoc {A : Type} (k : string) (l : list (string * A)) : option A :=
  match l with
  | [] => None
  | (k', v) :: rest => if k' =? k then Some v else assoc k rest
  end.

(** Decimal rendering of an array index, [String(index)]. *)
Definition digit_of (n : nat) : ascii := ascii_of_nat (48 + n).

Fixpoint string_of_nat_aux (fuel n : nat) (acc : string) : string :=
  match fuel with
  | O => acc
  | S fuel' =>
      let acc' := String (digit_of (n mod 10)) acc in
      match n / 10 with
      | O => acc'
      | q => string_of_nat_aux fuel' q acc'
      end
  end.

Definition String_of_index (n : nat) : string := string_of_nat_aux (S n) n "".

Fixpoint index_entries_from (i : nat) (l : list JsValue) : list (string * JsValue) :=
  match l with
  | [] => []
  | x :: rest => (String_of_index i, x) :: index_entries_from (S i) rest
  end.

Fixpoint chars_of (s : string) : list JsValue :=
  match s with
  | EmptyString => []
  | String c rest => JString (String c EmptyString) :: chars_of rest
  end.

(** Own enumerable string-keyed properties, as [Object.entries] lists them
    for a value that is not [null] or [undefined]. *)
Definition own_entries (v : JsValue) : list (string * JsValue) :=
  match v with
  | JObject props => props
  | JArray l => index_entries_from 0 l
  | JString s => index_entries_from 0 (chars_of s)
  | _ => []
  end.

(** Property read [value[key]] on a value that is not [null] or
    [undefined].  Only own enumerable properties are read: what JavaScript
    finds along the prototype chain or as a non-enumerable property (the
    [length] of an array or a string, the methods of [Object.prototype]) reads
    as [undefined] here. *)
Definition get (v : JsValue) (k : string) : JsValue :=
  match assoc k (own_entries v) with
  | Some x => x
  | None => JUndefined
  end.

(** ** Completions

    A JavaScript call either returns or throws.  [Diverge] stands for a
    recursion that exceeded the depth allotted to the run. *)

Inductive Completion (A : Type) : Type :=
| Normal (a : A)
| Throw (error : string)
| Diverge.

Arguments Normal {A} a.
Arguments Throw {A} error.
Arguments Diverge {A}.

Definition bind {A B : Type} (c : Completion A) (k : A -> Completion B) : Completion B :=
  match c with
  | Normal a => k a
  | Throw e => Throw e
  | Diverge => Diverge
  end.

Notation "x <- c ;; k" := (bind c (fun x => k))
  (at level 61, c at next level, right associativity).

Fixpoint mapM {A B : Type} (f : A -> Completion B) (l : list A) : Completion (list B) :=
  match l with
  | [] => Normal []
  | x :: rest =>
      y <- f x ;;
      ys <- mapM f rest ;;
      Normal (y :: ys)
  end.

(** [array.reduce(step, init)] for a step that may throw. *)
Fixpoint reduceM {A B : Type} (step : B -> A -> Completion B) (l : list A) (acc : B)
  : Completion B :=
  match l with
  | [] => Normal acc
  | x :: rest =>
      acc' <- step acc x ;;
      reduceM step rest acc'
  end.

Definition Object_entries (v : JsValue) : Completion (list (string * JsValue)) :=
  match v with
  | JUndefined | JNull => Throw "TypeError: Cannot convert undefined or null to object"
  | _ => Normal (own_entries v)
  end.


(** ** Schema model (DMMF)

    The schema descriptor is read-only input.  In the running program an
    input or output object type is a (possibly cyclic) object graph; here a
    type is referred to by a handle that the [DMMFHelper] resolves. *)

Inductive FieldLocation : Type :=
| scalar | inputObjectTypes | outputObjectTypes | enumTypes | fieldRefTypes.

Definition FieldLocation_eqb (a b : FieldLocation) : bool :=
  match a, b with
  | scalar, scalar | inputObjectTypes, inputObjectTypes
  | outputObjectTypes, outputObjectTypes | enumTypes, enumTypes
  | fieldRefTypes, fieldRefTypes => true
  | _, _ => false
  end.

(** [DMMF.ArgType = string | InputType | SchemaEnum] *)
Inductive ArgType : Type :=
| ATScalar (name : string)
| ATEnum (name : string) (values : list string)
| ATInput (name : string).

Record SchemaArgInputType : Type := mkSchemaArgInputType {
  isList : bool;
  type : ArgType;
  location : FieldLocation;
}.

Record SchemaArg : Type := mkSchemaArg {
  arg_name : string;
  isRequired : bool;
  isNullable : bool;
  inputTypes : list SchemaArgInputType;
}.

Record Constraints : Type := mkConstraints {
  minNumFields : option Z;
  maxNumFields : option Z;
  constraint_fields : option (list string);
}.

Record InputType : Type := mkInputType {
  input_name : string;
  constraints : Constraints;
  meta_source : option string;
  input_fields : list SchemaArg;
}.

Inductive TypeHandle : Type :=
| HQuery | HMutation | HNamed (name : string).

(** [DMMF.OutputType | DMMF.SchemaEnum | string] in [outputType.type] *)
Inductive OutType : Type :=
| OTScalar (name : string)
| OTEnum (name : string)
| OTObject (handle : TypeHandle).

Record SchemaFieldOutputType : Type := mkSchemaFieldOutputType {
  out_isList : bool;
  out_type : OutType;
  out_location : FieldLocation;
  out_namespace : option string;
}.

Record SchemaField : Type := mkSchemaField {
  field_name : string;
  field_args : list SchemaArg;
  outputType : SchemaFieldOutputType;
}.

Record OutputType : Type := mkOutputType {
  output_name : string;
  output_fields : list SchemaField;
}.

Record DMMFHelper : Type := mkDMMFHelper {
  queryType : OutputType;
  mutationType : OutputType;
  outputTypeMap : string -> OutputType;
  inputTypeMap : string -> InputType;
  (** [dmmf.typeMap[name] !== undefined] *)
  typeMap_defined : string -> bool;
}.

Definition resolveOutput (dmmf : DMMFHelper) (h : TypeHandle) : OutputType :=
  match h with
  | HQuery => queryType dmmf
  | HMutation => mutationType dmmf
  | HNamed n => outputTypeMap dmmf n
  end.

Record MakeDocumentContext : Type := mkContext { modelName : option string }.

(** [export function isInputArgType(argType)] *)
Definition isInputArgType (argType : ArgType) : bool :=
  match argType with
  | ATScalar _ => false
  | ATEnum _ _ => false
  | ATInput _ => true
  end.

(** ** Error kinds (error-types) *)

Inductive InvalidFieldError : Type :=
| invalidFieldName (modelName providedName : string) (didYouMean : option string)
    (outputType : OutputType) (isInclude isIncludeScalar : bool)
| invalidFieldType (modelName fieldName : string) (providedValue : JsValue)
| emptySelect (field : SchemaField)
| emptyInclude (field : SchemaField)
| noTrueSelect (field : SchemaField)
| includeAndSelect (field : SchemaField).

Inductive InvalidArgError : Type :=
| invalidName (providedName : string) (providedValue : JsValue)
    (didYouMeanField didYouMeanArg : option string) (originalType : InputType)
    (possibilities : option (list SchemaArgInputType)) (outputType : option OutputType)
| invalidType (argName : string) (providedValue : JsValue)
    (requiredInputType : list SchemaArgInputType) (bestFittingType : SchemaArgInputType)
| invalidNullArg (name : string) (invalidType : list SchemaArgInputType)
    (atLeastOne atMostOne : bool)
| invalidDateArg (argName : string)
| missingArg (missingName : string) (missingArg : SchemaArg) (atLeastOne atMostOne : bool)
| atLeastOne (key : string) (inputType : InputType) (atLeastFields : option (list string))
| atMostOne (key : string) (inputType : InputType) (providedKeys : list string).

Inductive ArgErrorKind : Type :=
| KInvalidName | KInvalidType | KInvalidNullArg | KInvalidDateArg
| KMissingArg | KAtLeastOne | KAtMostOne.

(** [error.type] *)
Definition arg_error_type (e : InvalidArgError) : ArgErrorKind :=
  match e with
  | invalidName _ _ _ _ _ _ _ => KInvalidName
  | invalidType _ _ _ _ => KInvalidType
  | invalidNullArg _ _ _ _ => KInvalidNullArg
  | invalidDateArg _ => KInvalidDateArg
  | missingArg _ _ _ _ => KMissingArg
  | atLeastOne _ _ _ => KAtLeastOne
  | atMostOne _ _ _ => KAtMostOne
  end.

Definition ArgErrorKind_eqb (a b : ArgErrorKind) : bool :=
  match a, b with
  | KInvalidName, KInvalidName | KInvalidType, KInvalidType
  | KInvalidNullArg, KInvalidNullArg | KInvalidDateArg, KInvalidDateArg
  | KMissingArg, KMissingArg | KAtLeastOne, KAtLeastOne
  | KAtMostOne, KAtMostOne => true
  | _, _ => false
  end.

(** A path component: [string | number]. *)
Inductive PathKey : Type :=
| PStr (s : string)
| PNum (n : Z).

Record ArgError : Type := mkArgError {
  ae_error : InvalidArgError;
  ae_path : list PathKey;
  ae_id : option string;
}.

Record FieldError : Type := mkFieldError {
  fe_error : InvalidFieldError;
  fe_path : list PathKey;
}.

(** ** Tree model *)

(** [ArgValue]: a plain value, a nested [Args], or an array whose elements
    are plain values, [Args] or [Arg]. *)
Inductive Arg : Type :=
| mkArg (key : string) (value : ArgValue) (error : option InvalidArgError)
    (hasError : bool) (isEnum : bool) (schemaArg : option SchemaArg)
    (isNullable : bool) (inputType : option SchemaArgInputType)
with Args : Type :=
| mkArgs (args : list Arg) (hasInvalidArg : bool)
with ArgValue : Type :=
| AVPlain (v : JsValue)
| AVArgs (a : Args)
| AVArray (elements : list ArgElement)
with ArgElement : Type :=
| ElPlain (v : JsValue)
| ElArgs (a : Args)
| ElArg (a : Arg).

Definition arg_key (a : Arg) : string := let 'mkArg k _ _ _ _ _ _ _ := a in k.
Definition arg_value (a : Arg) : ArgValue := let 'mkArg _ v _ _ _ _ _ _ := a in v.
Definition arg_error (a : Arg) : option InvalidArgError := let 'mkArg _ _ e _ _ _ _ _ := a in e.
Definition arg_hasError (a : Arg) : bool := let 'mkArg _ _ _ h _ _ _ _ := a in h.
Definition arg_isEnum (a : Arg) : bool := let 'mkArg _ _ _ _ i _ _ _ := a in i.
Definition arg_schemaArg (a : Arg) : option SchemaArg := let 'mkArg _ _ _ _ _ s _ _ := a in s.
Definition arg_isNullable (a : Arg) : bool := let 'mkArg _ _ _ _ _ _ n _ := a in n.
Definition arg_inputType (a : Arg) : option SchemaArgInputType :=
  let 'mkArg _ _ _ _ _ _ _ t := a in t.

Definition args_args (a : Args) : list Arg := let 'mkArgs l _ := a in l.
Definition args_hasInvalidArg (a : Args) : bool := let 'mkArgs _ h := a in h.

Definition is_some {A : Type} (o : option A) : bool :=
  match o with Some _ => true | None => false end.

(** [new Args(args)] *)
Definition new_Args (args : list Arg) : Args :=
  mkArgs args (existsb (fun arg => arg_hasError arg) args).

(** [value instanceof ObjectEnumValue ? value._getName() : value] *)
Definition unwrapObjectEnum (v : JsValue) : JsValue :=
  match v with
  | JObjectEnumValue n => JString n
  | _ => v
  end.

Record ArgOptions : Type := mkArgOptions {
  o_key : string;
  o_value : ArgValue;
  o_isEnum : bool;
  o_error : option InvalidArgError;
  o_schemaArg : option SchemaArg;
  o_inputType : option SchemaArgInputType;
}.

(** [new Arg({ key, value, isEnum, error, schemaArg, inputType })] *)
Definition new_Arg (o : ArgOptions) : Arg :=
  let value := o_value o in
  mkArg (o_key o)
    (match value with
     | AVPlain v => AVPlain (unwrapObjectEnum v)
     | _ => value
     end)
    (o_error o)
    (is_some (o_error o)
     || (match value with AVArgs a => args_hasInvalidArg a | _ => false end)
     || (match value with
         | AVArray l =>
             existsb (fun v => match v with
                               | ElArgs a => args_hasInvalidArg a
                               | ElArg a => arg_hasError a
                               | ElPlain _ => false
                               end) l
         | _ => false
         end))
    (o_isEnum o)
    (o_schemaArg o)
    (match o_schemaArg o with
     | Some sa => fold_left (fun acc _ => acc && isNullable sa) (inputTypes sa) true
     | None => false
     end)
    (o_inputType o).

(** *** Error collection over compiled arguments *)

Definition prefix_path (p : list PathKey) (e : ArgError) : ArgError :=
  mkArgError (ae_error e) (p ++ ae_path e) (ae_id e).

Definition type_name (t : ArgType) : string :=
  match t with
  | ATScalar n => n
  | ATEnum n _ => n
  | ATInput n => n
  end.

(** The [id] of a collected error: set when [inputType.type] is an object. *)
Definition error_id (inputType : option SchemaArgInputType) : option string :=
  match inputType with
  | Some it =>
      match type it with
      | ATScalar _ => None
      | t => Some (type_name t ++ (if isList it then "[]" else ""))%string
      end
  | None => None
  end.

(** [Arg.collectErrors] and [Args.collectErrors] *)
Fixpoint Arg_collectErrors (a : Arg) : list ArgError :=
  match a with
  | mkArg key value error hasError _ _ _ inputType =>
      if negb hasError then []
      else
        let errors :=
          match error with
          | Some e => [mkArgError e [PStr key] (error_id inputType)]
          | None => []
          end in
        match value with
        | AVArray l =>
            errors ++
            (fix elements (index : nat) (l : list ArgElement) : list ArgError :=
               match l with
               | [] => []
               | val :: rest =>
                   match val with
                   | ElArgs a' =>
                       map (prefix_path [PStr key; PStr (String_of_index index)])
                           (Args_collectErrors a')
                   | ElArg a' => map (prefix_path [PStr key]) (Arg_collectErrors a')
                   | ElPlain _ => []
                   end ++ elements (S index) rest
               end) 0%nat l
        | AVArgs a' => errors ++ map (prefix_path [PStr key]) (Args_collectErrors a')
        | AVPlain _ => errors
        end
  end
with Args_collectErrors (a : Args) : list ArgError :=
  match a with
  | mkArgs args hasInvalidArg =>
      if negb hasInvalidArg then []
      else
        (fix each (l : list Arg) : list ArgError :=
           match l with
           | [] => []
           | arg :: rest => Arg_collectErrors arg ++ each rest
           end) args
  end.

(** *** Fields and documents *)

Inductive Field : Type :=
| mkField (name : string) (args : option Args) (children : option (list Field))
    (error : option InvalidFieldError) (hasInvalidChild hasInvalidArg : bool)
    (schemaField : option SchemaField).

Definition f_name (f : Field) : string := let 'mkField n _ _ _ _ _ _ := f in n.
Definition f_args (f : Field) : option Args := let 'mkField _ a _ _ _ _ _ := f in a.
Definition f_children (f : Field) : option (list Field) :=
  let 'mkField _ _ c _ _ _ _ := f in c.
Definition f_error (f : Field) : option InvalidFieldError :=
  let 'mkField _ _ _ e _ _ _ := f in e.
Definition f_hasInvalidChild (f : Field) : bool := let 'mkField _ _ _ _ h _ _ := f in h.
Definition f_hasInvalidArg (f : Field) : bool := let 'mkField _ _ _ _ _ h _ := f in h.
Definition f_schemaField (f : Field) : option SchemaField :=
  let 'mkField _ _ _ _ _ _ s := f in s.

Record FieldArgs : Type := mkFieldArgs {
  fa_name : string;
  fa_schemaField : option SchemaField;
  fa_args : option Args;
  fa_children : option (list Field);
  fa_error : option InvalidFieldError;
}.

(** [new Field({ name, args, children, error, schemaField })] *)
Definition new_Field (o : FieldArgs) : Field :=
  mkField (fa_name o) (fa_args o) (fa_children o) (fa_error o)
    (match fa_children o with
     | Some children =>
         existsb (fun child =>
                    is_some (f_error child) || f_hasInvalidArg child || f_hasInvalidChild child)
                 children
     | None => false
     end)
    (match fa_args o with
     | Some args => args_hasInvalidArg args
     | None => false
     end)
    (fa_schemaField o).

Record CollectedErrors : Type := mkCollected {
  fieldErrors : list FieldError;
  argErrors : list ArgError;
}.

Definition prefix_field_path (p : list PathKey) (e : FieldError) : FieldError :=
  mkFieldError (fe_error e) (p ++ fe_path e).

(** [Field.collectErrors(prefix = 'select')].  The prefix handed over by
    [Document.validate] may be [undefined], in which case the default
    parameter value applies. *)
Fixpoint Field_collectErrors (prefix : string) (f : Field) : CollectedErrors :=
  match f with
  | mkField name args children error _ _ _ =>
      let own := match error with
                 | Some e => [mkFieldError e [PStr name]]
                 | None => []
                 end in
      let from_children :=
        match children with
        | Some cs =>
            (fix each (l : list Field) : CollectedErrors :=
               match l with
               | [] => mkCollected [] []
               | child :: rest =>
                   let errors := Field_collectErrors prefix child in
                   let others := each rest in
                   mkCollected
                     (map (prefix_field_path [PStr name; PStr prefix]) (fieldErrors errors)
                      ++ fieldErrors others)
                     (map (prefix_path [PStr name; PStr prefix]) (argErrors errors)
                      ++ argErrors others)
               end) cs
        | None => mkCollected [] []
        end in
      let from_args :=
        match args with
        | Some a => map (prefix_path [PStr name]) (Args_collectErrors a)
        | None => []
        end in
      mkCollected (own ++ fieldErrors from_children) (argErrors from_children ++ from_args)
  end.

Inductive DocumentType : Type := query | mutation.

Record Document : Type := mkDocument {
  doc_type : DocumentType;
  doc_children : list Field;
}.

(** *** Path normalisation and validation *)

Definition string_of_Z (n : Z) : string :=
  match n with
  | Zneg p => ("-" ++ String_of_index (Pos.to_nat p))%string
  | _ => String_of_index (Z.to_nat n)
  end.

(** The property name a path component denotes in [pointer[key]]. *)
Definition property_name (k : PathKey) : string :=
  match k with
  | PStr s => s
  | PNum n => string_of_Z n
  end.

(** [key === 0] *)
Definition is_zero_index (k : PathKey) : bool :=
  match k with
  | PNum 0 => true
  | _ => false
  end.

(** [key === 'select'] *)
Definition is_select_key (k : PathKey) : bool :=
  match k with
  | PStr s => s =? "select"
  | PNum _ => false
  end.

Definition nullish (v : JsValue) : bool := is_undefined v || is_null v.

(** The loop of [Document.normalizePath]: [path] is what is left to shift,
    [pointer] walks the caller's selection, [newPath] is built in order. *)
Fixpoint normalizePath_loop (path : list PathKey) (pointer : JsValue)
  (newPath : list PathKey) : Completion (list PathKey) :=
  match path with
  | [] => Normal newPath
  | key :: rest =>
      if negb (Array_isArray pointer) && is_zero_index key then
        normalizePath_loop rest pointer newPath
      else if is_select_key key then
        if nullish pointer then
          Throw "TypeError: Cannot read properties of undefined (reading 'select')"
        else if negb (truthy (get pointer "select")) then
          normalizePath_loop rest (get pointer "include") (newPath ++ [key])
        else
          normalizePath_loop rest (get pointer "select") (newPath ++ [key])
      else if truthy pointer && truthy (get pointer (property_name key)) then
        normalizePath_loop rest (get pointer (property_name key)) (newPath ++ [key])
      else
        normalizePath_loop rest pointer (newPath ++ [key])
  end.

(** [private normalizePath(inputPath, select)] *)
Definition normalizePath (inputPath : list PathKey) (select : JsValue)
  : Completion (list PathKey) :=
  normalizePath_loop inputPath select [].

(** [path.join('.')] *)
Definition join_path (p : list PathKey) : string :=
  String.concat "." (map property_name p).

Definition PrismaClientValidationError : string := "PrismaClientValidationError".

(** [!select ? {} : select] *)
Definition default_select (select : JsValue) : JsValue :=
  if negb (truthy select) then JObject [] else select.

Definition invalidChildren (d : Document) : list Field :=
  filter (fun child => f_hasInvalidChild child || f_hasInvalidArg child) (doc_children d).

(** [select && select.select ? 'select' : select.include ? 'include' : undefined],
    with the default value of [collectErrors]'s parameter applied. *)
Definition validate_prefix (select : JsValue) : string :=
  if truthy select && truthy (get select "select") then "select"
  else if truthy (get select "include") then "include"
  else "select".

Definition slice1 (p : list PathKey) : list PathKey := tl p.

(** The two error lists [Document.validate] gathers from the invalid
    children, paths still structural. *)
Definition validate_collect (d : Document) (select : JsValue) (isTopLevelQuery : bool)
  : CollectedErrors :=
  let select := default_select select in
  let prefix := validate_prefix select in
  let adjust := fun p => if isTopLevelQuery then p else slice1 p in
  fold_left
    (fun acc child =>
       let errors := Field_collectErrors prefix child in
       mkCollected
         (fieldErrors acc
          ++ map (fun e => mkFieldError (fe_error e) (adjust (fe_path e))) (fieldErrors errors))
         (argErrors acc
          ++ map (fun e => mkArgError (ae_error e) (adjust (ae_path e)) (ae_id e))
               (argErrors errors)))
    (invalidChildren d) (mkCollected [] []).

(** The normalised, dot-joined paths computed while the message is built. *)
Definition validate_paths (d : Document) (select : JsValue) (isTopLevelQuery : bool)
  : Completion (list string * list string) :=
  let errors := validate_collect d select isTopLevelQuery in
  let select := default_select select in
  fps <- mapM (fun e => p <- normalizePath (fe_path e) select ;; Normal (join_path p))
           (fieldErrors errors) ;;
  aps <- mapM (fun e => p <- normalizePath (ae_path e) select ;; Normal (join_path p))
           (argErrors errors) ;;
  Normal (fps, aps).

(** [Document.validate(select, isTopLevelQuery, ...)]: returns when no child
    is flagged, otherwise builds the message and throws
    [PrismaClientValidationError].  Message rendering is left to the
    formatting helpers; what it needs from this module are the normalised
    paths. *)
Definition Document_validate (d : Document) (select : JsValue) (isTopLevelQuery : bool)
  : Completion unit :=
  if (length (invalidChildren d) =? 0)%nat then Normal tt
  else
    _ <- validate_paths d select isTopLevelQuery ;;
    Throw PrismaClientValidationError.

(** ** Imported helpers

    The module imports small utilities from neighbouring files
    (./utils/common, ./utils/deep-extend, ./core/extensions/...).  Those whose
    behaviour the module relies on only through their result are taken as
    parameters. *)

Record Helpers : Type := mkHelpers {
  (** [getGraphQLType(value, inputType)]: the inferred kind of a value *)
  getGraphQLType : JsValue -> option SchemaArgInputType -> string;
  (** [stringifyGraphQLType(type)] *)
  stringifyGraphQLType : ArgType -> string;
  (** [wrapWithList(str, isList)] *)
  wrapWithList : string -> bool -> string;
  (** [getSuggestion(name, candidates)] *)
  getSuggestion : string -> list string -> option string;
  (** [isObject(value)] *)
  isObject : JsValue -> bool;
  (** [String(value)] for a value that is not a string *)
  ToString : JsValue -> string;
  (** [deepExtend(target, source)] *)
  deepExtend : JsValue -> JsValue -> JsValue;
  (** [extensions.getAllComputedFields(modelName)]: the computed field names *)
  getAllComputedFields : string -> list string;
  (** [applyComputedFieldsToSelection(selection, computedFields)] *)
  applyComputedFieldsToSelection : JsValue -> list string -> JsValue;
  (** [isGroupByOutputName(name)] *)
  isGroupByOutputName : string -> bool;
}.

(** The numbers union scoring is computed with, and the operations
    [valueToArg] applies to them. *)
Record NumberOps : Type := mkNumberOps {
  Num : Type;
  of_nat : nat -> Num;
  add : Num -> Num -> Num;
  mul : Num -> Num -> Num;
  Math_exp : Num -> Num;
  Math_log : Num -> Num;
  (** [a < b] *)
  lt : Num -> Num -> bool;
}.

(** Modelled from the spec: ./utils/filterObject is not among the sources.
    The call site ("filter out undefined values and treat them if they
    weren't provided") and the spec's "each present key" fix what
    [cleanObject] does on an object: it keeps the properties that are not
    [undefined].  A value that is not an object is handed back. *)
Definition cleanObject (obj : JsValue) : JsValue :=
  if negb (truthy obj) || negb (typeof obj =? "object") then obj
  else JObject (filter (fun kv => negb (is_undefined (snd kv))) (own_entries obj)).

(** Modelled from the spec: ./utils/omit is not among the sources; the
    selection compiler compiles a field's arguments "from the value's keys,
    excluding the two reserved descent keys". *)
Definition omit (object : JsValue) (paths : list string) : JsValue :=
  JObject (filter (fun kv => negb (existsb (String.eqb (fst kv)) paths)) (own_entries object)).

(** Modelled from the spec: [unionBy] of ./utils/common is not among the
    sources; it concatenates two arrays and keeps, for every key, the first
    element that has it. *)
Fixpoint uniqBy {A : Type} (key : A -> string) (l : list A) (seen : list string) : list A :=
  match l with
  | [] => []
  | x :: rest =>
      if existsb (String.eqb (key x)) seen then uniqBy key rest seen
      else x :: uniqBy key rest (key x :: seen)
  end.

Definition unionBy {A : Type} (arr1 arr2 : list A) (iteratee : A -> string) : list A :=
  uniqBy iteratee (arr1 ++ arr2) [].

(** Modelled from the spec: ./utils/date is not among the sources.  A Date
    object is a [JDate]; [isDate(value)] recognises it and
    [isValidDate(value)] reads its validity, which is what [invalidDateArg]
    reports on. *)
Definition isDate (v : JsValue) : bool :=
  match v with JDate _ => true | _ => false end.

Definition isValidDate (v : JsValue) : bool :=
  match v with JDate valid => valid | _ => false end.

(** [haystack.includes(needle)] *)
Fixpoint includes (haystack needle : string) : bool :=
  String.prefix needle haystack
  || match haystack with
     | EmptyString => false
     | String _ rest => includes rest needle
     end.

(** *** [isDecimalString]

    The source tests the value against a case-insensitive anchored pattern:
    an optional minus sign; then either one or more digits optionally
    followed by a dot and any number of digits, or a dot followed by one or
    more digits; then optionally [e], an optional sign and one or more
    digits; then the end of the string. *)

Definition is_digit (c : ascii) : bool :=
  let n := nat_of_ascii c in (48 <=? n)%nat && (n <=? 57)%nat.

(** A greedy run of digits: how many were consumed, and the rest. *)
Fixpoint span_digits (s : string) : nat * string :=
  match s with
  | String c rest =>
      if is_digit c then let '(n, r) := span_digits rest in (S n, r) else (O, s)
  | EmptyString => (O, s)
  end.

(** The mantissa alternative: the rest after it, if one is there. *)
Definition match_mantissa (s : string) : option string :=
  let '(n, r) := span_digits s in
  match n with
  | S _ =>
      match r with
      | String "."%char r' => Some (snd (span_digits r'))
      | _ => Some r
      end
  | O =>
      match r with
      | String "."%char r' =>
          let '(m, r'') := span_digits r' in
          match m with S _ => Some r'' | O => None end
      | _ => None
      end
  end.

(** The optional exponent, then the end of the string. *)
Definition match_exponent_end (s : string) : bool :=
  match s with
  | EmptyString => true
  | String c r =>
      if (Ascii.eqb c "e" || Ascii.eqb c "E")%char then
        let r' := match r with
                  | String "+"%char t => t
                  | String "-"%char t => t
                  | _ => r
                  end in
        let '(n, rest) := span_digits r' in
        match n, rest with
        | S _, EmptyString => true
        | _, _ => false
        end
      else false
  end.

Definition isDecimalString (value : string) : bool :=
  let s := match value with
           | String "-"%char t => t
           | _ => value
           end in
  match match_mantissa s with
  | Some rest => match_exponent_end rest
  | None => false
  end.

(** *** [getDepth] *)
Fixpoint getDepth (object : JsValue) : nat :=
  let over :=
    fix over (vals : list JsValue) (level : nat) : nat :=
      match vals with
      | [] => level
      | v :: rest =>
          if typeof v =? "object" then over rest (Nat.max (getDepth v + 1) level)
          else over rest level
      end in
  match object with
  | JArray l => over l 1%nat
  | JObject props =>
      (fix over_props (ps : list (string * JsValue)) (level : nat) : nat :=
         match ps with
         | [] => level
         | (_, v) :: rest =>
             if typeof v =? "object" then over_props rest (Nat.max (getDepth v + 1) level)
             else over_props rest level
         end) props 1%nat
  | _ => 1%nat
  end.

(** [Array.prototype.sort(comparefn)], as an insertion sort that places an
    element before the first one it compares below. *)
Fixpoint sort_insert {A : Type} (comparefn : A -> A -> Z) (x : A) (l : list A) : list A :=
  match l with
  | [] => [x]
  | y :: rest =>
      if (comparefn x y <? 0)%Z then x :: y :: rest
      else y :: sort_insert comparefn x rest
  end.

Definition Array_sort {A : Type} (comparefn : A -> A -> Z) (l : list A) : list A :=
  fold_left (fun acc x => sort_insert comparefn x acc) l [].

(** ** Argument inference engine *)

Section Inference.

Variable H : Helpers.
Variable N : NumberOps.
Variable dmmf : DMMFHelper.

(** The [InputType] object an [ArgType] stands for. *)
Definition resolveInput (name : string) : InputType := inputTypeMap dmmf name.

(** [inputType.type.constraints], [undefined] when the type is not an input
    object type. *)
Definition type_constraints (t : ArgType) : option Constraints :=
  match t with
  | ATInput n => Some (constraints (resolveInput n))
  | _ => None
  end.

Definition plainArg (key : string) (value : JsValue) (isEnum : bool)
  (error : option InvalidArgError) (schemaArg : option SchemaArg)
  (inputType : option SchemaArgInputType) : Arg :=
  new_Arg (mkArgOptions key (AVPlain value) isEnum error schemaArg inputType).

Definition is_enumTypes (inputType : SchemaArgInputType) : bool :=
  FieldLocation_eqb (location inputType) enumTypes.

(** [getInvalidTypeArg(key, value, arg, bestFittingType)] *)
Definition getInvalidTypeArg (key : string) (value : JsValue) (arg : SchemaArg)
  (bestFittingType : SchemaArgInputType) : Arg :=
  plainArg key value (is_enumTypes bestFittingType)
    (Some (invalidType key value (inputTypes arg) bestFittingType))
    None (Some bestFittingType).

(** [getExpectedType(inputType, context, isList = inputType.isList)] *)
Definition getExpectedType (inputType : SchemaArgInputType) (context : MakeDocumentContext)
  : string :=
  let type0 := stringifyGraphQLType H (type inputType) in
  let type1 :=
    match modelName context with
    | Some m =>
        if FieldLocation_eqb (location inputType) fieldRefTypes && negb (m =? "")
        then (type0 ++ "<" ++ m ++ ">")%string
        else type0
    | None => type0
    end in
  wrapWithList H type1 (isList inputType).

Definition withoutList (inputType : SchemaArgInputType) : SchemaArgInputType :=
  mkSchemaArgInputType false (type inputType) (location inputType).

Definition is_ObjectEnumValue (v : JsValue) : bool :=
  match v with JObjectEnumValue _ => true | _ => false end.

Definition is_FieldRefImpl (v : JsValue) : bool :=
  match v with JFieldRef _ => true | _ => false end.

(** [isDecimalString(value)] at its call site, where the value is coerced
    to a string by the pattern test. *)
Definition isDecimalString_value (value : JsValue) : bool :=
  match value with
  | JString s => isDecimalString s
  | _ => isDecimalString (ToString H value)
  end.

(** [hasCorrectScalarType(value, inputType, context)] *)
Fixpoint hasCorrectScalarType (value : JsValue) (inputType : SchemaArgInputType)
  (context : MakeDocumentContext) {struct value} : bool :=
  let expectedType := getExpectedType inputType context in
  let graphQLType := getGraphQLType H value (Some inputType) in
  if graphQLType =? expectedType then true
  else if isList inputType && (graphQLType =? "List<>") then true
  else if (expectedType =? "Json") && negb (graphQLType =? "Symbol")
          && negb (is_ObjectEnumValue value) && negb (is_FieldRefImpl value) then true
  else if (graphQLType =? "Int") && (expectedType =? "BigInt") then true
  else if ((graphQLType =? "Int") || (graphQLType =? "Float"))
          && (expectedType =? "Decimal") then true
  else if (graphQLType =? "DateTime") && (expectedType =? "String") then true
  else if (graphQLType =? "UUID") && (expectedType =? "String") then true
  else if (graphQLType =? "String") && (expectedType =? "ID") then true
  else if (graphQLType =? "Int") && (expectedType =? "Float") then true
  else if (graphQLType =? "Int") && (expectedType =? "Long") then true
  else if (graphQLType =? "String") && (expectedType =? "Decimal")
          && isDecimalString_value value then true
  else
    match value with
    | JNull => true
    | JArray l =>
        if isList inputType
        then forallb (fun v => hasCorrectScalarType v (withoutList inputType) context) l
        else false
    | _ => false
    end.

(** [scalarToArg(key, value, arg, inputType, context)] *)
Definition scalarToArg (key : string) (value : JsValue) (arg : SchemaArg)
  (inputType : SchemaArgInputType) (context : MakeDocumentContext) : Arg :=
  if isDate value && negb (isValidDate value) then
    plainArg key value false (Some (invalidDateArg key)) (Some arg) (Some inputType)
  else if hasCorrectScalarType value inputType context then
    plainArg key value (is_enumTypes inputType) None (Some arg) (Some inputType)
  else getInvalidTypeArg key value arg inputType.

(** [scalarType(listType)] *)
Definition scalarType (listType : SchemaArgInputType) : SchemaArgInputType :=
  mkSchemaArgInputType false (type listType) (location listType).

(** [scalarOnlyArg(arg)] *)
Definition scalarOnlyArg (arg : SchemaArg) : SchemaArg :=
  mkSchemaArg (arg_name arg) (isRequired arg) (isNullable arg)
    (filter (fun inputType => negb (isList inputType)) (inputTypes arg)).

(** [typeof n === 'number' && n > 0] on an optional constraint *)
Definition is_positive_number (n : option Z) : bool :=
  match n with Some k => (0 <? k)%Z | None => false end.

(** [typeof n === 'number' && n < 2] *)
Definition is_number_below_two (n : option Z) : bool :=
  match n with Some k => (k <? 2)%Z | None => false end.

(** [Object.keys(cleanObject(v)).length] for a truthy [v] *)
Definition cleaned_key_count (v : JsValue) : nat :=
  length (own_entries (cleanObject v)).

(** What [objectToArgs] receives as [outputType]: nothing, an output object
    type, or the scalar or enum a field's [outputType.type] holds. *)
Inductive OutputArg : Type :=
| NoOutput
| ObjectOutput (outputType : OutputType)
| OtherOutput (name : string).

(** The type of [objectToArgs] as [tryInferArgs] calls it: the input type
    argument is whatever [inputType.type] holds. *)
Definition ObjectToArgs : Type :=
  JsValue -> ArgType -> MakeDocumentContext -> option (list SchemaArgInputType)
  -> OutputArg -> Completion Args.

Section OneLevel.

(** The recursive callee. *)
Variable objectToArgs : ObjectToArgs.

(** [for (const nestedArgInputType of arg.inputTypes) { ... }] in the branch
    of [tryInferArgs] for a value that was not wrapped into a list *)
Fixpoint tryNestedInputTypes (key : string) (value : JsValue) (arg : SchemaArg)
  (context : MakeDocumentContext) (candidates : list SchemaArgInputType)
  : Completion (option Arg) :=
  match candidates with
  | [] => Normal None
  | nestedArgInputType :: rest =>
      args <- objectToArgs value (type nestedArgInputType) context None NoOutput ;;
      if (length (Args_collectErrors args) =? 0)%nat then
        Normal (Some (new_Arg (mkArgOptions key (AVArgs args) false None (Some arg)
                                 (Some nestedArgInputType))))
      else tryNestedInputTypes key value arg context rest
  end.

(** [value.map((v, i) => ...)] at the end of [tryInferArgs] *)
Fixpoint compileElements (arg : SchemaArg) (inputType : SchemaArgInputType)
  (context : MakeDocumentContext) (i : nat) (elements : list JsValue)
  : Completion (list ArgElement) :=
  match elements with
  | [] => Normal []
  | v :: rest =>
      el <- (if isList inputType && negb (typeof v =? "object") then Normal (ElPlain v)
             else if negb (typeof v =? "object") || Array_isArray v then
               Normal (ElArg (getInvalidTypeArg (String_of_index i) v (scalarOnlyArg arg)
                                (scalarType inputType)))
             else
               args <- objectToArgs v (type inputType) context None NoOutput ;;
               Normal (ElArgs args)) ;;
      els <- compileElements arg inputType context (S i) rest ;;
      Normal (el :: els)
  end.

(** The first guard of the null check: the candidate is an input object
    type that asks for at least one field. *)
Definition isAtLeastOne (inputType : SchemaArgInputType) : bool :=
  if isInputArgType (type inputType)
  then match type_constraints (type inputType) with
       | Some c => is_positive_number (minNumFields c)
       | None => false
       end
  else false.

(** [if (!Array.isArray(value) && inputType.isList) { if (key !== 'updateMany')
    value = [value] }] *)
Definition wrapIntoList (key : string) (value : JsValue) (inputType : SchemaArgInputType)
  : JsValue :=
  if negb (Array_isArray value) && isList inputType then
    if negb (key =? "updateMany") then JArray [value] else value
  else value.

(** The rest of [tryInferArgs] for a list-shaped candidate, run on the value
    as it stands after the wrapping step. *)
Definition inferListArg (key : string) (value : JsValue) (arg : SchemaArg)
  (inputType : SchemaArgInputType) (context : MakeDocumentContext)
  : Completion (option Arg) :=
  if is_enumTypes inputType || FieldLocation_eqb (location inputType) scalar then
    Normal (Some (scalarToArg key value arg inputType context))
  else
  let argConstraints := type_constraints (type inputType) in
  let minFields := match argConstraints with Some c => minNumFields c | None => None end in
  let maxFields := match argConstraints with Some c => maxNumFields c | None => None end in
  let hasAtLeastOneError :=
    if is_positive_number minFields then
      match value with
      | JArray l =>
          existsb (fun v => negb (truthy v) || (cleaned_key_count v =? 0)%nat) l
      | _ => false
      end
    else false in
  let err :=
    if hasAtLeastOneError then
      match type inputType with
      | ATInput n => Some (atLeastOne key (resolveInput n) None)
      | _ => None
      end
    else
      let hasOneOfError :=
        if is_number_below_two maxFields then
          match value with
          | JArray l =>
              find (fun v => negb (truthy v) || negb (cleaned_key_count v =? 1)%nat) l
          | _ => None
          end
        else None in
      match hasOneOfError, type inputType with
      | Some found, ATInput n =>
          if truthy found
          then Some (atMostOne key (resolveInput n) (map fst (own_entries found)))
          else None
      | _, _ => None
      end in
  match value with
  | JArray elements =>
      els <- compileElements arg inputType context 0 elements ;;
      Normal (Some (new_Arg (mkArgOptions key (AVArray els) false err (Some arg)
                               (Some inputType))))
  | _ =>
      nested <- tryNestedInputTypes key value arg context (inputTypes arg) ;;
      match nested with
      | Some a => Normal (Some a)
      | None => Throw "TypeError: value.map is not a function"
      end
  end.

(** The branch of [tryInferArgs] for a candidate that is not a list. *)
Definition inferSingleArg (key : string) (value : JsValue) (arg : SchemaArg)
  (inputType : SchemaArgInputType) (context : MakeDocumentContext)
  : Completion (option Arg) :=
  match type inputType with
  | ATInput typeName =>
      let inputObject := resolveInput typeName in
      if negb (typeof value =? "object") || Array_isArray value
         || (FieldLocation_eqb (location inputType) inputObjectTypes
             && negb (isObject H value))
      then Normal (Some (getInvalidTypeArg key value arg inputType))
      else
        let val := cleanObject value in
        let keys := map fst (own_entries val) in
        let numKeys := length keys in
        let c := constraints inputObject in
        let error :=
          if ((numKeys =? 0)%nat && is_positive_number (minNumFields c))
             || match constraint_fields c with
                | Some fields =>
                    negb (existsb (fun field => existsb (String.eqb field) keys) fields)
                | None => false
                end
          then Some (atLeastOne key inputObject (constraint_fields c))
          else if (1 <? numKeys)%nat && is_number_below_two (maxNumFields c)
          then Some (atMostOne key inputObject keys)
          else None in
        value' <- (if is_null val then Normal (AVPlain JNull)
                   else
                     args <- objectToArgs val (type inputType) context
                               (Some (inputTypes arg)) NoOutput ;;
                     Normal (AVArgs args)) ;;
        Normal (Some (new_Arg (mkArgOptions key value' (is_enumTypes inputType) error
                                 (Some arg) (Some inputType))))
  | _ => Normal (Some (scalarToArg key value arg inputType context))
  end.

(** [tryInferArgs(key, value, arg, inputType, context)] *)
Definition tryInferArgs (key : string) (value : JsValue) (arg : SchemaArg)
  (inputType : SchemaArgInputType) (context : MakeDocumentContext)
  : Completion (option Arg) :=
  if is_undefined value then
    if negb (isRequired arg) then Normal None
    else
      Normal (Some (plainArg key value (is_enumTypes inputType)
                      (Some (missingArg key arg false false)) None (Some inputType)))
  else if is_null value && negb (isNullable arg) && negb (isRequired arg)
          && negb (isAtLeastOne inputType) then
    Normal (Some (plainArg key value (is_enumTypes inputType)
                    (Some (invalidNullArg key (inputTypes arg) false false))
                    None (Some inputType)))
  else if negb (isList inputType) then inferSingleArg key value arg inputType context
  else inferListArg key (wrapIntoList key value inputType) arg inputType context.

(** An entry of [argsWithErrors] / [argsWithScores]. *)
Record Scored : Type := mkScored {
  sc_score : Num N;
  sc_arg : Arg;
  sc_errors : list ArgError;
}.

(** The score [valueToArg] gives one collected error of a candidate. *)
Definition errorScore (arg : Arg) (e : ArgError) : Num N :=
  let score :=
    match ae_error e with
    | invalidType _ providedValue _ _ =>
        add N (mul N (of_nat N 2) (Math_exp N (of_nat N (getDepth providedValue))))
              (of_nat N 1)
    | _ => of_nat N 1
    end in
  let score := add N score (Math_log N (of_nat N (length (ae_path e)))) in
  let score :=
    match ae_error e with
    | missingArg _ _ _ _ =>
        match arg_inputType arg with
        | Some it =>
            if isInputArgType (type it) && includes (type_name (type it)) "Unchecked"
            then mul N score (of_nat N 2) else score
        | None => score
        end
    | _ => score
    end in
  match ae_error e with
  | invalidName _ _ _ _ originalType _ _ =>
      if includes (input_name originalType) "Unchecked"
      then mul N score (of_nat N 2) else score
  | _ => score
  end.

(** [sum(n)] *)
Definition sum (n : list (Num N)) : Num N :=
  fold_left (fun acc curr => add N acc curr) n (of_nat N 0).

Definition candidateScore (arg : Arg) (errors : list ArgError) : Num N :=
  add N (of_nat N (length errors)) (sum (map (errorScore arg) errors)).

(** [(a, b) => (a.score < b.score ? -1 : 1)] *)
Definition byScore (a b : Scored) : Z :=
  if lt N (sc_score a) (sc_score b) then (-1)%Z else 1%Z.

(** The state of the loop over [arg.inputTypes] in [valueToArg]. *)
Inductive LoopState : Type :=
| Returned (result : Arg)
| Pending (maybeArg : option Arg) (argsWithErrors : list (Arg * list ArgError)).

Fixpoint valueToArg_loop (key : string) (value : JsValue) (arg : SchemaArg)
  (context : MakeDocumentContext) (candidates : list SchemaArgInputType)
  (argsWithErrors : list (Arg * list ArgError)) (maybeArg : option Arg)
  : Completion LoopState :=
  match candidates with
  | [] => Normal (Pending maybeArg argsWithErrors)
  | inputType :: rest =>
      maybeArg <- tryInferArgs key value arg inputType context ;;
      match maybeArg with
      | Some a =>
          let argErrors := Arg_collectErrors a in
          if (length argErrors =? 0)%nat then Normal (Returned a)
          else valueToArg_loop key value arg context rest
                 (argsWithErrors ++ [(a, argErrors)]) maybeArg
      | None => valueToArg_loop key value arg context rest argsWithErrors maybeArg
      end
  end.

(** [valueToArg(key, value, arg, context)] *)
Definition valueToArg (key : string) (value : JsValue) (arg : SchemaArg)
  (context : MakeDocumentContext) : Completion (option Arg) :=
  st <- valueToArg_loop key value arg context (inputTypes arg) [] None ;;
  match st with
  | Returned a => Normal (Some a)
  | Pending maybeArg argsWithErrors =>
      if match maybeArg with Some a => arg_hasError a | None => false end
         && (0 <? length argsWithErrors)%nat
      then
        let argsWithScores :=
          map (fun ae => mkScored (candidateScore (fst ae) (snd ae)) (fst ae) (snd ae))
              argsWithErrors in
        match Array_sort byScore argsWithScores with
        | best :: _ => Normal (Some (sc_arg best))
        | [] => Throw "TypeError: Cannot read properties of undefined (reading 'arg')"
        end
      else Normal maybeArg
  end.

End OneLevel.

(** The type of [valueToArg] as [objectToArgs] calls it. *)
Definition ValueToArg : Type :=
  string -> JsValue -> SchemaArg -> MakeDocumentContext -> Completion (option Arg).

Section ObjectLevel.

Variable valueToArg_rec : ValueToArg.

(** The step of [entries.reduce(...)] in [objectToArgs]. *)
Definition objectToArgs_step (inputType : InputType) (context : MakeDocumentContext)
  (possibilities : option (list SchemaArgInputType)) (outputType : OutputArg)
  (acc : list Arg) (entry : string * JsValue) : Completion (list Arg) :=
  let '(argName, value) := entry in
  let args := input_fields inputType in
  match find (fun a => arg_name a =? argName) args with
  | None =>
      isField <- (if typeof value =? "boolean" then
                    match outputType with
                    | NoOutput => Normal false
                    | ObjectOutput ot =>
                        Normal (existsb (fun f => field_name f =? argName) (output_fields ot))
                    | OtherOutput _ =>
                        Throw "TypeError: Cannot read properties of undefined (reading 'some')"
                    end
                  else Normal false) ;;
      let didYouMeanField := if isField then Some argName else None in
      let didYouMeanArg :=
        match didYouMeanField with
        | Some n => if n =? "" then getSuggestion H argName (map arg_name args ++ ["select"])
                    else None
        | None => getSuggestion H argName (map arg_name args ++ ["select"])
        end in
      let didYouMeanArg :=
        match didYouMeanArg with
        | Some n => if n =? "" then None else Some n
        | None => None
        end in
      Normal (acc ++ [plainArg argName value false
                        (Some (invalidName argName value didYouMeanField didYouMeanArg
                                 inputType possibilities
                                 (match outputType with
                                  | ObjectOutput ot => Some ot
                                  | _ => None
                                  end)))
                        None None])
  | Some schemaArg =>
      arg <- valueToArg_rec argName value schemaArg context ;;
      match arg with
      | Some a => Normal (acc ++ [a])
      | None => Normal acc
      end
  end.

Definition has_missing_or_atLeastOne (arg : Arg) : bool :=
  match arg_error arg with
  | Some e =>
      ArgErrorKind_eqb (arg_error_type e) KMissingArg
      || ArgErrorKind_eqb (arg_error_type e) KAtLeastOne
  | None => false
  end.

(** [Boolean(inputType.constraints.minNumFields)] *)
Definition truthy_number (n : option Z) : bool :=
  match n with Some k => negb (k =? 0)%Z | None => false end.

(** The optional neighbour arguments [objectToArgs] lists when an argument
    is missing. *)
Definition optionalMissingArgs (inputType : InputType) (obj : JsValue) : list SchemaArg :=
  filter (fun field =>
            negb (isRequired field) && truthy obj
            && (is_undefined (get obj (arg_name field)) || is_null (get obj (arg_name field))))
         (input_fields inputType).

Definition missingArgEntry (inputType : InputType) (arg : SchemaArg) : Completion Arg :=
  match inputTypes arg with
  | [] => Throw "TypeError: Cannot read properties of undefined (reading 'location')"
  | argInputType :: _ =>
      Normal (plainArg (arg_name arg) JUndefined (is_enumTypes argInputType)
                (Some (missingArg (arg_name arg) arg
                         (truthy_number (minNumFields (constraints inputType)))
                         (match maxNumFields (constraints inputType) with
                          | Some 1%Z => true
                          | _ => false
                          end)))
                None (Some argInputType))
  end.

(** [objectToArgs(initialObj, inputType, context, possibilities, outputType)] *)
Definition objectToArgs (initialObj : JsValue) (inputType : InputType)
  (context : MakeDocumentContext) (possibilities : option (list SchemaArgInputType))
  (outputType : OutputArg) : Completion Args :=
  let context :=
    match meta_source inputType with
    | Some source => if source =? "" then context else mkContext (Some source)
    | None => context
    end in
  let obj := cleanObject initialObj in
  let requiredArgs := map (fun arg => (arg_name arg, JUndefined)) (input_fields inputType) in
  let objEntries := own_entries obj in
  let entries := unionBy objEntries requiredArgs fst in
  argsList <- reduceM (objectToArgs_step inputType context possibilities outputType)
                entries [] ;;
  if match minNumFields (constraints inputType) with
     | Some m => (Z.of_nat (length objEntries) <? m)%Z
     | None => false
     end
     || existsb has_missing_or_atLeastOne argsList
  then
    more <- mapM (missingArgEntry inputType) (optionalMissingArgs inputType obj) ;;
    Normal (new_Args (argsList ++ more))
  else Normal (new_Args argsList).

End ObjectLevel.

(** *** Tying the recursion

    [tryInferArgs], [valueToArg] and [objectToArgs] call one another; each
    descent into [objectToArgs] from an argument value uses up one level of
    the depth allotted to the run. *)
Fixpoint objectToArgs_at (depth : nat) : ObjectToArgs :=
  fun initialObj t context possibilities outputType =>
    match depth with
    | O => Diverge
    | S depth' =>
        match t with
        | ATInput name =>
            objectToArgs (valueToArg (objectToArgs_at depth')) initialObj
              (resolveInput name) context possibilities outputType
        | _ => Throw "TypeError: Cannot read properties of undefined (reading 'map')"
        end
    end.

Definition valueToArg_at (depth : nat) : ValueToArg := valueToArg (objectToArgs_at depth).

Definition tryInferArgs_at (depth : nat) := tryInferArgs (objectToArgs_at depth).

(** [objectToArgs] for an input type that is given directly, as
    [selectionToFields] does with the arguments of a field. *)
Definition objectToArgs_top (depth : nat) := objectToArgs (valueToArg_at depth).

End Inference.

(** ** Selection compiler *)

Section Compiler.

Variable H : Helpers.
Variable N : NumberOps.
Variable dmmf : DMMFHelper.

Definition is_relation (field : SchemaField) : bool :=
  FieldLocation_eqb (out_location (outputType field)) outputObjectTypes.

(** [dmmf.typeMap[(f.outputType.type as DMMF.OutputType).name] !== undefined] *)
Definition in_typeMap (f : SchemaField) : bool :=
  match out_type (outputType f) with
  | OTObject h => typeMap_defined dmmf (output_name (resolveOutput dmmf h))
  | OTEnum n => typeMap_defined dmmf n
  | OTScalar _ => typeMap_defined dmmf "undefined"
  end.

(** [getDefaultSelection(dmmf, outputType)] *)
Definition getDefaultSelection (outputType_ : OutputType) : JsValue :=
  JObject
    (uniqBy fst
       (map (fun f => (field_name f, JBool true))
          (filter (fun f =>
                     in_typeMap f
                     || FieldLocation_eqb (out_location (outputType f)) scalar
                     || FieldLocation_eqb (out_location (outputType f)) enumTypes)
                  (output_fields outputType_)))
       []).

(** [byToSelect(by)] *)
Definition byToSelect (by_ : list JsValue) : JsValue :=
  JObject
    (uniqBy fst
       (map (fun b => (match b with JString s => s | _ => ToString H b end, JBool true)) by_)
       []).

(** The output object type behind [field.outputType.type]. *)
Definition fieldOutputType (field : SchemaField) : OutputType :=
  match out_type (outputType field) with
  | OTObject h => resolveOutput dmmf h
  | OTEnum n => mkOutputType n []
  | OTScalar n => mkOutputType n []
  end.

Definition outputArg_of (field : SchemaField) : OutputArg :=
  match out_type (outputType field) with
  | OTObject h => ObjectOutput (resolveOutput dmmf h)
  | OTEnum n => OtherOutput n
  | OTScalar n => OtherOutput n
  end.

Definition errorField (name : string) (error : InvalidFieldError) : Field :=
  new_Field (mkFieldArgs name None None (Some []) (Some error)).

(** A field whose single child carries a container-level error. *)
Definition containerErrorField (name childName : string) (error : InvalidFieldError) : Field :=
  new_Field (mkFieldArgs name None None
               (Some [new_Field (mkFieldArgs childName None (Some (new_Args [])) None
                                   (Some error))])
               None).

Definition is_false (v : JsValue) : bool :=
  match v with JBool false => true | _ => false end.

Definition namespace_is (field : SchemaField) (ns : string) : bool :=
  match out_namespace (outputType field) with
  | Some n => n =? ns
  | None => false
  end.

(** The selection a field's children are compiled from. *)
Definition effectiveSelect (field : SchemaField) (value : JsValue) : JsValue :=
  let defaultSelection :=
    if is_relation field then getDefaultSelection (fieldOutputType field) else JNull in
  if truthy value then
    if truthy (get value "select") then get value "select"
    else if truthy (get value "include") then deepExtend H defaultSelection (get value "include")
    else if truthy (get value "by") && Array_isArray (get value "by")
            && namespace_is field "prisma" && is_relation field
            && isGroupByOutputName H (output_name (fieldOutputType field))
    then match get value "by" with
         | JArray l => byToSelect l
         | _ => defaultSelection
         end
    else defaultSelection
  else defaultSelection.

(** The fields [selectionToFields] reports for the keys of a non-empty
    [include] that are not relation fields of the target type. *)
Definition invalidIncludeFields (field : SchemaField) (keys : list string) : list Field :=
  let fieldOutput := fieldOutputType field in
  let allowedKeys :=
    map field_name
      (filter (fun f => FieldLocation_eqb (out_location (outputType f)) outputObjectTypes)
              (output_fields fieldOutput)) in
  let invalidKeys := filter (fun k => negb (existsb (String.eqb k) allowedKeys)) keys in
  map (fun invalidKey =>
         containerErrorField invalidKey invalidKey
           (invalidFieldName (output_name fieldOutput) invalidKey
              (match getSuggestion H invalidKey allowedKeys with
               | Some n => if n =? "" then None else Some n
               | None => None
               end)
              fieldOutput true
              (existsb (fun f => field_name f =? invalidKey) (output_fields fieldOutput))))
      invalidKeys.

(** What the checks on [include] and [select] decide for one key: stop with
    the fields pushed so far, or go on (the [includeAndSelect] branch pushes
    a field and goes on). *)
Inductive DescentCheck : Type :=
| StopWith (pushed : list Field)
| GoOn (pushed : list Field).

Definition checkDescent (name : string) (field : SchemaField) (value : JsValue)
  : DescentCheck :=
  if truthy value then
    if truthy (get value "select") && truthy (get value "include") then
      GoOn [containerErrorField name "include" (includeAndSelect field)]
    else if truthy (get value "include") then
      let keys := map fst (own_entries (get value "include")) in
      if (length keys =? 0)%nat then
        StopWith [containerErrorField name "include" (emptyInclude field)]
      else if is_relation field then
        match invalidIncludeFields field keys with
        | [] => GoOn []
        | invalid => StopWith invalid
        end
      else GoOn []
    else if truthy (get value "select") then
      let values := map snd (own_entries (get value "select")) in
      if (length values =? 0)%nat then
        StopWith [containerErrorField name "select" (emptySelect field)]
      else if (length (filter truthy values) =? 0)%nat then
        StopWith [containerErrorField name "select" (noTrueSelect field)]
      else GoOn []
    else GoOn []
  else GoOn [].

Definition SelectionToFields : Type :=
  JsValue -> SchemaField -> MakeDocumentContext -> Completion (list Field).

Section OneField.

(** The recursive callee, and the depth allotted to argument compilation. *)
Variable selectionToFields_rec : SelectionToFields.
Variable depth : nat.

(** The reducer of [selectionToFields]: one key of the selection. *)
Definition selectionToFields_step (outputType_ : OutputType) (computedFields : list string)
  (context : MakeDocumentContext) (acc : list Field) (entry : string * JsValue)
  : Completion (list Field) :=
  let '(name, value) := entry in
  match find (fun f => field_name f =? name) (output_fields outputType_) with
  | None =>
      if existsb (String.eqb name) computedFields then Normal acc
      else
        Normal (acc ++ [errorField name
                          (invalidFieldName (output_name outputType_) name
                             (getSuggestion H name
                                (map field_name (output_fields outputType_) ++ computedFields))
                             outputType_ false false)])
  | Some field =>
      if FieldLocation_eqb (out_location (outputType field)) scalar
         && (length (field_args field) =? 0)%nat
         && negb (typeof value =? "boolean")
      then Normal (acc ++ [errorField name
                             (invalidFieldType (output_name outputType_) name value)])
      else if is_false value then Normal acc
      else
        let transformedField :=
          mkInputType (field_name field) (mkConstraints None None None) None
            (field_args field) in
        args <- (if typeof value =? "object" then
                   a <- objectToArgs_top H N dmmf depth (omit value ["include"; "select"])
                          transformedField context (Some []) (outputArg_of field) ;;
                   Normal (Some a)
                 else Normal None) ;;
        match checkDescent name field value with
        | StopWith pushed => Normal (acc ++ pushed)
        | GoOn pushed =>
            let select := effectiveSelect field value in
            children <- (if negb (is_false select) && is_relation field then
                           let modelName_ :=
                             match out_type (outputType field) with
                             | OTScalar _ => modelName context
                             | _ =>
                                 if namespace_is field "model" && is_relation field
                                 then Some (output_name (fieldOutputType field))
                                 else modelName context
                             end in
                           cs <- selectionToFields_rec select field (mkContext modelName_) ;;
                           Normal (Some cs)
                         else Normal None) ;;
            Normal (acc ++ pushed
                    ++ [new_Field (mkFieldArgs name (Some field) args children None)])
        end
  end.

(** [selectionToFields({ dmmf, selection, schemaField, path, context, extensions })] *)
Definition selectionToFields (selection : JsValue) (schemaField : SchemaField)
  (context : MakeDocumentContext) : Completion (list Field) :=
  let outputType_ := fieldOutputType schemaField in
  let computedFields :=
    match modelName context with
    | Some m => if m =? "" then [] else getAllComputedFields H m
    | None => []
    end in
  let selection := applyComputedFieldsToSelection H selection computedFields in
  entries <- Object_entries selection ;;
  reduceM (selectionToFields_step outputType_ computedFields context) entries [].

End OneField.

Fixpoint selectionToFields_at (depth : nat) : SelectionToFields :=
  fun selection schemaField context =>
    match depth with
    | O => Diverge
    | S depth' =>
        selectionToFields (selectionToFields_at depth') depth selection schemaField context
    end.

Record DocumentInput : Type := mkDocumentInput {
  rootTypeName : DocumentType;
  rootField : string;
  select : JsValue;
  di_modelName : option string;
}.

Definition rootTypeName_string (t : DocumentType) : string :=
  match t with query => "query" | mutation => "mutation" end.

(** [makeDocument({ dmmf, rootTypeName, rootField, select, modelName, extensions })] *)
Definition makeDocument (depth : nat) (input : DocumentInput) : Completion Document :=
  let select := default_select (select input) in
  let fakeRootField :=
    mkSchemaField (rootTypeName_string (rootTypeName input)) []
      (mkSchemaFieldOutputType false
         (OTObject (match rootTypeName input with query => HQuery | mutation => HMutation end))
         outputObjectTypes None) in
  let context := mkContext (di_modelName input) in
  children <- selectionToFields_at depth (JObject [(rootField input, select)])
                fakeRootField context ;;
  Normal (mkDocument (rootTypeName input) children).

End Compiler.

(** ** Result scalar remapper *)

(** The host constructors and functions the deserializers apply:
    [new Date(value)], [JSON.parse(value)], [Buffer.from(value, 'base64')],
    [new Decimal(value)], [BigInt(value)].  Each returns or throws. *)
Record Deserializers : Type := mkDeserializers {
  new_Date : JsValue -> Completion JsValue;
  JSON_parse : JsValue -> Completion JsValue;
  Buffer_from_base64 : JsValue -> Completion JsValue;
  new_Decimal : JsValue -> Completion JsValue;
  BigInt_ : JsValue -> Completion JsValue;
}.

Fixpoint update_assoc {A : Type} (k : string) (v : A) (l : list (string * A))
  : list (string * A) :=
  match l with
  | [] => []
  | (k', v') :: rest =>
      if k' =? k then (k', v) :: rest else (k', v') :: update_assoc k v rest
  end.

Definition TypeError_read_nullish : string :=
  "TypeError: Cannot read properties of null or undefined".

Definition TypeError_assign_string : string :=
  "TypeError: Cannot assign to read only property of string".

(** [target[key] = v] for a property that [get] found on [target]. *)
Definition set_property (target : JsValue) (key : string) (v : JsValue)
  : Completion JsValue :=
  match target with
  | JObject props => Normal (JObject (update_assoc key v props))
  | JArray l => Normal (JArray (map snd (update_assoc key v (index_entries_from 0 l))))
  | JString _ => Throw TypeError_assign_string
  | _ => Normal target
  end.

(** [entry[key]], which throws on [null] and [undefined]. *)
Definition get_checked (entry : JsValue) (key : string) : Completion JsValue :=
  if nullish entry then Throw TypeError_read_nullish
  else Normal (get entry key).

Section MapScalars.

Variable D : Deserializers.

(** [deserializers[outputType]] *)
Definition deserializers (outputType_ : string) : option (JsValue -> Completion JsValue) :=
  if outputType_ =? "DateTime" then Some (new_Date D)
  else if outputType_ =? "Json" then Some (JSON_parse D)
  else if outputType_ =? "Bytes" then Some (Buffer_from_base64 D)
  else if outputType_ =? "Decimal" then Some (new_Decimal D)
  else if outputType_ =? "BigInt" then Some (BigInt_ D)
  else None.

(** The body run on [data] (or on one [entry] of it) for a leaf child. *)
Definition deserializeLeaf (deserializer : JsValue -> Completion JsValue)
  (name : string) (entry : JsValue) : Completion JsValue :=
  leaf <- get_checked entry name ;;
  if negb (is_undefined leaf) && negb (is_null leaf) then
    match leaf with
    | JArray l =>
        l' <- mapM deserializer l ;;
        set_property entry name (JArray l')
    | _ =>
        leaf' <- deserializer leaf ;;
        set_property entry name leaf'
    end
  else Normal entry.

(** The string [child.schemaField?.outputType.type] holds, when it is a
    non-empty string. *)
Definition scalarKind (child : Field) : option string :=
  match f_schemaField child with
  | Some sf =>
      match out_type (outputType sf) with
      | OTScalar n => if n =? "" then None else Some n
      | _ => None
      end
  | None => None
  end.

Definition deserializeChild (child : Field) (data : JsValue) : Completion JsValue :=
  match scalarKind child with
  | Some kind =>
      match deserializers kind with
      | Some deserializer =>
          match data with
          | JArray entries =>
              entries' <- mapM (deserializeLeaf deserializer (f_name child)) entries ;;
              Normal (JArray entries')
          | _ => deserializeLeaf deserializer (f_name child) data
          end
      | None => Normal data
      end
  | None => Normal data
  end.

Definition is_relation_child (child : Field) : bool :=
  match f_schemaField child with
  | Some sf => FieldLocation_eqb (out_location (outputType sf)) outputObjectTypes
  | None => false
  end.

(** The effect on [entry] of [mapScalars({ field: child, data: entry[name] })],
    whose in-place changes to the nested object show in [entry]. *)
Definition descend (recur : JsValue -> Completion JsValue) (name : string)
  (entry : JsValue) : Completion JsValue :=
  nested <- get_checked entry name ;;
  nested' <- recur nested ;;
  if truthy nested && (typeof nested =? "object") then set_property entry name nested'
  else Normal entry.

(** [mapScalars({ field, data })] *)
Fixpoint mapScalars (field : Field) (data : JsValue) : Completion JsValue :=
  match field with
  | mkField _ _ children _ _ _ schemaField =>
      match children, schemaField with
      | Some cs, Some _ =>
          if negb (truthy data) || negb (typeof data =? "object") then Normal data
          else
            (fix each (cs : list Field) (data : JsValue) : Completion JsValue :=
               match cs with
               | [] => Normal data
               | child :: rest =>
                   data <- deserializeChild child data ;;
                   data <- (if is_relation_child child then
                              match data with
                              | JArray entries =>
                                  entries' <- mapM (descend (mapScalars child) (f_name child))
                                                entries ;;
                                  Normal (JArray entries')
                              | _ => descend (mapScalars child) (f_name child) data
                              end
                            else Normal data) ;;
                   each rest data
               end) cs data
      | _, _ => Normal data
      end
  end.

End MapScalars.

(** The wire-primitive kinds that have a deserializer. *)
Definition designatedKinds : list string :=
  ["DateTime"; "Json"; "Bytes"; "Decimal"; "BigInt"].

(** ** A sample client

    Concrete helpers, numbers and a small schema on which the model is run.
    The helper implementations are stand-ins for the imported utilities. *)

Module Sample.

(** Modelled from the spec: [getGraphQLType] of ./utils/common is not among
    the sources; this stand-in infers the "primitive kind" of a value the way
    the spec names the kinds (Int, String, Boolean, DateTime, Json, Symbol,
    and List<...> for arrays, List<> for the empty one). *)
Fixpoint sample_getGraphQLType (value : JsValue) (inputType : option SchemaArgInputType)
  : string :=
  match value with
  | JUndefined => "undefined"
  | JNull => "null"
  | JBool _ => "Boolean"
  | JNumber _ => "Int"
  | JString _ => "String"
  | JSymbol _ => "Symbol"
  | JDate _ => "DateTime"
  | JObjectEnumValue n => n
  | JFieldRef _ => "Json"
  | JHost tag _ => tag
  | JArray [] => "List<>"
  | JArray (v :: _) => ("List<" ++ sample_getGraphQLType v inputType ++ ">")%string
  | JObject _ => "Json"
  end.

Definition sample_wrapWithList (str : string) (isList_ : bool) : string :=
  if isList_ then ("List<" ++ str ++ ">")%string else str.

Definition sample_isObject (v : JsValue) : bool :=
  match v with JObject _ => true | _ => false end.

Definition sample_ToString (v : JsValue) : string :=
  match v with
  | JUndefined => "undefined"
  | JNull => "null"
  | JBool true => "true"
  | JBool false => "false"
  | JNumber n => string_of_Z n
  | JString s => s
  | _ => "[object Object]"
  end.

(** A shallow merge stands in for [deepExtend]. *)
Definition sample_deepExtend (target source : JsValue) : JsValue :=
  JObject (unionBy (own_entries source) (own_entries target) fst).

Definition helpers : Helpers :=
  mkHelpers sample_getGraphQLType type_name sample_wrapWithList
    (fun _ _ => None) sample_isObject sample_ToString sample_deepExtend
    (fun _ => []) (fun selection _ => selection) (fun _ => false).

(** Scores over the real numbers. *)
Definition reals : NumberOps :=
  mkNumberOps INR Rplus Rmult exp ln (fun a b => if Rlt_dec a b then true else false).

(** A schema with one model, [User], that has a scalar [id], a scalar
    [name] and a relation [posts]; [findManyUser] takes a [where] argument
    whose input type has a list-valued [AND]. *)
Definition Int_ : SchemaArgInputType := mkSchemaArgInputType false (ATScalar "Int") scalar.
Definition String_ : SchemaArgInputType := mkSchemaArgInputType false (ATScalar "String") scalar.
Definition Json_ : SchemaArgInputType := mkSchemaArgInputType false (ATScalar "Json") scalar.

Definition UserWhereInput : InputType :=
  mkInputType "UserWhereInput" (mkConstraints None None None) None
    [ mkSchemaArg "AND" false false
        [mkSchemaArgInputType true (ATInput "UserWhereInput") inputObjectTypes];
      mkSchemaArg "id" false false [Int_];
      mkSchemaArg "name" false false [String_] ].

(** The input type of a nested [updateMany], with a single field [title]. *)
Definition PostUpdateManyInput : InputType :=
  mkInputType "PostUpdateManyInput" (mkConstraints None None None) None
    [ mkSchemaArg "title" false false [String_] ].

Definition updateManyArg : SchemaArg :=
  mkSchemaArg "updateMany" false false
    [mkSchemaArgInputType true (ATInput "PostUpdateManyInput") inputObjectTypes].

Definition scalarField (name kind : string) : SchemaField :=
  mkSchemaField name [] (mkSchemaFieldOutputType false (OTScalar kind) scalar None).

Definition PostType : OutputType :=
  mkOutputType "Post" [scalarField "id" "Int"; scalarField "title" "String"].

Definition UserType : OutputType :=
  mkOutputType "User"
    [ scalarField "id" "Int";
      scalarField "name" "String";
      mkSchemaField "posts" []
        (mkSchemaFieldOutputType true (OTObject (HNamed "Post")) outputObjectTypes
           (Some "model")) ].

Definition QueryType : OutputType :=
  mkOutputType "Query"
    [ mkSchemaField "findManyUser"
        [mkSchemaArg "where" false false
           [mkSchemaArgInputType false (ATInput "UserWhereInput") inputObjectTypes]]
        (mkSchemaFieldOutputType true (OTObject (HNamed "User")) outputObjectTypes
           (Some "model")) ].

Definition MutationType : OutputType := mkOutputType "Mutation" [].

Definition dmmf : DMMFHelper :=
  mkDMMFHelper QueryType MutationType
    (fun n => if n =? "User" then UserType
              else if n =? "Post" then PostType
              else mkOutputType n [])
    (fun n => if n =? "UserWhereInput" then UserWhereInput
              else if n =? "PostUpdateManyInput" then PostUpdateManyInput
              else mkInputType n (mkConstraints None None None) None [])
    (fun n => false).

Definition compile (rootField_ : string) (select_ : JsValue) : Completion Document :=
  makeDocument helpers reals dmmf 8 (mkDocumentInput query rootField_ select_ None).

(** [{ where: { AND: { id: "x" } } }]: [AND] is list-shaped and is given a
    single object; [id] is an Int and is given a string. *)
Definition whereAndId : JsValue :=
  JObject [("where", JObject [("AND", JObject [("id", JString "x")])])].

(** [{ select: { id: true }, include: { posts: true } }] *)
Definition selectAndInclude : JsValue :=
  JObject [("select", JObject [("id", JBool true)]);
           ("include", JObject [("posts", JBool true)])].


(** An argument that is required and not nullable, of a scalar type. *)
Definition requiredName : SchemaArg := mkSchemaArg "name" true false [String_].

(** An argument with a union of two scalar candidates. *)
Definition idOrName : SchemaArg := mkSchemaArg "id" false false [Int_; String_].

(** An input type with a required [email] and an optional [name]. *)
Definition UserCreateInput : InputType :=
  mkInputType "UserCreateInput" (mkConstraints None None None) None
    [ mkSchemaArg "email" true false [String_];
      mkSchemaArg "name" false false [String_] ].

Definition noContext : MakeDocumentContext := mkContext None.

Definition optionalName : SchemaArg := mkSchemaArg "name" false false [String_].

Definition whereAnd : SchemaArg :=
  mkSchemaArg "AND" false false
    [mkSchemaArgInputType true (ATInput "UserWhereInput") inputObjectTypes].

Definition findManyUser : SchemaField :=
  mkSchemaField "findManyUser"
    [mkSchemaArg "where" false false
       [mkSchemaArgInputType false (ATInput "UserWhereInput") inputObjectTypes]]
    (mkSchemaFieldOutputType true (OTObject (HNamed "User")) outputObjectTypes
       (Some "model")).

(** The argument compiler of the sample client, three levels deep. *)
Definition inferArgs : ObjectToArgs := objectToArgs_at helpers reals dmmf 3.

(** Deserializers that return on every input. *)
Definition deserializers : Deserializers :=
  mkDeserializers
    (fun v => Normal (JHost "Date" (sample_ToString v)))
    (fun v => Normal (JHost "JsonValue" (sample_ToString v)))
    (fun v => Normal (JHost "Buffer" (sample_ToString v)))
    (fun v => Normal (JHost "Decimal" (sample_ToString v)))
    (fun v => Normal (JHost "BigInt" (sample_ToString v))).

(** A compiled field [posts { createdAt }] with a DateTime leaf. *)
Definition postsField : Field :=
  new_Field
    (mkFieldArgs "posts"
       (Some (mkSchemaField "posts" []
                (mkSchemaFieldOutputType true (OTObject (HNamed "Post")) outputObjectTypes
                   (Some "model"))))
       None
       (Some [new_Field (mkFieldArgs "createdAt" (Some (scalarField "createdAt" "DateTime"))
                           None None None)])
       None).

(** A compiled field [posts { title }] whose only leaf is a String. *)
Definition postTitles : Field :=
  new_Field
    (mkFieldArgs "posts"
       (Some (mkSchemaField "posts" []
                (mkSchemaFieldOutputType true (OTObject (HNamed "Post")) outputObjectTypes
                   (Some "model"))))
       None
       (Some [new_Field (mkFieldArgs "title" (Some (scalarField "title" "String"))
                           None None None)])
       None).

(** A second schema, for the resolution of unions: two candidates for
    [data] that both fail on [{ x: 1, y: 2 }], with two errors and with one;
    an input type whose [post] is of an "Unchecked" type with a required
    [title]; and an [updateMany] that is either a list of input objects or a
    Json value. *)
Definition NoFieldsInput : InputType :=
  mkInputType "NoFieldsInput" (mkConstraints None None None) None [].

Definition OnlyXInput : InputType :=
  mkInputType "OnlyXInput" (mkConstraints None None None) None
    [ mkSchemaArg "x" false false [Int_] ].

Definition PostUncheckedCreateInput : InputType :=
  mkInputType "PostUncheckedCreateInput" (mkConstraints None None None) None
    [ mkSchemaArg "title" true false [String_] ].

Definition AuthorCreateInput : InputType :=
  mkInputType "AuthorCreateInput" (mkConstraints None None None) None
    [ mkSchemaArg "post" false false
        [mkSchemaArgInputType false (ATInput "PostUncheckedCreateInput") inputObjectTypes] ].

Definition unionSchema : DMMFHelper :=
  mkDMMFHelper QueryType MutationType (outputTypeMap dmmf)
    (fun n => if n =? "NoFieldsInput" then NoFieldsInput
              else if n =? "OnlyXInput" then OnlyXInput
              else if n =? "PostUncheckedCreateInput" then PostUncheckedCreateInput
              else if n =? "AuthorCreateInput" then AuthorCreateInput
              else inputTypeMap dmmf n)
    (fun n => false).

Definition unionArgs : ObjectToArgs := objectToArgs_at helpers reals unionSchema 3.

Definition noFieldsType : SchemaArgInputType :=
  mkSchemaArgInputType false (ATInput "NoFieldsInput") inputObjectTypes.
Definition onlyXType : SchemaArgInputType :=
  mkSchemaArgInputType false (ATInput "OnlyXInput") inputObjectTypes.
Definition authorType : SchemaArgInputType :=
  mkSchemaArgInputType false (ATInput "AuthorCreateInput") inputObjectTypes.
Definition postListType : SchemaArgInputType :=
  mkSchemaArgInputType true (ATInput "PostUpdateManyInput") inputObjectTypes.

Definition dataArg : SchemaArg := mkSchemaArg "data" false false [noFieldsType; onlyXType].
Definition authorArg : SchemaArg := mkSchemaArg "data" false false [authorType].
Definition updateManyOrJson : SchemaArg :=
  mkSchemaArg "updateMany" false false [postListType; Json_].

Definition xAndY : JsValue := JObject [("x", JNumber 1); ("y", JNumber 2)].

(** The candidate types of a [where] argument and of a list-shaped [AND]. *)
Definition whereType : SchemaArgInputType :=
  mkSchemaArgInputType false (ATInput "UserWhereInput") inputObjectTypes.

Definition whereListType : SchemaArgInputType :=
  mkSchemaArgInputType true (ATInput "UserWhereInput") inputObjectTypes.

(** Required arguments of an input object type, single and list-shaped. *)
Definition requiredWhere : SchemaArg := mkSchemaArg "where" true false [whereType].

Definition requiredAnd : SchemaArg := mkSchemaArg "AND" true false [whereListType].

(** [{ name: "Ann", foo: 1 }]: [foo] is no field of [UserCreateInput], and
    the required [email] is missing. *)
Definition nameAndFoo : JsValue := JObject [("name", JString "Ann"); ("foo", JNumber 1)].

End Sample.

(** ** Vocabulary of the statements *)

(** The one-directional subtype rules between kind names: a value of the
    first kind is accepted where the second is declared. *)
Definition subtype_rules : list (string * string) :=
  [ ("Int", "BigInt"); ("Int", "Float"); ("Int", "Decimal"); ("Float", "Decimal");
    ("DateTime", "String"); ("UUID", "String"); ("String", "ID"); ("Int", "Long") ].

Definition subtype_rule (graphQLType expectedType : string) : bool :=
  existsb (fun r => (fst r =? graphQLType) && (snd r =? expectedType)) subtype_rules.

Section Acceptance.

Variable H : Helpers.
Variable context : MakeDocumentContext.

(** Acceptance of a value against a declared kind as the specification
    words it: equal kinds, a subtype rule, a decimal-looking string into
    Decimal, the empty list into a list kind, the open Json kind for any
    value that is not a tagged enum value or a field reference, [null]
    always; a list against a list kind exactly when every element is accepted
    against the element kind. *)
Fixpoint accepts_as_specified (value : JsValue) (inputType : SchemaArgInputType) : bool :=
  let expectedType := getExpectedType H inputType context in
  let graphQLType := getGraphQLType H value (Some inputType) in
  let by_kind :=
    (graphQLType =? expectedType)
    || subtype_rule graphQLType expectedType
    || ((graphQLType =? "String") && (expectedType =? "Decimal")
        && isDecimalString_value H value)
    || (isList inputType && (graphQLType =? "List<>"))
    || ((expectedType =? "Json") && negb (is_ObjectEnumValue value)
        && negb (is_FieldRefImpl value))
    || is_null value in
  match value with
  | JArray l =>
      if isList inputType
      then forallb (fun v => accepts_as_specified v (withoutList inputType)) l
      else by_kind
  | _ => by_kind
  end.

(** Acceptance as the code decides it, rule by rule. *)
Inductive Accepts : JsValue -> SchemaArgInputType -> Prop :=
| accepts_same_kind value inputType :
    getGraphQLType H value (Some inputType) = getExpectedType H inputType context ->
    Accepts value inputType
| accepts_subtype value inputType :
    In (getGraphQLType H value (Some inputType), getExpectedType H inputType context)
       subtype_rules ->
    Accepts value inputType
| accepts_decimal_string value inputType :
    getGraphQLType H value (Some inputType) = "String" ->
    getExpectedType H inputType context = "Decimal" ->
    isDecimalString_value H value = true ->
    Accepts value inputType
| accepts_empty_list value inputType :
    isList inputType = true ->
    getGraphQLType H value (Some inputType) = "List<>" ->
    Accepts value inputType
| accepts_json value inputType :
    getExpectedType H inputType context = "Json" ->
    getGraphQLType H value (Some inputType) <> "Symbol" ->
    is_ObjectEnumValue value = false ->
    is_FieldRefImpl value = false ->
    Accepts value inputType
| accepts_null inputType : Accepts JNull inputType
| accepts_elements elements inputType :
    isList inputType = true ->
    Forall (fun v => Accepts v (withoutList inputType)) elements ->
    Accepts (JArray elements) inputType.

(** The rules [hasCorrectScalarType] decides on the two kind names, in the
    order it tries them. *)
Definition kind_rules (value : JsValue) (inputType : SchemaArgInputType) : bool :=
  let expectedType := getExpectedType H inputType context in
  let graphQLType := getGraphQLType H value (Some inputType) in
  (graphQLType =? expectedType)
  || (isList inputType && (graphQLType =? "List<>"))
  || ((expectedType =? "Json") && negb (graphQLType =? "Symbol")
      && negb (is_ObjectEnumValue value) && negb (is_FieldRefImpl value))
  || ((graphQLType =? "Int") && (expectedType =? "BigInt"))
  || (((graphQLType =? "Int") || (graphQLType =? "Float")) && (expectedType =? "Decimal"))
  || ((graphQLType =? "DateTime") && (expectedType =? "String"))
  || ((graphQLType =? "UUID") && (expectedType =? "String"))
  || ((graphQLType =? "String") && (expectedType =? "ID"))
  || ((graphQLType =? "Int") && (expectedType =? "Float"))
  || ((graphQLType =? "Int") && (expectedType =? "Long"))
  || ((graphQLType =? "String") && (expectedType =? "Decimal")
      && isDecimalString_value H value).

End Acceptance.

(** The Arg-level vocabulary. *)

(** The kind of the error an Arg carries itself, if any. *)
Definition own_error_kind (a : Arg) : option ArgErrorKind :=
  option_map arg_error_type (arg_error a).

(** The loop of [valueToArg] read off the candidates' results. *)
Fixpoint loop_outcome (results : list (option Arg))
  (argsWithErrors : list (Arg * list ArgError)) (maybeArg : option Arg) : LoopState :=
  match results with
  | [] => Pending maybeArg argsWithErrors
  | Some a :: rest =>
      if (length (Arg_collectErrors a) =? 0)%nat then Returned a
      else loop_outcome rest (argsWithErrors ++ [(a, Arg_collectErrors a)]) (Some a)
  | None :: rest => loop_outcome rest argsWithErrors None
  end.

(** The head of the sorted candidates is one of them, and none scores
    strictly below it. *)
Definition lowest (N : NumberOps) (best : Scored N) (l : list (Scored N)) : Prop :=
  In best l /\ forall c, In c l -> lt N (sc_score c) (sc_score best) = false.

(** The Arg [tryInferArgs] builds for a required argument left out. *)
Definition missingArgFor (key : string) (arg : SchemaArg) (inputType : SchemaArgInputType)
  : Arg :=
  plainArg key JUndefined (is_enumTypes inputType)
    (Some (missingArg key arg false false)) None (Some inputType).

(** The structural depth of a value, as the score of a type mismatch uses
    it: a value that holds no value of type object has depth 1; otherwise
    its depth is one more than that of the deepest value of type object among
    its own properties (the elements, for an array). *)
Fixpoint structural_depth (v : JsValue) : nat :=
  match v with
  | JArray l =>
      Nat.max 1 (list_max (map (fun x => if typeof x =? "object"
                                         then S (structural_depth x) else O) l))
  | JObject props =>
      Nat.max 1 (list_max (map (fun '(_, x) => if typeof x =? "object"
                                               then S (structural_depth x) else O) props))
  | _ => 1%nat
  end.

(** [name] contains [needle]. *)
Definition contains (needle name : string) : Prop :=
  exists pre post, name = (pre ++ needle ++ post)%string.

(** The errors whose score is doubled: a missing argument, when the
    candidate's own input type is an input object type whose name contains
    "Unchecked"; an unknown name, when the input type it was looked up in has
    a name that contains "Unchecked". *)
Definition doubled (candidate : Arg) (e : InvalidArgError) : Prop :=
  match e with
  | missingArg _ _ _ _ =>
      exists it n,
        arg_inputType candidate = Some it /\ type it = ATInput n /\ contains "Unchecked" n
  | invalidName _ _ _ _ originalType _ _ => contains "Unchecked" (input_name originalType)
  | _ => False
  end.

(** The score of one collected error of a candidate: [2 * exp depth + 1] for
    a type mismatch and [1] otherwise, plus the logarithm of the length of
    the error's path, the whole doubled for the errors above. *)
Definition scored_as (N : NumberOps) (candidate : Arg) (e : ArgError) (s : Num N) : Prop :=
  let base :=
    match ae_error e with
    | invalidType _ providedValue _ _ =>
        add N (mul N (of_nat N 2)
                 (Math_exp N (of_nat N (structural_depth providedValue))))
              (of_nat N 1)
    | _ => of_nat N 1
    end in
  let plain := add N base (Math_log N (of_nat N (length (ae_path e)))) in
  (doubled candidate (ae_error e) -> s = mul N plain (of_nat N 2))
  /\ (~ doubled candidate (ae_error e) -> s = plain).

(** The sum of a list of scores, added up from 0 in the order of the list. *)
Inductive totals (N : NumberOps) : list (Num N) -> Num N -> Prop :=
| totals_nil : totals N [] (of_nat N 0)
| totals_snoc l t x : totals N l t -> totals N (l ++ [x]) (add N t x).

(** A candidate the loop of [valueToArg] passes over: it returned, with no
    Arg or with an Arg that collects errors. *)
Definition passed_over (r : Completion (option Arg)) : Prop :=
  exists m, r = Normal m /\ forall x, m = Some x -> Arg_collectErrors x <> [].

(** A path all of whose components are strings. *)
Definition string_path (p : list PathKey) : Prop :=
  Forall (fun k => match k with PStr _ => True | PNum _ => False end) p.

Section RootFields.

Variable H : Helpers.
Variable dmmf : DMMFHelper.




End RootFields.

(** ** Well-formed trees

    The validity flags of a node are fixed by its constructor.  A tree is
    well formed when every node in it carries the flags its constructor
    computes from the node's parts. *)

Unset Implicit Arguments.

Fixpoint All {A : Type} (P : A -> Prop) (l : list A) : Prop :=
  match l with
  | [] => True
  | x :: rest => P x /\ All P rest
  end.

(** The flag [new Arg] computes for [hasError]. *)
Definition computed_hasError (error : option InvalidArgError) (value : ArgValue) : bool :=
  is_some error
  || (match value with AVArgs a => args_hasInvalidArg a | _ => false end)
  || (match value with
      | AVArray l =>
          existsb (fun v => match v with
                            | ElArgs a => args_hasInvalidArg a
                            | ElArg a => arg_hasError a
                            | ElPlain _ => false
                            end) l
      | _ => false
      end).

Fixpoint wf_Arg (a : Arg) : Prop :=
  match a with
  | mkArg _ value error hasError _ _ _ _ =>
      hasError = computed_hasError error value
      /\ match value with
         | AVPlain _ => True
         | AVArgs a' => wf_Args a'
         | AVArray l =>
             All (fun el => match el with
                            | ElPlain _ => True
                            | ElArgs a' => wf_Args a'
                            | ElArg a' => wf_Arg a'
                            end) l
         end
  end
with wf_Args (a : Args) : Prop :=
  match a with
  | mkArgs args hasInvalidArg =>
      hasInvalidArg = existsb (fun arg => arg_hasError arg) args
      /\ All wf_Arg args
  end.

(** The flag [new Field] computes for [hasInvalidChild]. *)
Definition computed_hasInvalidChild (children : option (list Field)) : bool :=
  match children with
  | Some cs =>
      existsb (fun child =>
                 is_some (f_error child) || f_hasInvalidArg child || f_hasInvalidChild child)
              cs
  | None => false
  end.

Fixpoint wf_Field (f : Field) : Prop :=
  match f with
  | mkField _ args children _ hasInvalidChild hasInvalidArg _ =>
      hasInvalidChild = computed_hasInvalidChild children
      /\ hasInvalidArg = match args with
                         | Some a => args_hasInvalidArg a
                         | None => false
                         end
      /\ match args with Some a => wf_Args a | None => True end
      /\ match children with Some cs => All wf_Field cs | None => True end
  end.

(** A field is flagged when it carries an error or one of its two flags. *)
Definition flagged (f : Field) : bool :=
  is_some (f_error f) || f_hasInvalidArg f || f_hasInvalidChild f.

(** A property of Args that the recursive callee grants its results. *)
Definition returns_Args (Q : Args -> Prop) (rec : ObjectToArgs) : Prop :=
  forall initialObj t context possibilities outputType_ args,
    rec initialObj t context possibilities outputType_ = Normal args -> Q args.

(** The errors [Field.collectErrors] gathers from the children of a field
    named [name], and the error entry of the field itself. *)
Fixpoint collect_children (prefix name : string) (cs : list Field) : CollectedErrors :=
  match cs with
  | [] => mkCollected [] []
  | child :: rest =>
      let errors := Field_collectErrors prefix child in
      let others := collect_children prefix name rest in
      mkCollected
        (map (prefix_field_path [PStr name; PStr prefix]) (fieldErrors errors)
         ++ fieldErrors others)
        (map (prefix_path [PStr name; PStr prefix]) (argErrors errors) ++ argErrors others)
  end.

Definition own_field_error (f : Field) : list FieldError :=
  match f_error f with
  | Some e => [mkFieldError e [PStr (f_name f)]]
  | None => []
  end.

(** A field below which nothing is wrong: it collects no argument error and
    no field error other than its own. *)
Definition clean_below (prefix : string) (f : Field) : Prop :=
  Field_collectErrors prefix f = mkCollected (own_field_error f) [].

(** A selection compiler whose results are well formed. *)
Definition returns_Fields (rec : SelectionToFields) : Prop :=
  forall selection schemaField context fields,
    rec selection schemaField context = Normal fields -> All wf_Field fields.

(** [result] is [path] with some components equal to the number [0]
    removed, and nothing else changed. *)
Inductive drops_zeros : list PathKey -> list PathKey -> Prop :=
| drops_nil : drops_zeros [] []
| drops_keep key path result :
    drops_zeros path result -> drops_zeros (key :: path) (key :: result)
| drops_zero path result :
    drops_zeros path result -> drops_zeros (PNum 0 :: path) result.

(** A value that holds no array, at any depth. *)
Fixpoint array_free (v : JsValue) : bool :=
  match v with
  | JArray _ => false
  | JObject props =>
      (fix each (ps : list (string * JsValue)) : bool :=
         match ps with
         | [] => true
         | (_, x) :: rest => array_free x && each rest
         end) props
  | _ => true
  end.

(** ** [getField] and [unpack] *)

Definition Error_no_field : string := "Error: Could not find field in document".
Definition Error_no_children : string := "Error: Can't get children for field".
Definition Error_no_child : string := "Error: Can't find child of field".

(** The loop of [getField]: [todo] is what is left of the path. *)
Fixpoint getField_loop (todo : list string) (pointer : Field) : Completion Field :=
  match todo with
  | [] => Normal pointer
  | key :: rest =>
      match f_children pointer with
      | None => Throw Error_no_children
      | Some children =>
          match find (fun c => f_name c =? key) children with
          | None => Throw Error_no_child
          | Some child => getField_loop rest child
          end
      end
  end.

(** [getField(document, path)]; with an empty path [todo.shift()] is
    [undefined], which names no field. *)
Definition getField (document : Document) (path : list string) : Completion Field :=
  match path with
  | [] => Throw Error_no_field
  | firstElement :: todo =>
      match find (fun c => f_name c =? firstElement) (doc_children document) with
      | None => Throw Error_no_field
      | Some pointer => getField_loop todo pointer
      end
  end.

(** [unpack({ document, path, data })]; [deepGet] of ./utils/deep-set is a
    parameter. *)
Definition unpack (D : Deserializers) (deepGet : JsValue -> list string -> JsValue)
  (document : Document) (path : list string) (data : JsValue) : Completion JsValue :=
  let result := deepGet data path in
  if match result with JString s => s =? "undefined" | _ => false end then Normal JNull
  else if negb (typeof result =? "object") then Normal result
  else
    field <- getField document path ;;
    mapScalars D field result.

(** ** Paths of the aggregate API *)

(** [str.split('.')] *)
Fixpoint split_dot (s : string) : list string :=
  match s with
  | EmptyString => [EmptyString]
  | String c rest =>
      if Ascii.eqb c "."%char then EmptyString :: split_dot rest
      else match split_dot rest with
           | p :: ps => String c p :: ps
           | [] => [String c EmptyString]
           end
  end.

(** [removeSelectFromPath(path)] *)
Definition removeSelectFromPath (path : string) : string :=
  String.concat "." (filter (fun p => negb (p =? "select")) (split_dot path)).

(** A string without a dot. *)
Fixpoint dot_free (s : string) : bool :=
  match s with
  | EmptyString => true
  | String c rest => negb (Ascii.eqb c "."%char) && dot_free rest
  end.

(** A Field tree none of whose fields, below the root, has a designated
    wire-primitive kind. *)
Fixpoint no_designated_leaf (f : Field) : bool :=
  match f with
  | mkField _ _ children _ _ _ _ =>
      match children with
      | Some cs =>
          (fix each (cs : list Field) : bool :=
             match cs with
             | [] => true
             | child :: rest =>
                 match scalarKind child with
                 | Some kind => negb (existsb (String.eqb kind) designatedKinds)
                 | None => true
                 end
                 && no_designated_leaf child && each rest
             end) cs
      | None => true
      end
  end.

(** What a deserializer makes of a leaf: a list is mapped element by
    element. *)
Definition deserialized (deserializer : JsValue -> Completion JsValue) (leaf : JsValue)
  : Completion JsValue :=
  match leaf with
  | JArray l => l' <- mapM deserializer l ;; Normal (JArray l')
  | _ => deserializer leaf
  end.

(** The fields [getDefaultSelection] selects. *)
Definition selected_by_default (dmmf : DMMFHelper) (f : SchemaField) : bool :=
  in_typeMap dmmf f
  || FieldLocation_eqb (out_location (outputType f)) scalar
  || FieldLocation_eqb (out_location (outputType f)) enumTypes.


(** ** The language of [isDecimalString]'s pattern

    The pattern of the source read as a grammar: an optional minus sign, a
    mantissa, an optional exponent. *)

Fixpoint all_digits (s : string) : bool :=
  match s with
  | EmptyString => true
  | String c rest => is_digit c && all_digits rest
  end.

(** One or more digits. *)
Definition digits1 (s : string) : Prop := all_digits s = true /\ s <> EmptyString.

(** The mantissa: digits, optionally a dot and more digits; or a dot and
    digits. *)
Inductive is_mantissa : string -> Prop :=
| mantissa_int i : digits1 i -> is_mantissa i
| mantissa_int_frac i f :
    digits1 i -> all_digits f = true -> is_mantissa (i ++ "." ++ f)
| mantissa_frac f : digits1 f -> is_mantissa ("." ++ f).

(** The optional exponent: [e] in either case, an optional sign, digits. *)
Inductive is_exponent : string -> Prop :=
| exponent_none : is_exponent EmptyString
| exponent_some c sg d :
    c = "e"%char \/ c = "E"%char ->
    sg = EmptyString \/ sg = "+"%string \/ sg = "-"%string ->
    digits1 d ->
    is_exponent (String c (sg ++ d)).

Inductive is_decimal : string -> Prop :=
| decimal sg m e :
    sg = EmptyString \/ sg = "-"%string ->
    is_mantissa m -> is_exponent e -> is_decimal (sg ++ m ++ e).

(** Dropping one leading character of a given class. *)
Definition strip_char (allowed : ascii -> bool) (s : string) : string :=
  match s with
  | String c t => if allowed c then t else s
  | EmptyString => s
  end.

Definition starts_nondigit (r : string) : Prop :=
  match r with
  | String c _ => is_digit c = false
  | EmptyString => True
  end.

Definition exponent_start (e : string) : Prop :=
  match e with
  | String c _ => is_digit c = false /\ c <> "."%char
  | EmptyString => True
  end.

(** ** Depth of the argument compiler *)

(** One run agrees with another unless it ran out of depth. *)
Definition below {A : Type} (c c' : Completion A) : Prop := c = Diverge \/ c' = c.

Definition below_ObjectToArgs (rec rec' : ObjectToArgs) : Prop :=
  forall v t context possibilities outputType_,
    below (rec v t context possibilities outputType_)
          (rec' v t context possibilities outputType_).

Definition below_ValueToArg (rec rec' : ValueToArg) : Prop :=
  forall key value arg context,
    below (rec key value arg context) (rec' key value arg context).


(** ** Termination of the argument compiler *)

(** How deeply arrays and objects are nested in a value; the other values
    of type object count as an empty object. *)
Fixpoint height (v : JsValue) : nat :=
  match v with
  | JArray l => S (list_max (map height l))
  | JObject props => S (list_max (map (fun '(_, x) => height x) props))
  | JUndefined | JBool _ | JNumber _ | JString _ | JSymbol _ => O
  | _ => 1%nat
  end.

(** A run that did not run out of depth. *)
Definition finishes {A : Type} (c : Completion A) : Prop := c <> Diverge.

(** The values below which [tryInferArgs] does not descend at depth [d]:
    it descends into a value of type object, and into any value under the
    key [updateMany]. *)
Definition shallow (d : nat) (key : string) (value : JsValue) : Prop :=
  (height value < d)%nat
  \/ (typeof value <> "object" /\ key <> "updateMany")
  \/ is_undefined value = true.


(** ** Vocabulary for the result scalar remapper *)






(** * Properties *)

Unset Implicit Arguments.

(** ** Collected errors and the validity flags *)

Lemma Arg_collectErrors_clean (a : Arg) :
  arg_hasError a = false -> Arg_collectErrors a = [].
Proof.
  destruct a as [key value error hasError isEnum_ schemaArg isNullable_ inputType].
  simpl. intros ->. reflexivity.
Qed.

Lemma Arg_collectErrors_flag (a : Arg) :
  Arg_collectErrors a <> [] -> arg_hasError a = true.
Proof.
  intros Hne. destruct (arg_hasError a) eqn:E; [reflexivity|].
  exfalso. apply Hne. now apply Arg_collectErrors_clean.
Qed.

Lemma last_cons {A : Type} (l : list A) (x d : A) : last (x :: l) d = last l x.
Proof.
  revert x d. induction l as [|y l IH]; intros x d; [reflexivity|].
  change (last (x :: y :: l) d) with (last (y :: l) d).
  rewrite (IH y d), (IH y x). reflexivity.
Qed.

Lemma length_zero_nil {A : Type} (l : list A) :
  (length l =? 0)%nat = true <-> l = [].
Proof.
  destruct l; simpl; split; intros; try reflexivity; discriminate.
Qed.

(** Induction over compiled arguments: the property of an Arg follows from
    that of the Args and Arg it holds, the property of an Args from that of
    its elements. *)
Section ArgInduction.

Variable P : Arg -> Prop.
Variable Q : Args -> Prop.

Hypothesis P_step :
  forall key value error hasError isEnum_ schemaArg isNullable_ inputType,
    match value with
    | AVPlain _ => True
    | AVArgs a => Q a
    | AVArray l =>
        Forall (fun el => match el with
                          | ElPlain _ => True
                          | ElArgs a => Q a
                          | ElArg a => P a
                          end) l
    end ->
    P (mkArg key value error hasError isEnum_ schemaArg isNullable_ inputType).

Hypothesis Q_step : forall args hasInvalidArg, Forall P args -> Q (mkArgs args hasInvalidArg).

Lemma Arg_tree_ind : forall a, P a
with Args_tree_ind : forall a, Q a.
Proof.
  - intros [key value error hasError isEnum_ schemaArg isNullable_ inputType].
    apply P_step. destruct value as [v|a|l].
    + exact I.
    + apply Args_tree_ind.
    + exact ((fix go (l : list ArgElement) :=
                match l return Forall _ l with
                | [] => Forall_nil _
                | el :: rest =>
                    Forall_cons el
                      (match el return match el with
                                       | ElPlain _ => True
                                       | ElArgs a => Q a
                                       | ElArg a => P a
                                       end with
                       | ElPlain _ => I
                       | ElArgs a => Args_tree_ind a
                       | ElArg a => Arg_tree_ind a
                       end)
                      (go rest)
                end) l).
  - intros [args hasInvalidArg]. apply Q_step.
    exact ((fix go (l : list Arg) : Forall P l :=
              match l with
              | [] => Forall_nil P
              | a :: rest => Forall_cons a (Arg_tree_ind a) (go rest)
              end) args).
Qed.

End ArgInduction.

(** ** Collected paths and their normalisation *)

Lemma string_path_app p q : string_path p -> string_path q -> string_path (p ++ q).
Proof. intros Hp Hq. apply Forall_app. split; assumption. Qed.

Lemma prefix_path_strings (p : list PathKey) (l : list ArgError) :
  string_path p ->
  Forall (fun e => string_path (ae_path e)) l ->
  Forall (fun e => string_path (ae_path e)) (map (prefix_path p) l).
Proof.
  intros Hp Hl. apply Forall_forall. intros e He. apply in_map_iff in He.
  destruct He as [e0 [<- He0]]. simpl. apply string_path_app; [exact Hp|].
  rewrite Forall_forall in Hl. now apply Hl.
Qed.

(** Every path [Arg.collectErrors] and [Args.collectErrors] produce consists
    of strings only: list indices enter it through [String(index)]. *)
Lemma Arg_collectErrors_string_paths (a : Arg) :
  Forall (fun e => string_path (ae_path e)) (Arg_collectErrors a).
Proof.
  revert a.
  apply (Arg_tree_ind
           (fun a => Forall (fun e => string_path (ae_path e)) (Arg_collectErrors a))
           (fun a => Forall (fun e => string_path (ae_path e)) (Args_collectErrors a))).
  - intros key value error hasError isEnum_ schemaArg isNullable_ inputType IH.
    cbn [Arg_collectErrors]. destruct (negb hasError); [constructor|].
    assert (Hown : Forall (fun e => string_path (ae_path e))
                     match error with
                     | Some e => [mkArgError e [PStr key] (error_id inputType)]
                     | None => []
                     end).
    { destruct error; repeat constructor. }
    destruct value as [v|a|l].
    + exact Hown.
    + apply Forall_app. split; [exact Hown|].
      apply prefix_path_strings; [repeat constructor | exact IH].
    + apply Forall_app. split; [exact Hown|].
      generalize 0%nat. induction IH as [|el l Hel _ IHl]; intros index; [constructor|].
      apply Forall_app. split; [|apply IHl].
      destruct el as [v|a|a].
      * constructor.
      * apply prefix_path_strings; [repeat constructor | exact Hel].
      * apply prefix_path_strings; [repeat constructor | exact Hel].
  - intros args hasInvalidArg IH. cbn [Args_collectErrors].
    destruct (negb hasInvalidArg); [constructor|].
    induction IH as [|a l Ha _ IHl]; [constructor|].
    apply Forall_app. split; assumption.
Qed.

(** On a path made of strings [normalizePath] drops nothing: when it
    returns, it returns the path it was given. *)
Lemma normalizePath_string_path (path : list PathKey) (select_ : JsValue)
  (result : list PathKey) :
  string_path path -> normalizePath path select_ = Normal result -> result = path.
Proof.
  unfold normalizePath.
  assert (Hgen : forall pointer newPath,
             string_path path ->
             normalizePath_loop path pointer newPath = Normal result ->
             result = newPath ++ path).
  { induction path as [|key rest IH]; intros pointer newPath Hs; simpl.
    - intros [= <-]. now rewrite app_nil_r.
    - inversion Hs as [|k r Hk Hr]; subst.
      destruct key as [s|n]; [|contradiction]. simpl.
      rewrite andb_false_r.
      destruct (s =? "select").
      + destruct (nullish pointer); [discriminate|].
        destruct (negb (truthy (get pointer "select")));
          intros Hloop; apply IH in Hloop; try exact Hr;
          rewrite Hloop, <- app_assoc; reflexivity.
      + destruct (truthy pointer && truthy (get pointer s));
          intros Hloop; apply IH in Hloop; try exact Hr;
          rewrite Hloop, <- app_assoc; reflexivity. }
  intros Hs Hn. apply (Hgen _ _ Hs Hn).
Qed.

(** [Document.validate] returns exactly when no root field is flagged. *)
Lemma Document_validate_returns (d : Document) (select_ : JsValue) (isTopLevelQuery : bool) :
  Document_validate d select_ isTopLevelQuery = Normal tt <-> invalidChildren d = [].
Proof.
  unfold Document_validate. split.
  - destruct (length (invalidChildren d) =? 0)%nat eqn:E.
    + intros _. now apply length_zero_nil.
    + destruct (validate_paths d select_ isTopLevelQuery); discriminate.
  - intros ->. reflexivity.
Qed.

(** ** Union resolution ([valueToArg]) *)

Lemma JsValue_tree_ind (P : JsValue -> Prop) :
  (forall l, Forall P l -> P (JArray l)) ->
  (forall props, Forall (fun kv => P (snd kv)) props -> P (JObject props)) ->
  (forall v, Array_isArray v = false -> (forall props, v <> JObject props) -> P v) ->
  forall v, P v.
Proof.
  intros Ha Ho Hl. fix IH 1. intros v.
  destruct v as [| | | | | | | | | |l|props];
    try (apply Hl; [reflexivity | discriminate]).
  - apply Ha.
    exact ((fix go (l : list JsValue) : Forall P l :=
              match l with
              | [] => Forall_nil P
              | x :: l' => Forall_cons x (IH x) (go l')
              end) l).
  - apply Ho.
    exact ((fix go (ps : list (string * JsValue)) : Forall (fun kv => P (snd kv)) ps :=
              match ps with
              | [] => Forall_nil _
              | kv :: ps' => Forall_cons kv (IH (snd kv)) (go ps')
              end) props).
Qed.

Lemma list_max_cons (a : nat) (l : list nat) : list_max (a :: l) = Nat.max a (list_max l).
Proof. reflexivity. Qed.

Lemma getDepth_structural (v : JsValue) : getDepth v = structural_depth v.
Proof.
  induction v as [l IH|props IH|v Harr Hobj] using JsValue_tree_ind.
  - cbn [getDepth structural_depth].
    generalize 1%nat at 2 3 as level.
    induction IH as [|x l Hx _ IHl]; intros level; [simpl; lia|].
    cbn [map]. rewrite list_max_cons.
    destruct (typeof x =? "object"); rewrite IHl; [rewrite Hx|]; lia.
  - cbn [getDepth structural_depth].
    generalize 1%nat at 2 3 as level.
    induction IH as [|[k x] ps Hx _ IHl]; intros level; [simpl; lia|].
    cbn [map]. rewrite list_max_cons. simpl in Hx.
    destruct (typeof x =? "object"); rewrite IHl; [rewrite Hx|]; lia.
  - destruct v; try reflexivity; [discriminate Harr | exfalso; eapply Hobj; reflexivity].
Qed.

Lemma prefix_spec (needle haystack : string) :
  String.prefix needle haystack = true <-> exists post, haystack = (needle ++ post)%string.
Proof.
  revert haystack. induction needle as [|c n IH]; intros haystack.
  - split; [intros _; now exists haystack | intros _; destruct haystack; reflexivity].
  - destruct haystack as [|c' h]; simpl.
    + split; [discriminate | intros [post Hp]; discriminate].
    + destruct (Ascii.ascii_dec c c') as [->|Hne].
      * rewrite IH. split; intros [post Hp]; exists post; congruence.
      * split; [discriminate | intros [post Hp]; congruence].
Qed.

Lemma includes_contains (haystack needle : string) :
  includes haystack needle = true <-> contains needle haystack.
Proof.
  unfold contains. induction haystack as [|c h IH]; cbn [includes].
  - rewrite orb_false_r, prefix_spec. split.
    + intros [post Hp]. exists EmptyString, post. exact Hp.
    + intros [pre [post Hp]]. destruct pre; [now exists post | discriminate].
  - rewrite orb_true_iff, prefix_spec, IH. split.
    + intros [[post Hp]|[pre [post Hp]]].
      * exists EmptyString, post. exact Hp.
      * exists (String c pre), post. simpl. now rewrite Hp.
    + intros [pre [post Hp]]. destruct pre as [|c' pre].
      * left. now exists post.
      * right. exists pre, post. simpl in Hp. congruence.
Qed.

Lemma sum_totals (N : NumberOps) (l : list (Num N)) : totals N l (sum N l).
Proof.
  unfold sum. induction l as [|x l IH] using rev_ind; [constructor|].
  rewrite fold_left_app. simpl. now constructor.
Qed.

Lemma errorScore_scored_as (N : NumberOps) (a : Arg) (e : ArgError) :
  scored_as N a e (errorScore N a e).
Proof.
  unfold scored_as, errorScore, doubled.
  destruct (ae_error e) as [pn pv d1 d2 ot ps out| an pv req best| | | mn ma a1 a2 | | ];
    try (split; [contradiction | reflexivity]).
  - rewrite <- includes_contains.
    destruct (includes (input_name ot) "Unchecked"); split; congruence.
  - rewrite getDepth_structural. split; [contradiction | reflexivity].
  - destruct (arg_inputType a) as [it|].
    + destruct (type it) as [n|n vs|n] eqn:Et; cbn [isInputArgType andb type_name].
      * split; [intros [it' [n' [[= <-] [Ht _]]]]; congruence | reflexivity].
      * split; [intros [it' [n' [[= <-] [Ht _]]]]; congruence | reflexivity].
      * destruct (includes n "Unchecked") eqn:Ei.
        -- split; [reflexivity|]. intros Hn. exfalso. apply Hn.
           exists it, n. split; [reflexivity|]. split; [exact Et|].
           now apply includes_contains.
        -- split; [|reflexivity]. intros [it' [n' [[= <-] [Ht Hc]]]].
           rewrite Et in Ht. injection Ht as <-.
           apply includes_contains in Hc. congruence.
    + split; [intros [it' [n' [Hs _]]]; discriminate | reflexivity].
Qed.

Section UnionResolution.

Variable H : Helpers.
Variable N : NumberOps.
Variable dmmf : DMMFHelper.
Variable objectToArgs_rec : ObjectToArgs.

(** The comparison of scores is a strict order. *)
Hypothesis lt_irrefl : forall a, lt N a a = false.
Hypothesis lt_trans : forall a b c, lt N a b = true -> lt N b c = true -> lt N a c = true.

Variable key : string.
Variable value : JsValue.
Variable arg : SchemaArg.
Variable context : MakeDocumentContext.

Abbreviation infer := (tryInferArgs H dmmf objectToArgs_rec key value arg).
Abbreviation score := (fun a => candidateScore N a (Arg_collectErrors a)).


Lemma valueToArg_loop_outcome candidates results :
  Forall2 (fun inputType r => infer inputType context = Normal r) candidates results ->
  forall argsWithErrors maybeArg,
    valueToArg_loop H dmmf objectToArgs_rec key value arg context candidates
      argsWithErrors maybeArg
    = Normal (loop_outcome results argsWithErrors maybeArg).
Proof.
  induction 1 as [|inputType r candidates results Hr _ IH]; intros awe m.
  - reflexivity.
  - simpl. rewrite Hr. simpl. destruct r as [a|].
    + destruct (length (Arg_collectErrors a) =? 0)%nat; [reflexivity | apply IH].
    + apply IH.
Qed.

Lemma loop_outcome_first_clean pre a post :
  Arg_collectErrors a = [] ->
  (forall x, In (Some x) pre -> Arg_collectErrors x <> []) ->
  forall argsWithErrors maybeArg,
    loop_outcome (pre ++ Some a :: post) argsWithErrors maybeArg = Returned a.
Proof.
  intros Hclean. induction pre as [|r pre IH]; intros Hpre awe m; simpl.
  - rewrite Hclean. reflexivity.
  - destruct r as [x|].
    + assert (Hx : Arg_collectErrors x <> []) by (apply Hpre; now left).
      destruct (length (Arg_collectErrors x) =? 0)%nat eqn:E.
      * apply length_zero_nil in E. contradiction.
      * apply IH. intros y Hy. apply Hpre. now right.
    + apply IH. intros y Hy. apply Hpre. now right.
Qed.

Lemma loop_outcome_all_failing (failing : list Arg) :
  (forall a, In a failing -> Arg_collectErrors a <> []) ->
  forall argsWithErrors maybeArg,
    loop_outcome (map Some failing) argsWithErrors maybeArg
    = Pending (last (map Some failing) maybeArg)
        (argsWithErrors ++ map (fun a => (a, Arg_collectErrors a)) failing).
Proof.
  induction failing as [|a failing IH]; intros Hall awe m; simpl.
  - now rewrite app_nil_r.
  - assert (Ha : Arg_collectErrors a <> []) by (apply Hall; now left).
    destruct (length (Arg_collectErrors a) =? 0)%nat eqn:E.
    + apply length_zero_nil in E. contradiction.
    + rewrite IH by (intros y Hy; apply Hall; now right).
      rewrite <- app_assoc.
      change (match map Some failing with
              | [] => Some a
              | _ :: _ => last (map Some failing) m
              end) with (last (Some a :: map Some failing) m).
      rewrite last_cons. reflexivity.
Qed.


Lemma sort_insert_head (x : Scored N) (l : list (Scored N)) :
  hd x (sort_insert (byScore (N:=N)) x l)
  = match l with
    | [] => x
    | h :: _ => if lt N (sc_score x) (sc_score h) then x else h
    end.
Proof.
  destruct l as [|h l]; [reflexivity|].
  simpl. unfold byScore. destruct (lt N (sc_score x) (sc_score h)); reflexivity.
Qed.

Lemma sort_insert_nonempty (x : Scored N) (l : list (Scored N)) :
  sort_insert (byScore (N:=N)) x l <> [].
Proof.
  destruct l as [|h l]; simpl; [discriminate|].
  destruct (byScore x h <? 0)%Z; discriminate.
Qed.

Lemma lt_false_of_lt (a b c : Num N) :
  lt N a b = true -> lt N c b = false -> lt N c a = false.
Proof.
  intros Hab Hcb. destruct (lt N c a) eqn:E; [|reflexivity].
  rewrite (lt_trans _ _ _ E Hab) in Hcb. discriminate.
Qed.

Lemma Array_sort_lowest_gen (todo seen acc : list (Scored N)) :
  (acc = [] -> seen = []) ->
  (forall h, hd_error acc = Some h -> lowest h seen) ->
  forall best rest,
    fold_left (fun acc x => sort_insert (byScore (N:=N)) x acc) todo acc = best :: rest ->
    lowest best (seen ++ todo).
Proof.
  revert seen acc. induction todo as [|x todo IH]; intros seen acc Hempty Hinv best rest Hs.
  - simpl in Hs. rewrite app_nil_r. apply Hinv. rewrite Hs. reflexivity.
  - simpl in Hs.
    replace (seen ++ x :: todo) with ((seen ++ [x]) ++ todo)
      by (rewrite <- app_assoc; reflexivity).
    apply (IH (seen ++ [x]) (sort_insert (byScore (N:=N)) x acc)) with (rest := rest);
      [| | exact Hs].
    + intros Hnil. now apply sort_insert_nonempty in Hnil.
    + intros h Hh.
      assert (Hhd : h = hd x (sort_insert (byScore (N:=N)) x acc)).
      { destruct (sort_insert (byScore (N:=N)) x acc); simpl in *; congruence. }
      rewrite sort_insert_head in Hhd.
      destruct acc as [|h0 acc'].
      * subst h. rewrite (Hempty eq_refl). split; [now left|].
        intros c [<-|[]]. apply lt_irrefl.
      * destruct (Hinv h0 eq_refl) as [Hin Hmin].
        destruct (lt N (sc_score x) (sc_score h0)) eqn:E; subst h.
        -- split; [apply in_or_app; right; now left|].
           intros c Hc. apply in_app_or in Hc. destruct Hc as [Hc|[<-|[]]].
           ++ apply lt_false_of_lt with (b := sc_score h0); [exact E | now apply Hmin].
           ++ apply lt_irrefl.
        -- split; [apply in_or_app; now left|].
           intros c Hc. apply in_app_or in Hc. destruct Hc as [Hc|[<-|[]]].
           ++ now apply Hmin.
           ++ exact E.
Qed.

Lemma fold_insert_nonempty (l acc : list (Scored N)) :
  acc <> [] ->
  fold_left (fun acc x => sort_insert (byScore (N:=N)) x acc) l acc <> [].
Proof.
  revert acc. induction l as [|y l IH]; intros acc Hacc; simpl; [exact Hacc|].
  apply IH, sort_insert_nonempty.
Qed.

Lemma Array_sort_lowest (l : list (Scored N)) :
  l <> [] ->
  exists best rest, Array_sort (byScore (N:=N)) l = best :: rest /\ lowest best l.
Proof.
  intros Hne. unfold Array_sort.
  destruct (fold_left (fun acc x => sort_insert (byScore (N:=N)) x acc) l []) as [|best rest] eqn:E.
  - exfalso. destruct l as [|x l]; [congruence|].
    change (fold_left (fun acc x => sort_insert (byScore (N:=N)) x acc) l
              (sort_insert (byScore (N:=N)) x []) = []) in E.
    exact (fold_insert_nonempty l _ (sort_insert_nonempty x []) E).
  - exists best, rest. split; [reflexivity|].
    apply (Array_sort_lowest_gen l [] []) with (rest := rest);
      [reflexivity | discriminate | exact E].
Qed.

Lemma valueToArg_loop_passes pre rest :
  Forall (fun t => passed_over (infer t context)) pre ->
  forall argsWithErrors maybeArg,
  exists argsWithErrors' maybeArg',
    valueToArg_loop H dmmf objectToArgs_rec key value arg context (pre ++ rest)
      argsWithErrors maybeArg
    = valueToArg_loop H dmmf objectToArgs_rec key value arg context rest
        argsWithErrors' maybeArg'.
Proof.
  induction 1 as [|t pre [r [Hr Hx]] _ IH]; intros awe m; [now exists awe, m|].
  simpl. rewrite Hr. simpl. destruct r as [x|]; [|apply IH].
  destruct (length (Arg_collectErrors x) =? 0)%nat eqn:E; [|apply IH].
  apply length_zero_nil in E. exfalso. exact (Hx x eq_refl E).
Qed.

Lemma failing_results (candidates : list SchemaArgInputType) (failing : list Arg) :
  Forall2 (fun t a => infer t context = Normal (Some a) /\ Arg_collectErrors a <> [])
          candidates failing ->
  Forall2 (fun t r => infer t context = Normal r) candidates (map Some failing)
  /\ forall a, In a failing -> Arg_collectErrors a <> [].
Proof.
  induction 1 as [|t a candidates failing [Ht Ha] _ [IH1 IH2]].
  - split; [constructor | intros a []].
  - split; [now constructor|]. intros x [<-|Hx]; [exact Ha | now apply IH2].
Qed.

(** C2 (amended).  [valueToArg] tries the candidate input types in
    declaration order.  It returns the first candidate whose compiled Arg
    collects no error, provided the candidates before it returned; when a
    candidate throws before any clean one, [valueToArg] throws.  When every
    candidate collects errors it returns one with the lowest score.  The score
    of a candidate is the number of its errors plus the sum, over its errors,
    of [2 * exp depth + 1] for a type mismatch ([depth] the structural depth
    of the offending value) and [1] otherwise, plus the logarithm of the
    length of the error's path; the score of an error is doubled for a
    missing argument when the candidate's own input type is an input object
    type whose name contains "Unchecked", and for an unknown name when the
    input type it was looked up in has such a name. *)
Theorem valueToArg_union_resolution :
  (forall pre inputType post a,
      inputTypes arg = pre ++ inputType :: post ->
      Forall (fun t => passed_over (infer t context)) pre ->
      infer inputType context = Normal (Some a) ->
      Arg_collectErrors a = [] ->
      valueToArg H N dmmf objectToArgs_rec key value arg context = Normal (Some a))
  /\ (forall pre inputType post e,
        inputTypes arg = pre ++ inputType :: post ->
        Forall (fun t => passed_over (infer t context)) pre ->
        infer inputType context = Throw e ->
        valueToArg H N dmmf objectToArgs_rec key value arg context = Throw e)
  /\ (forall failing,
        Forall2 (fun t a => infer t context = Normal (Some a) /\ Arg_collectErrors a <> [])
                (inputTypes arg) failing ->
        failing <> [] ->
        exists best,
          valueToArg H N dmmf objectToArgs_rec key value arg context = Normal (Some best)
          /\ In best failing
          /\ forall a, In a failing -> lt N (score a) (score best) = false)
  /\ (forall a,
        exists scores total,
          Forall2 (scored_as N a) (Arg_collectErrors a) scores
          /\ totals N scores total
          /\ score a = add N (of_nat N (length (Arg_collectErrors a))) total).
Proof.
  split; [|split; [|split]].
  - intros pre inputType post a Hcs Hpre Ha Hclean. unfold valueToArg. rewrite Hcs.
    destruct (valueToArg_loop_passes pre (inputType :: post) Hpre [] None)
      as [awe [m ->]].
    simpl. rewrite Ha. simpl. rewrite Hclean. reflexivity.
  - intros pre inputType post e Hcs Hpre He. unfold valueToArg. rewrite Hcs.
    destruct (valueToArg_loop_passes pre (inputType :: post) Hpre [] None)
      as [awe [m ->]].
    simpl. rewrite He. reflexivity.
  - intros failing Hfail Hne.
    destruct (failing_results _ _ Hfail) as [Hres Hall].
    unfold valueToArg. rewrite (valueToArg_loop_outcome _ _ Hres). simpl.
    rewrite (loop_outcome_all_failing _ Hall). simpl.
    assert (Hlast : exists a, last (map Some failing) None = Some a /\ In a failing).
    { clear - Hne. induction failing as [|a [|b l] IH]; [congruence| |].
      - exists a. split; [reflexivity | now left].
      - destruct IH as [c [Hc Hin]]; [discriminate|].
        exists c. split; [exact Hc | now right]. }
    destruct Hlast as [la [Hla Hin]]. rewrite Hla.
    rewrite (Arg_collectErrors_flag _ (Hall _ Hin)).
    rewrite length_map.
    assert (Hlen : (0 <? length failing)%nat = true)
      by (destruct failing; [congruence | reflexivity]).
    rewrite Hlen. cbv iota beta. simpl andb.
    set (scored := map (fun ae : Arg * list ArgError =>
                          mkScored N (candidateScore N (fst ae) (snd ae)) (fst ae) (snd ae))
                       (map (fun a => (a, Arg_collectErrors a)) failing)).
    destruct (Array_sort_lowest scored) as [best [rest [Hsort [Hbest Hmin]]]].
    { subst scored. destruct failing; [congruence | discriminate]. }
    rewrite Hsort. exists (sc_arg best).
    assert (Hform : forall c, In c scored ->
                      In (sc_arg c) failing /\ sc_score c = score (sc_arg c)).
    { intros c Hc. subst scored. rewrite map_map in Hc. apply in_map_iff in Hc.
      destruct Hc as [a [<- Ha]]. simpl. split; [exact Ha | reflexivity]. }
    split; [reflexivity|]. split; [apply (Hform best Hbest)|].
    intros a Ha.
    destruct (Hform best Hbest) as [_ Hsb]. rewrite <- Hsb.
    specialize (Hmin (mkScored N (score a) a (Arg_collectErrors a))).
    simpl in Hmin. apply Hmin.
    subst scored. rewrite map_map. apply in_map_iff. exists a. split; [reflexivity | exact Ha].
  - intros a. exists (map (errorScore N a) (Arg_collectErrors a)).
    exists (sum N (map (errorScore N a) (Arg_collectErrors a))).
    split; [|split; [apply sum_totals | reflexivity]].
    induction (Arg_collectErrors a) as [|e l IH]; simpl; constructor;
      [apply errorScore_scored_as | exact IH].
Qed.

End UnionResolution.

(** ** Missing, null and list-shaped values ([tryInferArgs]) *)

Lemma arg_error_new_Arg (o : ArgOptions) : arg_error (new_Arg o) = o_error o.
Proof. reflexivity. Qed.

Lemma arg_key_new_Arg (o : ArgOptions) : arg_key (new_Arg o) = o_key o.
Proof. reflexivity. Qed.


Section InferenceFacts.

Variable H : Helpers.
Variable N : NumberOps.
Variable dmmf : DMMFHelper.
Variable objectToArgs_rec : ObjectToArgs.

Abbreviation infer := (tryInferArgs H dmmf objectToArgs_rec).

Lemma scalarToArg_error_kind key value arg inputType context :
  own_error_kind (scalarToArg H key value arg inputType context) <> Some KInvalidNullArg.
Proof.
  unfold scalarToArg.
  destruct (isDate value && negb (isValidDate value)); [discriminate|].
  destruct (hasCorrectScalarType H value inputType context); discriminate.
Qed.

Lemma tryNestedInputTypes_error key value arg context candidates r :
  tryNestedInputTypes objectToArgs_rec key value arg context candidates = Normal (Some r) ->
  arg_error r = None.
Proof.
  induction candidates as [|c candidates IH]; simpl; [discriminate|].
  destruct (objectToArgs_rec value (type c) context None NoOutput) as [args| |]; simpl;
    try discriminate.
  destruct (length (Args_collectErrors args) =? 0)%nat.
  - intros [= <-]. reflexivity.
  - exact IH.
Qed.

Lemma inferSingleArg_error_kind key value arg inputType context r :
  inferSingleArg H dmmf objectToArgs_rec key value arg inputType context = Normal (Some r) ->
  own_error_kind r <> Some KInvalidNullArg.
Proof.
  unfold inferSingleArg. destruct (type inputType) as [n|n vs|n] eqn:Et.
  - intros [= <-]. apply scalarToArg_error_kind.
  - intros [= <-]. apply scalarToArg_error_kind.
  - destruct (negb (typeof value =? "object") || Array_isArray value
              || FieldLocation_eqb (location inputType) inputObjectTypes
                 && negb (isObject H value)).
    + intros [= <-]. discriminate.
    + match goal with
      | |- bind ?c _ = _ -> _ => destruct c as [v'| |]; simpl; try discriminate
      end.
      intros [= <-]. unfold own_error_kind. rewrite arg_error_new_Arg. simpl.
      repeat match goal with
             | |- context [if ?b then _ else _] => destruct b
             end; discriminate.
Qed.

Lemma inferListArg_error_kind key value arg inputType context r :
  inferListArg H dmmf objectToArgs_rec key value arg inputType context = Normal (Some r) ->
  own_error_kind r <> Some KInvalidNullArg.
Proof.
  unfold inferListArg.
  destruct (is_enumTypes inputType || FieldLocation_eqb (location inputType) scalar).
  - intros [= <-]. apply scalarToArg_error_kind.
  - destruct value as [| | | | | | | | | |elements|props];
      try (match goal with
           | |- bind ?c _ = _ -> _ => destruct c as [[a|]| |] eqn:E; simpl; try discriminate
           end;
           intros [= <-]; unfold own_error_kind;
           rewrite (tryNestedInputTypes_error _ _ _ _ _ _ E); discriminate).
    match goal with
    | |- bind ?c _ = _ -> _ => destruct c as [els| |]; simpl; try discriminate
    end.
    intros [= <-]. unfold own_error_kind. rewrite arg_error_new_Arg. simpl.
    repeat match goal with
           | |- context [if ?b then _ else _] => destruct b
           | |- context [match ?x with _ => _ end] => destruct x
           end; discriminate.
Qed.

Lemma hasCorrectScalarType_null inputType context :
  hasCorrectScalarType H JNull inputType context = true.
Proof.
  cbn [hasCorrectScalarType].
  repeat match goal with
         | |- (if ?c then true else _) = true => destruct c; [reflexivity|]
         end.
  reflexivity.
Qed.

(** C4 (amended).  [null] against an argument that is neither nullable nor
    required, for a candidate that does not ask for at least one field,
    compiles to an Arg carrying [invalidNullArg].  The null check is guarded
    by [!isRequired], so for a required argument [null] never compiles to
    [invalidNullArg]: against a candidate that is not list-shaped it is
    accepted without error when the candidate is a scalar or an enum type,
    and gives [invalidType] when the candidate is an input object type
    (located in [inputObjectTypes]); against a list-shaped candidate it is
    compiled as the list [[null]], unless the key is [updateMany]. *)
Theorem tryInferArgs_null key arg inputType context :
  (isNullable arg = false -> isRequired arg = false ->
   isAtLeastOne dmmf inputType = false ->
   infer key JNull arg inputType context
   = Normal (Some (plainArg key JNull (is_enumTypes inputType)
                     (Some (invalidNullArg key (inputTypes arg) false false))
                     None (Some inputType))))
  /\ (isRequired arg = true ->
      (forall r, infer key JNull arg inputType context = Normal (Some r) ->
                 own_error_kind r <> Some KInvalidNullArg)
      /\ (isList inputType = false ->
          isInputArgType (type inputType) = false ->
          infer key JNull arg inputType context
          = Normal (Some (plainArg key JNull (is_enumTypes inputType) None (Some arg)
                            (Some inputType))))
      /\ (isList inputType = false ->
          isInputArgType (type inputType) = true ->
          location inputType = inputObjectTypes ->
          isObject H JNull = false ->
          infer key JNull arg inputType context
          = Normal (Some (getInvalidTypeArg key JNull arg inputType)))
      /\ (isList inputType = true ->
          key <> "updateMany" ->
          infer key JNull arg inputType context
          = infer key (JArray [JNull]) arg inputType context)).
Proof.
  split.
  - intros Hn Hr Ha. unfold tryInferArgs. simpl. rewrite Hn, Hr, Ha. reflexivity.
  - intros Hr.
    assert (Hstep : infer key JNull arg inputType context
                    = if negb (isList inputType)
                      then inferSingleArg H dmmf objectToArgs_rec key JNull arg inputType
                             context
                      else inferListArg H dmmf objectToArgs_rec key
                             (wrapIntoList key JNull inputType) arg inputType context).
    { unfold tryInferArgs. simpl. rewrite Hr. rewrite !andb_false_r. reflexivity. }
    split; [|split; [|split]].
    + intros r. rewrite Hstep. destruct (negb (isList inputType)).
      * apply inferSingleArg_error_kind.
      * apply inferListArg_error_kind.
    + intros Hl Ht. rewrite Hstep, Hl. cbn [negb]. unfold inferSingleArg.
      assert (Hs : scalarToArg H key JNull arg inputType context
                   = plainArg key JNull (is_enumTypes inputType) None (Some arg)
                       (Some inputType)).
      { unfold scalarToArg. cbn [isDate andb]. now rewrite hasCorrectScalarType_null. }
      destruct (type inputType); try discriminate Ht; now rewrite Hs.
    + intros Hl Ht Hloc Hobj. rewrite Hstep, Hl. cbn [negb]. unfold inferSingleArg.
      destruct (type inputType); try discriminate Ht.
      rewrite Hloc, Hobj. reflexivity.
    + intros Hl Hk. rewrite Hstep, Hl. cbn [negb].
      unfold wrapIntoList. rewrite Hl. cbn [Array_isArray negb andb].
      destruct (String.eqb_spec key "updateMany") as [->|_]; [congruence|]. cbn [negb].
      unfold tryInferArgs. cbn [is_undefined is_null andb]. rewrite Hl. reflexivity.
Qed.

(** C9 (amended).  For a list-shaped candidate a provided value that is not
    a list, and that is neither [undefined] nor a [null] the null check
    catches, is wrapped into a single-element list before the per-element
    compilation, so the value compiles exactly as the singleton list does,
    unless the key is [updateMany], for which the value is handed on as it
    is.  A [null] against an argument that is neither nullable nor required
    (and whose candidate does not ask for at least one field) is not wrapped:
    the Arg carries the bare [null] with [invalidNullArg]. *)
Theorem tryInferArgs_wraps_non_list key value arg inputType context :
  isList inputType = true ->
  Array_isArray value = false ->
  is_undefined value = false ->
  ((is_null value && negb (isNullable arg) && negb (isRequired arg)
    && negb (isAtLeastOne dmmf inputType)) = false ->
   (key <> "updateMany" ->
    wrapIntoList key value inputType = JArray [value]
    /\ infer key value arg inputType context
       = inferListArg H dmmf objectToArgs_rec key (JArray [value]) arg inputType context
    /\ infer key value arg inputType context
       = infer key (JArray [value]) arg inputType context)
   /\ (key = "updateMany" ->
       wrapIntoList key value inputType = value
       /\ infer key value arg inputType context
          = inferListArg H dmmf objectToArgs_rec key value arg inputType context))
  /\ ((is_null value && negb (isNullable arg) && negb (isRequired arg)
       && negb (isAtLeastOne dmmf inputType)) = true ->
      exists a,
        infer key value arg inputType context = Normal (Some a)
        /\ arg_value a = AVPlain value
        /\ own_error_kind a = Some KInvalidNullArg).
Proof.
  intros Hlist Harr Hundef. split.
  - intros Hnull.
    assert (Hstep : infer key value arg inputType context
                    = inferListArg H dmmf objectToArgs_rec key
                        (wrapIntoList key value inputType) arg inputType context).
    { unfold tryInferArgs. rewrite Hundef, Hnull, Hlist. reflexivity. }
    split.
    + intros Hkey.
      assert (Hw : wrapIntoList key value inputType = JArray [value]).
      { unfold wrapIntoList. rewrite Harr, Hlist. simpl.
        destruct (String.eqb_spec key "updateMany"); [contradiction | reflexivity]. }
      split; [exact Hw|]. split.
      * rewrite Hstep, Hw. reflexivity.
      * rewrite Hstep, Hw. unfold tryInferArgs. simpl. rewrite Hlist. reflexivity.
    + intros ->.
      assert (Hw : wrapIntoList "updateMany" value inputType = value).
      { unfold wrapIntoList. rewrite Harr, Hlist. reflexivity. }
      split; [exact Hw|]. rewrite Hstep, Hw. reflexivity.
  - intros Hnull. unfold tryInferArgs. rewrite Hundef, Hnull.
    destruct value; try discriminate Hnull.
    eexists. split; [reflexivity|]. split; reflexivity.
Qed.

End InferenceFacts.

(** ** Sorting facts *)

Lemma sort_insert_In {A : Type} (cmp : A -> A -> Z) (x y : A) (l : list A) :
  In y (sort_insert cmp x l) -> y = x \/ In y l.
Proof.
  induction l as [|h l IH]; simpl.
  - intros [<-|[]]. now left.
  - destruct (cmp x h <? 0)%Z; simpl.
    + intros [<-|[<-|Hin]]; [now left | right; now left | right; now right].
    + intros [<-|Hin]; [right; now left|].
      destruct (IH Hin) as [->|Hin']; [now left | right; now right].
Qed.

Lemma Array_sort_In {A : Type} (cmp : A -> A -> Z) (y : A) (l : list A) :
  In y (Array_sort cmp l) -> In y l.
Proof.
  unfold Array_sort.
  assert (Hgen : forall acc, In y (fold_left (fun acc x => sort_insert cmp x acc) l acc) ->
                             In y acc \/ In y l).
  { induction l as [|x l IH]; intros acc; simpl; [now left|].
    intros Hin. destruct (IH _ Hin) as [Hacc|Hl]; [|right; now right].
    destruct (sort_insert_In _ _ _ _ Hacc) as [->|Hin']; [right; now left | now left]. }
  intros Hin. destruct (Hgen [] Hin) as [[]|Hl]. exact Hl.
Qed.

Lemma sort_insert_not_nil {A : Type} (cmp : A -> A -> Z) (x : A) (l : list A) :
  sort_insert cmp x l <> [].
Proof.
  destruct l as [|h l]; simpl; [discriminate|].
  destruct (cmp x h <? 0)%Z; discriminate.
Qed.

Lemma Array_sort_not_nil {A : Type} (cmp : A -> A -> Z) (l : list A) :
  l <> [] -> Array_sort cmp l <> [].
Proof.
  unfold Array_sort.
  assert (Hgen : forall l acc, acc <> [] ->
                   fold_left (fun acc x => sort_insert cmp x acc) l acc <> []).
  { clear l. induction l as [|y l IH]; intros acc Hacc; simpl; [exact Hacc|].
    apply IH, sort_insert_not_nil. }
  destruct l as [|x l]; [congruence|]. intros _.
  change (fold_left (fun acc x => sort_insert cmp x acc) l (sort_insert cmp x []) <> []).
  apply Hgen, sort_insert_not_nil.
Qed.

Section MissingValues.

Variable H : Helpers.
Variable N : NumberOps.
Variable dmmf : DMMFHelper.
Variable objectToArgs_rec : ObjectToArgs.

Abbreviation infer := (tryInferArgs H dmmf objectToArgs_rec).
Abbreviation toArg := (valueToArg H N dmmf objectToArgs_rec).


Lemma tryInferArgs_undefined key arg inputType context :
  infer key JUndefined arg inputType context
  = if isRequired arg then Normal (Some (missingArgFor key arg inputType)) else Normal None.
Proof.
  unfold tryInferArgs. simpl. destruct (isRequired arg); reflexivity.
Qed.

Lemma valueToArg_undefined_optional key arg context :
  isRequired arg = false -> toArg key JUndefined arg context = Normal None.
Proof.
  intros Hr. unfold valueToArg.
  assert (Hloop : forall candidates,
             valueToArg_loop H dmmf objectToArgs_rec key JUndefined arg context
               candidates [] None = Normal (Pending None [])).
  { induction candidates as [|c candidates IH]; simpl; [reflexivity|].
    rewrite tryInferArgs_undefined, Hr. simpl. exact IH. }
  rewrite Hloop. reflexivity.
Qed.

Lemma valueToArg_undefined_required key arg context :
  isRequired arg = true -> inputTypes arg <> [] ->
  exists inputType,
    In inputType (inputTypes arg)
    /\ toArg key JUndefined arg context = Normal (Some (missingArgFor key arg inputType)).
Proof.
  intros Hr Hne. unfold valueToArg.
  set (failing := map (missingArgFor key arg) (inputTypes arg)).
  assert (Hres : Forall2 (fun inputType r => infer key JUndefined arg inputType context = Normal r)
                   (inputTypes arg) (map Some failing)).
  { subst failing. clear Hne. induction (inputTypes arg) as [|c l IH]; simpl; constructor.
    - rewrite tryInferArgs_undefined, Hr. reflexivity.
    - exact IH. }
  assert (Hall : forall a, In a failing -> Arg_collectErrors a <> []).
  { subst failing. intros a Ha. apply in_map_iff in Ha. destruct Ha as [c [<- _]].
    discriminate. }
  rewrite (valueToArg_loop_outcome _ _ _ _ _ _ _ _ _ Hres).
  rewrite (loop_outcome_all_failing _ Hall). simpl.
  assert (Hfl : failing <> []).
  { subst failing. destruct (inputTypes arg); [congruence | discriminate]. }
  assert (Hlast : exists a, last (map Some failing) None = Some a /\ In a failing).
  { clear - Hfl. induction failing as [|a [|b l] IH]; [congruence| |].
    - exists a. split; [reflexivity | now left].
    - destruct IH as [c [Hc Hin]]; [discriminate|].
      exists c. split; [exact Hc | now right]. }
  destruct Hlast as [la [Hla Hin]]. rewrite Hla.
  rewrite (Arg_collectErrors_flag _ (Hall _ Hin)). rewrite length_map.
  assert (Hlen : (0 <? length failing)%nat = true)
    by (destruct failing; [congruence | reflexivity]).
  rewrite Hlen. cbv iota beta. simpl andb.
  match goal with
  | |- context [Array_sort ?c ?l] => destruct (Array_sort c l) as [|best rest] eqn:Es
  end.
  - exfalso. revert Es. apply Array_sort_not_nil.
    destruct failing; [congruence | discriminate].
  - assert (Hb : In best (best :: rest)) by now left.
    rewrite <- Es in Hb. apply Array_sort_In in Hb.
    rewrite map_map in Hb. apply in_map_iff in Hb. destruct Hb as [a [<- Ha]]. simpl.
    subst failing. apply in_map_iff in Ha. destruct Ha as [c [<- Hc]].
    exists c. split; [exact Hc | reflexivity].
Qed.

(** C5 (amended).  [undefined] against an argument that is not required
    compiles to no Arg: [tryInferArgs] and [valueToArg] return nothing and the
    reducer of [objectToArgs] hands its accumulator on unchanged; against a
    required argument [tryInferArgs] returns an Arg carrying [missingArg], and
    so does [valueToArg] (and with it the reducer) when the argument declares
    an input type. *)
Theorem undefined_argument_handling key arg context :
  (isRequired arg = false ->
   (forall inputType, infer key JUndefined arg inputType context = Normal None)
   /\ toArg key JUndefined arg context = Normal None
   /\ forall inputObject possibilities outputType_ acc,
        find (fun a => arg_name a =? key) (input_fields inputObject) = Some arg ->
        objectToArgs_step H toArg inputObject context possibilities outputType_ acc
          (key, JUndefined) = Normal acc)
  /\ (isRequired arg = true ->
      (forall inputType,
          infer key JUndefined arg inputType context
          = Normal (Some (missingArgFor key arg inputType)))
      /\ (inputTypes arg <> [] ->
          (exists inputType,
              In inputType (inputTypes arg)
              /\ toArg key JUndefined arg context
                 = Normal (Some (missingArgFor key arg inputType)))
          /\ forall inputObject possibilities outputType_ acc,
               find (fun a => arg_name a =? key) (input_fields inputObject) = Some arg ->
               exists inputType,
                 objectToArgs_step H toArg inputObject context possibilities outputType_ acc
                   (key, JUndefined)
                 = Normal (acc ++ [missingArgFor key arg inputType]))).
Proof.
  split; intros Hr.
  - split; [|split].
    + intros inputType. rewrite tryInferArgs_undefined, Hr. reflexivity.
    + now apply valueToArg_undefined_optional.
    + intros inputObject possibilities outputType_ acc Hfind.
      unfold objectToArgs_step. rewrite Hfind.
      rewrite valueToArg_undefined_optional by exact Hr. reflexivity.
  - split.
    + intros inputType. rewrite tryInferArgs_undefined, Hr. reflexivity.
    + intros Hne. split.
      * now apply valueToArg_undefined_required.
      * intros inputObject possibilities outputType_ acc Hfind.
        destruct (valueToArg_undefined_required key arg context Hr Hne) as [c [_ Hc]].
        exists c. unfold objectToArgs_step. rewrite Hfind, Hc. reflexivity.
Qed.

End MissingValues.

(** ** Scalar subtype compatibility ([hasCorrectScalarType]) *)

Section ScalarCompatibility.

Variable H : Helpers.
Variable context : MakeDocumentContext.


Lemma hasCorrectScalarType_unfold value inputType :
  hasCorrectScalarType H value inputType context
  = kind_rules H context value inputType
    || match value with
       | JNull => true
       | JArray l =>
           isList inputType
           && forallb (fun v => hasCorrectScalarType H v (withoutList inputType) context) l
       | _ => false
       end.
Proof.
  unfold kind_rules.
  destruct value; cbn [hasCorrectScalarType];
    repeat match goal with
           | |- (if ?c then true else _) = _ =>
               destruct c; [cbn [orb]; reflexivity | cbn [orb]]
           end;
    try reflexivity.
Qed.

Lemma kind_rules_Accepts value inputType :
  kind_rules H context value inputType = true -> Accepts H context value inputType.
Proof.
  unfold kind_rules.
  rewrite !orb_true_iff, !andb_true_iff, !negb_true_iff, !orb_true_iff,
    !String.eqb_eq, String.eqb_neq.
  intros Hk.
  repeat match type of Hk with _ \/ _ => destruct Hk as [Hk|Hk] end.
  - now apply accepts_same_kind.
  - now apply accepts_empty_list.
  - apply accepts_json; tauto.
  - apply accepts_subtype. destruct Hk as [-> ->]. simpl. tauto.
  - apply accepts_subtype. destruct Hk as [[->| ->] ->]; simpl; tauto.
  - apply accepts_subtype. destruct Hk as [-> ->]. simpl. tauto.
  - apply accepts_subtype. destruct Hk as [-> ->]. simpl. tauto.
  - apply accepts_subtype. destruct Hk as [-> ->]. simpl. tauto.
  - apply accepts_subtype. destruct Hk as [-> ->]. simpl. tauto.
  - apply accepts_subtype. destruct Hk as [-> ->]. simpl. tauto.
  - apply accepts_decimal_string; tauto.
Qed.

Lemma subtype_rules_kind_rules value inputType :
  In (getGraphQLType H value (Some inputType), getExpectedType H inputType context)
     subtype_rules ->
  kind_rules H context value inputType = true.
Proof.
  unfold kind_rules.
  rewrite !orb_true_iff, !andb_true_iff, !negb_true_iff, !orb_true_iff,
    !String.eqb_eq, String.eqb_neq.
  simpl. intros Hin.
  repeat match type of Hin with _ \/ _ => destruct Hin as [Hin|Hin] end;
    try contradiction; injection Hin as <- <-; tauto.
Qed.

Lemma Accepts_without_list value inputType :
  isList inputType = false ->
  Accepts H context value inputType ->
  hasCorrectScalarType H value inputType context = true.
Proof.
  intros Hl Hacc. rewrite hasCorrectScalarType_unfold.
  destruct Hacc as [v it Hk|v it Hk|v it Hg He Hd|v it Hil Hg|v it He Hg Hen Hfr|it|l it Hil Hall];
    try congruence.
  - unfold kind_rules. rewrite Hk, String.eqb_refl. reflexivity.
  - rewrite (subtype_rules_kind_rules _ _ Hk). reflexivity.
  - apply orb_true_iff. left. unfold kind_rules.
    rewrite !orb_true_iff, !andb_true_iff, !String.eqb_eq. tauto.
  - apply orb_true_iff. left. unfold kind_rules.
    rewrite !orb_true_iff, !andb_true_iff, !negb_true_iff, !String.eqb_eq, String.eqb_neq.
    tauto.
  - apply orb_true_r.
Qed.

Lemma hasCorrectScalarType_without_list value inputType :
  isList inputType = false ->
  hasCorrectScalarType H value inputType context = true ->
  Accepts H context value inputType.
Proof.
  intros Hl. rewrite hasCorrectScalarType_unfold. rewrite orb_true_iff.
  intros [Hk|Hm]; [now apply kind_rules_Accepts|].
  destruct value; try discriminate.
  - apply accepts_null.
  - rewrite Hl in Hm. discriminate.
Qed.

(** C6 (amended).  [hasCorrectScalarType] accepts a value exactly when its
    inferred kind equals the declared kind, or a subtype rule applies (Int
    into BigInt, Float, Decimal or Long; Float into Decimal; DateTime or UUID
    into String; String into ID), or it is a decimal-looking string against
    Decimal, or its inferred kind is the empty list against a list kind, or
    the declared kind is Json and the value is neither of inferred kind
    Symbol nor a tagged enum value nor a field reference, or the value is
    [null], or it is a list against a list kind and every element is accepted
    against the element kind. *)
Theorem hasCorrectScalarType_accepts value inputType :
  hasCorrectScalarType H value inputType context = true
  <-> Accepts H context value inputType.
Proof.
  split.
  - rewrite hasCorrectScalarType_unfold, orb_true_iff.
    intros [Hk|Hm]; [now apply kind_rules_Accepts|].
    destruct value; try discriminate.
    + apply accepts_null.
    + apply andb_true_iff in Hm. destruct Hm as [Hl Hall].
      apply accepts_elements; [exact Hl|].
      rewrite forallb_forall in Hall. apply Forall_forall. intros v Hv.
      apply hasCorrectScalarType_without_list; [reflexivity | now apply Hall].
  - intros Hacc. rewrite hasCorrectScalarType_unfold.
    destruct Hacc as [v it Hk|v it Hk|v it Hg He Hd|v it Hil Hg|v it He Hg Hen Hfr|it|l it Hil Hall].
    + unfold kind_rules. rewrite Hk, String.eqb_refl. reflexivity.
    + rewrite (subtype_rules_kind_rules _ _ Hk). reflexivity.
    + apply orb_true_iff. left. unfold kind_rules.
      rewrite !orb_true_iff, !andb_true_iff, !String.eqb_eq. tauto.
    + apply orb_true_iff. left. unfold kind_rules.
      rewrite !orb_true_iff, !andb_true_iff, !String.eqb_eq. tauto.
    + apply orb_true_iff. left. unfold kind_rules.
      rewrite !orb_true_iff, !andb_true_iff, !negb_true_iff, !String.eqb_eq, String.eqb_neq.
      tauto.
    + apply orb_true_r.
    + apply orb_true_iff. right. rewrite Hil. simpl.
      apply forallb_forall. intros v Hv. rewrite Forall_forall in Hall.
      apply Accepts_without_list; [reflexivity | now apply Hall].
Qed.

End ScalarCompatibility.

(** ** Selection compiler *)

Section SelectionFacts.

Variable H : Helpers.
Variable N : NumberOps.
Variable dmmf : DMMFHelper.

(** C7 (amended).  For a key that names a known schema field, the selection
    value [false] makes [selectionToFields] omit the field: the reducer hands
    its accumulator on unchanged, adding neither a Field nor an error. *)
Theorem selectionToFields_false_omitted
  (selectionToFields_rec : SelectionToFields) (depth : nat) (outputType_ : OutputType)
  (computedFields : list string) (context : MakeDocumentContext) (acc : list Field)
  (name : string) (field : SchemaField) :
  find (fun f => field_name f =? name) (output_fields outputType_) = Some field ->
  selectionToFields_step H N dmmf selectionToFields_rec depth outputType_ computedFields
    context acc (name, JBool false) = Normal acc.
Proof.
  intros Hfind. unfold selectionToFields_step. rewrite Hfind.
  simpl. rewrite andb_false_r. reflexivity.
Qed.










End SelectionFacts.

(** ** Result scalar remapper ([mapScalars]) *)

(** Induction over a Field tree. *)
Lemma Field_tree_ind (P : Field -> Prop) :
  (forall name args children error hasInvalidChild hasInvalidArg schemaField,
      match children with Some cs => Forall P cs | None => True end ->
      P (mkField name args children error hasInvalidChild hasInvalidArg schemaField)) ->
  forall f, P f.
Proof.
  intros Hstep. fix IH 1. intros [name args children error h1 h2 sf].
  apply Hstep. destruct children as [cs|]; [|exact I].
  exact ((fix go (cs : list Field) : Forall P cs :=
            match cs with
            | [] => Forall_nil P
            | c :: cs' => Forall_cons c (IH c) (go cs')
            end) cs).
Qed.


(** ** The sample client *)

Module SampleRuns.

Import Sample.

Lemma reals_lt_irrefl (a : Num reals) : lt reals a a = false.
Proof. simpl. destruct (Rlt_dec a a) as [Hlt|_]; [lra | reflexivity]. Qed.

Lemma reals_lt_trans (a b c : Num reals) :
  lt reals a b = true -> lt reals b c = true -> lt reals a c = true.
Proof.
  simpl. destruct (Rlt_dec a b); [|discriminate]. destruct (Rlt_dec b c); [|discriminate].
  intros _ _. destruct (Rlt_dec a c); [reflexivity | lra].
Qed.

Lemma ln_2_pos : (0 < ln 2)%R.
Proof. rewrite <- ln_1. apply ln_increasing; lra. Qed.

Lemma ln_3_pos : (0 < ln 3)%R.
Proof. rewrite <- ln_1. apply ln_increasing; lra. Qed.

(** The score of an unknown name, and of a missing argument, when nothing
    doubles it. *)
Lemma errorScore_unknown_name (a : Arg) (e : ArgError) pn pv d1 d2 ot ps out :
  ae_error e = invalidName pn pv d1 d2 ot ps out ->
  includes (input_name ot) "Unchecked" = false ->
  errorScore reals a e = (INR 1 + ln (INR (length (ae_path e))))%R.
Proof. intros He Hi. unfold errorScore. rewrite He, Hi. reflexivity. Qed.

Lemma errorScore_missing (a : Arg) (e : ArgError) mn ma a1 a2 it :
  ae_error e = missingArg mn ma a1 a2 ->
  arg_inputType a = Some it ->
  (isInputArgType (type it) && includes (type_name (type it)) "Unchecked") = false ->
  errorScore reals a e = (INR 1 + ln (INR (length (ae_path e))))%R.
Proof. intros He Ht Hi. unfold errorScore. rewrite He, Ht, Hi. reflexivity. Qed.

(** C1.  An unknown root field compiles to a Document whose root Field
    carries [invalidFieldName], yet [Document.validate] returns without
    raising: it looks at [hasInvalidChild] and [hasInvalidArg] of the root
    fields only, not at their own [error]. *)
Theorem validate_misses_root_error :
  exists doc root,
    compile "findManyUsr" (JObject []) = Normal doc
    /\ doc_children doc = [root]
    /\ f_error root
       = Some (invalidFieldName "Query" "findManyUsr" None QueryType false false)
    /\ Document_validate doc (JObject []) false = Normal tt.
Proof.
  eexists. eexists. split; [lazy; reflexivity|].
  split; [reflexivity|]. split; reflexivity.
Qed.

(** A nested error is reported: the same unknown name one level down makes
    [Document.validate] raise. *)
Lemma validate_raises_on_nested_error :
  exists doc,
    compile "findManyUser" (JObject [("select", JObject [("nam", JBool true)])]) = Normal doc
    /\ Document_validate doc (JObject [("select", JObject [("nam", JBool true)])]) false
       = Throw PrismaClientValidationError.
Proof. eexists. split; [lazy; reflexivity | reflexivity]. Qed.

(** Compilation can raise: a nested [updateMany] is never wrapped into a
    list, and when its object does not compile cleanly the final
    [value.map] is applied to an object. *)
Lemma updateMany_raises :
  tryInferArgs helpers dmmf inferArgs "updateMany" (JObject [("bogus", JNumber 1)])
    updateManyArg
    (mkSchemaArgInputType true (ATInput "PostUpdateManyInput") inputObjectTypes) noContext
  = Throw "TypeError: value.map is not a function".
Proof. lazy. reflexivity. Qed.

(** With both [select] and [include] the reducer pushes the field that
    carries [includeAndSelect] and, going on, the compiled field as well. *)
Lemma select_and_include_gives_two_roots :
  exists doc marker compiled,
    compile "findManyUser" selectAndInclude = Normal doc
    /\ doc_children doc = [marker; compiled]
    /\ f_hasInvalidChild marker = true
    /\ f_schemaField compiled = Some findManyUser.
Proof.
  eexists. eexists. eexists. split; [lazy; reflexivity|].
  split; [reflexivity|]. split; reflexivity.
Qed.

(** C3.  For [{ where: { AND: { id: "x" } } }] the collected path carries the
    list index as the string ["0"], which [normalizePath] keeps: the reported
    path is [where.AND.0.id].  On the path of its own documentation, with the
    number [0], it drops the index. *)
Theorem normalizePath_keeps_string_index :
  exists doc,
    compile "findManyUser" whereAndId = Normal doc
    /\ map ae_path (argErrors (validate_collect doc whereAndId false))
       = [[PStr "where"; PStr "AND"; PStr "0"; PStr "id"]]
    /\ validate_paths doc whereAndId false = Normal ([], ["where.AND.0.id"])
    /\ normalizePath [PStr "where"; PStr "AND"; PNum 0; PStr "id"] whereAndId
       = Normal [PStr "where"; PStr "AND"; PStr "id"].
Proof.
  eexists. split; [lazy; reflexivity|].
  split; [reflexivity|]. split; reflexivity.
Qed.

End SampleRuns.

Module SampleChecks.

Import Sample.


(** The union theorem at [{ x: 1, y: 2 }] against [NoFieldsInput | OnlyXInput]:
    both candidates fail, the first with two errors and the second with one,
    and the second, which scores strictly lower, is the one returned. *)
Lemma valueToArg_union_resolution_witness :
  exists noFields onlyX,
    tryInferArgs helpers unionSchema unionArgs "data" xAndY dataArg noFieldsType noContext
    = Normal (Some noFields)
    /\ tryInferArgs helpers unionSchema unionArgs "data" xAndY dataArg onlyXType noContext
       = Normal (Some onlyX)
    /\ length (Arg_collectErrors noFields) = 2%nat
    /\ length (Arg_collectErrors onlyX) = 1%nat
    /\ lt reals (candidateScore reals onlyX (Arg_collectErrors onlyX))
                (candidateScore reals noFields (Arg_collectErrors noFields)) = true
    /\ valueToArg helpers reals unionSchema unionArgs "data" xAndY dataArg noContext
       = Normal (Some onlyX).
Proof.
  eexists. eexists.
  assert (EA : tryInferArgs helpers unionSchema unionArgs "data" xAndY dataArg noFieldsType
                 noContext = Normal (Some _)) by (lazy; reflexivity).
  assert (EB : tryInferArgs helpers unionSchema unionArgs "data" xAndY dataArg onlyXType
                 noContext = Normal (Some _)) by (lazy; reflexivity).
  split; [exact EA|]. split; [exact EB|].
  split; [reflexivity|]. split; [reflexivity|].
  match type of EA with _ = Normal (Some ?a) => set (noFields := a) in * end.
  match type of EB with _ = Normal (Some ?b) => set (onlyX := b) in * end.
  assert (Hlt : lt reals (candidateScore reals onlyX (Arg_collectErrors onlyX))
                  (candidateScore reals noFields (Arg_collectErrors noFields)) = true).
  { assert (HA : exists e1 e2, Arg_collectErrors noFields = [e1; e2]
                   /\ errorScore reals noFields e1 = (INR 1 + ln (INR 2))%R
                   /\ errorScore reals noFields e2 = (INR 1 + ln (INR 2))%R).
    { eexists. eexists. split; [lazy; reflexivity|].
      split; eapply SampleRuns.errorScore_unknown_name; reflexivity. }
    assert (HB : exists e1, Arg_collectErrors onlyX = [e1]
                   /\ errorScore reals onlyX e1 = (INR 1 + ln (INR 2))%R).
    { eexists. split; [lazy; reflexivity|].
      eapply SampleRuns.errorScore_unknown_name; reflexivity. }
    destruct HA as [a1 [a2 [-> [Ha1 Ha2]]]]. destruct HB as [b1 [-> Hb1]].
    unfold candidateScore, sum. cbn [map fold_left length]. rewrite Ha1, Ha2, Hb1.
    cbn [lt add of_nat reals]. pose proof SampleRuns.ln_2_pos as Hln.
    change (INR 2) with 2%R in *. change (INR 1) with 1%R. change (INR 0) with 0%R.
    destruct (Rlt_dec _ _) as [_|Hn]; [reflexivity|]. exfalso. apply Hn. lra. }
  split; [exact Hlt|].
  destruct (proj1 (proj2 (proj2 (valueToArg_union_resolution helpers reals unionSchema
                                   unionArgs SampleRuns.reals_lt_irrefl SampleRuns.reals_lt_trans
                                   "data" xAndY dataArg noContext)))
              [noFields; onlyX]) as [best [Hv [Hin Hmin]]].
  - constructor; [split; [exact EA | discriminate]|].
    constructor; [split; [exact EB | discriminate]|]. constructor.
  - discriminate.
  - destruct Hin as [<-|[<-|[]]]; [|exact Hv].
    specialize (Hmin onlyX (or_intror (or_introl eq_refl))).
    cbv beta in Hmin. rewrite Hlt in Hmin. discriminate.
Defined.

(** The two exceptions on the sample client.  For [updateMany] given
    [{ bogus: 1 }] the list-shaped candidate throws, so [valueToArg] throws,
    although the Json candidate after it compiles without error.  And a
    missing [title], an argument of the input type
    [PostUncheckedCreateInput], is scored [1 + ln 3] and not twice that,
    because the candidate, [AuthorCreateInput], is not an "Unchecked" type. *)
Lemma union_resolution_exceptions :
  (exists clean,
      tryInferArgs helpers dmmf inferArgs "updateMany" (JObject [("bogus", JNumber 1)])
        updateManyOrJson postListType noContext
      = Throw "TypeError: Cannot read properties of undefined (reading 'map')"
      /\ tryInferArgs helpers dmmf inferArgs "updateMany" (JObject [("bogus", JNumber 1)])
           updateManyOrJson Json_ noContext = Normal (Some clean)
      /\ Arg_collectErrors clean = []
      /\ valueToArg helpers reals dmmf inferArgs "updateMany" (JObject [("bogus", JNumber 1)])
           updateManyOrJson noContext
         = Throw "TypeError: Cannot read properties of undefined (reading 'map')")
  /\ (exists a e ma,
        tryInferArgs helpers unionSchema unionArgs "data" (JObject [("post", JObject [])])
          authorArg authorType noContext = Normal (Some a)
        /\ Arg_collectErrors a = [e]
        /\ ae_error e = missingArg "title" ma false false
        /\ In ma (input_fields PostUncheckedCreateInput)
        /\ contains "Unchecked" (input_name PostUncheckedCreateInput)
        /\ errorScore reals a e = (1 + ln 3)%R
        /\ errorScore reals a e <> ((1 + ln 3) * 2)%R).
Proof.
  split.
  - eexists. split; [lazy; reflexivity|]. split; [lazy; reflexivity|].
    split; [reflexivity|]. lazy. reflexivity.
  - eexists. eexists. eexists.
    assert (E : tryInferArgs helpers unionSchema unionArgs "data"
                  (JObject [("post", JObject [])]) authorArg authorType noContext
                = Normal (Some _)) by (lazy; reflexivity).
    split; [exact E|].
    match type of E with _ = Normal (Some ?x) => set (a := x) in * end.
    assert (Ee : Arg_collectErrors a = [_]) by (lazy; reflexivity).
    split; [exact Ee|].
    match type of Ee with _ = [?x] => set (e := x) in * end.
    split; [reflexivity|]. split; [left; reflexivity|].
    split; [apply includes_contains; reflexivity|].
    assert (Hs : errorScore reals a e = (1 + ln 3)%R).
    { rewrite (SampleRuns.errorScore_missing a e "title" _ false false authorType
                 eq_refl eq_refl eq_refl).
      change (INR (length (ae_path e))) with (INR 3). change (INR 1) with 1%R.
      replace (INR 3) with 3%R by (simpl; lra). reflexivity. }
    split; [exact Hs|]. rewrite Hs. pose proof SampleRuns.ln_3_pos. lra.
Qed.

(** A required, non-nullable String argument set to [null] compiles to an
    Arg without any error: no [invalidNullArg], although String permits no
    empty or at-least-one object. *)
Lemma required_null_is_accepted :
  isRequired requiredName = true
  /\ isNullable requiredName = false
  /\ isAtLeastOne dmmf String_ = false
  /\ tryInferArgs helpers dmmf inferArgs "name" JNull requiredName String_ noContext
     = Normal (Some (plainArg "name" JNull false None (Some requiredName) (Some String_)))
  /\ valueToArg helpers reals dmmf inferArgs "name" JNull requiredName noContext
     = Normal (Some (plainArg "name" JNull false None (Some requiredName) (Some String_))).
Proof. repeat split; reflexivity. Qed.


Lemma tryInferArgs_null_witness :
  (isNullable optionalName = false
   /\ isRequired optionalName = false
   /\ isAtLeastOne dmmf String_ = false
   /\ tryInferArgs helpers dmmf inferArgs "name" JNull optionalName String_ noContext
      = Normal (Some (plainArg "name" JNull false
                        (Some (invalidNullArg "name" [String_] false false))
                        None (Some String_))))
  /\ (isRequired requiredName = true
      /\ tryInferArgs helpers dmmf inferArgs "name" JNull requiredName String_ noContext
         = Normal (Some (plainArg "name" JNull false None (Some requiredName)
                           (Some String_))))
  /\ (isRequired requiredWhere = true
      /\ isObject helpers JNull = false
      /\ tryInferArgs helpers dmmf inferArgs "where" JNull requiredWhere whereType noContext
         = Normal (Some (getInvalidTypeArg "where" JNull requiredWhere whereType)))
  /\ (isRequired requiredAnd = true
      /\ tryInferArgs helpers dmmf inferArgs "AND" JNull requiredAnd whereListType noContext
         = tryInferArgs helpers dmmf inferArgs "AND" (JArray [JNull]) requiredAnd
             whereListType noContext).
Proof.
  split; [|split; [|split]].
  - split; [reflexivity|]. split; [reflexivity|]. split; [reflexivity|].
    apply (proj1 (tryInferArgs_null helpers dmmf inferArgs "name" optionalName String_
                    noContext)); reflexivity.
  - split; [reflexivity|].
    apply (proj1 (proj2 (proj2 (tryInferArgs_null helpers dmmf inferArgs "name" requiredName
                                  String_ noContext) eq_refl))); reflexivity.
  - split; [reflexivity|]. split; [reflexivity|].
    apply (proj1 (proj2 (proj2 (proj2 (tryInferArgs_null helpers dmmf inferArgs "where"
                                         requiredWhere whereType noContext) eq_refl))));
      reflexivity.
  - split; [reflexivity|].
    apply (proj2 (proj2 (proj2 (proj2 (tryInferArgs_null helpers dmmf inferArgs "AND"
                                         requiredAnd whereListType noContext) eq_refl))));
      [reflexivity | discriminate].
Defined.

(** [objectToArgs] on [{}] against [UserCreateInput]: [name] is optional and
    was not provided, yet the compiled Args list an Arg for it, because the
    required [email] is missing. *)
Lemma optional_undefined_is_listed :
  exists args a,
    objectToArgs helpers (valueToArg_at helpers reals dmmf 3) (JObject []) UserCreateInput
      noContext None NoOutput = Normal args
    /\ find (fun f => arg_name f =? "name") (input_fields UserCreateInput) = Some optionalName
    /\ isRequired optionalName = false
    /\ get (JObject []) "name" = JUndefined
    /\ In a (args_args args)
    /\ arg_key a = "name"
    /\ arg_error a = Some (missingArg "name" optionalName false false).
Proof.
  eexists. eexists. split; [lazy; reflexivity|].
  repeat (split; [reflexivity|]). split; [right; left; reflexivity|].
  split; reflexivity.
Qed.

Lemma undefined_argument_handling_witness :
  isRequired optionalName = false
  /\ valueToArg helpers reals dmmf inferArgs "name" JUndefined optionalName noContext
     = Normal None
  /\ isRequired requiredName = true
  /\ inputTypes requiredName <> []
  /\ tryInferArgs helpers dmmf inferArgs "name" JUndefined requiredName String_ noContext
     = Normal (Some (missingArgFor "name" requiredName String_)).
Proof.
  split; [reflexivity|]. split.
  - apply (proj1 (undefined_argument_handling helpers reals dmmf inferArgs "name"
                    optionalName noContext)); reflexivity.
  - split; [reflexivity|]. split; [discriminate|].
    apply (proj2 (undefined_argument_handling helpers reals dmmf inferArgs "name"
                    requiredName noContext)); reflexivity.
Defined.

(** A Symbol against Json: accepted as the specification words the rule (it
    is neither a tagged enum value nor a field reference), rejected by
    [hasCorrectScalarType]. *)
Lemma symbol_against_Json_is_rejected :
  accepts_as_specified helpers noContext (JSymbol "s") Json_ = true
  /\ hasCorrectScalarType helpers (JSymbol "s") Json_ noContext = false.
Proof. split; reflexivity. Qed.

(** [{ name: 0 }] on the scalar field [name]: the value is falsy, and the
    field is not omitted but reported with [invalidFieldType]. *)
Lemma falsy_number_is_not_omitted :
  truthy (JNumber 0) = false
  /\ find (fun f => field_name f =? "name") (output_fields UserType)
     = Some (scalarField "name" "String")
  /\ selectionToFields_step helpers reals dmmf (selectionToFields_at helpers reals dmmf 3) 3
       UserType [] noContext [] ("name", JNumber 0)
     = Normal [errorField "name" (invalidFieldType "User" "name" (JNumber 0))].
Proof. repeat split; reflexivity. Qed.

Lemma selectionToFields_false_omitted_witness :
  find (fun f => field_name f =? "name") (output_fields UserType)
  = Some (scalarField "name" "String")
  /\ selectionToFields_step helpers reals dmmf (selectionToFields_at helpers reals dmmf 3) 3
       UserType [] noContext [] ("name", JBool false)
     = Normal [].
Proof.
  split; [reflexivity|].
  apply (selectionToFields_false_omitted helpers reals dmmf _ 3 UserType [] noContext []
           "name" (scalarField "name" "String")).
  reflexivity.
Defined.





(** [null] for the optional, non-nullable, list-shaped [AND] is not wrapped:
    the Arg carries the bare [null] with [invalidNullArg], while the list
    [[null]] compiles to an Arg of another shape. *)
Lemma null_is_not_wrapped :
  isList whereListType = true
  /\ Array_isArray JNull = false
  /\ "AND" <> "updateMany"
  /\ tryInferArgs helpers dmmf inferArgs "AND" JNull whereAnd whereListType noContext
     = Normal (Some (plainArg "AND" JNull false
                       (Some (invalidNullArg "AND" [whereListType] false false))
                       None (Some whereListType)))
  /\ tryInferArgs helpers dmmf inferArgs "AND" JNull whereAnd whereListType noContext
     <> tryInferArgs helpers dmmf inferArgs "AND" (JArray [JNull]) whereAnd whereListType
          noContext.
Proof.
  split; [reflexivity|]. split; [reflexivity|]. split; [discriminate|].
  split; [reflexivity|]. lazy. discriminate.
Qed.

Lemma tryInferArgs_wraps_non_list_witness :
  "AND" <> "updateMany"
  /\ tryInferArgs helpers dmmf inferArgs "AND" (JObject [("id", JNumber 5)]) whereAnd
       whereListType noContext
     = tryInferArgs helpers dmmf inferArgs "AND" (JArray [JObject [("id", JNumber 5)]])
         whereAnd whereListType noContext
  /\ exists a,
       tryInferArgs helpers dmmf inferArgs "AND" JNull whereAnd whereListType noContext
       = Normal (Some a)
       /\ arg_value a = AVPlain JNull
       /\ own_error_kind a = Some KInvalidNullArg.
Proof.
  split; [discriminate|]. split.
  - apply (proj1 (proj1 (tryInferArgs_wraps_non_list helpers dmmf inferArgs "AND"
                           (JObject [("id", JNumber 5)]) whereAnd whereListType
                           noContext eq_refl eq_refl eq_refl) eq_refl)).
    discriminate.
  - exact (proj2 (tryInferArgs_wraps_non_list helpers dmmf inferArgs "AND" JNull whereAnd
                    whereListType noContext eq_refl eq_refl eq_refl) eq_refl).
Defined.



End SampleChecks.

(** * Further properties *)

(** ** Validity flags against collected errors *)

Lemma All_Forall {A : Type} (P : A -> Prop) (l : list A) : All P l <-> Forall P l.
Proof.
  induction l as [|x l IH]; simpl; split; intros Hl.
  - constructor.
  - exact I.
  - destruct Hl as [Hx Hl]. constructor; [exact Hx | now apply IH].
  - inversion Hl; subst. split; [assumption | now apply IH].
Qed.

Lemma All_app {A : Type} (P : A -> Prop) (l1 l2 : list A) :
  All P (l1 ++ l2) <-> All P l1 /\ All P l2.
Proof. rewrite !All_Forall. apply Forall_app. Qed.

Lemma map_not_nil {A B : Type} (f : A -> B) (l : list A) : l <> [] -> map f l <> [].
Proof. destruct l; [congruence | discriminate]. Qed.

Lemma app_not_nil_r {A : Type} (l1 l2 : list A) : l2 <> [] -> l1 ++ l2 <> [].
Proof. destruct l1; [auto | discriminate]. Qed.

Lemma app_not_nil_l {A : Type} (l1 l2 : list A) : l1 <> [] -> l1 ++ l2 <> [].
Proof. destruct l1; [congruence | discriminate]. Qed.

Lemma flags_Arg_step key value error hasError isEnum_ schemaArg isNullable_ inputType :
  match value with
  | AVPlain _ => True
  | AVArgs a => wf_Args a -> (args_hasInvalidArg a = true <-> Args_collectErrors a <> [])
  | AVArray l =>
      Forall (fun el => match el with
                        | ElPlain _ => True
                        | ElArgs a =>
                            wf_Args a ->
                            (args_hasInvalidArg a = true <-> Args_collectErrors a <> [])
                        | ElArg a =>
                            wf_Arg a -> (arg_hasError a = true <-> Arg_collectErrors a <> [])
                        end) l
  end ->
  let a := mkArg key value error hasError isEnum_ schemaArg isNullable_ inputType in
  wf_Arg a -> (arg_hasError a = true <-> Arg_collectErrors a <> []).
Proof.
  intros IH a [Hflag Hwf]. subst a.
  cbn [arg_hasError Arg_collectErrors].
  destruct hasError; cbn [negb]; [|split; [discriminate | congruence]].
  split; [intros _ | reflexivity].
  symmetry in Hflag. unfold computed_hasError in Hflag.
  apply orb_true_iff in Hflag. destruct Hflag as [Hflag|Harr].
  - apply orb_true_iff in Hflag. destruct Hflag as [Herr|Hargs].
    + destruct error; [|discriminate]. destruct value; discriminate.
    + destruct value as [v|a|l]; try discriminate.
      apply app_not_nil_r, map_not_nil. now apply IH.
  - destruct value as [v|a|l]; try discriminate.
    apply app_not_nil_r. apply All_Forall in Hwf.
    generalize 0%nat. revert Harr Hwf.
    induction IH as [|el l Hel _ IHl]; intros Harr Hwf index; [discriminate|].
    inversion Hwf as [|el' l' Hwel Hwl]; subst.
    cbn [existsb] in Harr. apply orb_true_iff in Harr. destruct Harr as [Hhere|Hrest].
    + apply app_not_nil_l. destruct el as [v|a|a]; [discriminate| |];
        apply map_not_nil; now apply Hel.
    + apply app_not_nil_r. now apply IHl.
Qed.

Lemma flags_Args_step args hasInvalidArg :
  Forall (fun a => wf_Arg a -> (arg_hasError a = true <-> Arg_collectErrors a <> [])) args ->
  let a := mkArgs args hasInvalidArg in
  wf_Args a -> (args_hasInvalidArg a = true <-> Args_collectErrors a <> []).
Proof.
  intros IH a [Hflag Hwf]. subst a. cbn [args_hasInvalidArg Args_collectErrors].
  destruct hasInvalidArg; cbn [negb]; [|split; [discriminate | congruence]].
  split; [intros _ | reflexivity].
  symmetry in Hflag. apply All_Forall in Hwf. revert Hflag Hwf.
  induction IH as [|a l Ha _ IHl]; intros Hflag Hwf; [discriminate|].
  inversion Hwf as [|a' l' Hwa Hwl]; subst.
  cbn [existsb] in Hflag. apply orb_true_iff in Hflag. destruct Hflag as [Hhere|Hrest].
  - apply app_not_nil_l. now apply Ha.
  - apply app_not_nil_r. now apply IHl.
Qed.

Lemma wf_flags_exact :
  (forall a, wf_Arg a -> (arg_hasError a = true <-> Arg_collectErrors a <> []))
  /\ (forall a, wf_Args a -> (args_hasInvalidArg a = true <-> Args_collectErrors a <> [])).
Proof.
  split.
  - apply (Arg_tree_ind
             (fun a => wf_Arg a -> (arg_hasError a = true <-> Arg_collectErrors a <> []))
             (fun a => wf_Args a ->
                       (args_hasInvalidArg a = true <-> Args_collectErrors a <> [])));
      [apply flags_Arg_step | apply flags_Args_step].
  - apply (Args_tree_ind
             (fun a => wf_Arg a -> (arg_hasError a = true <-> Arg_collectErrors a <> []))
             (fun a => wf_Args a ->
                       (args_hasInvalidArg a = true <-> Args_collectErrors a <> [])));
      [apply flags_Arg_step | apply flags_Args_step].
Qed.

(** X1.  In a well-formed tree of compiled arguments the flags tell exactly
    whether errors are collected: [hasError] of an Arg holds if and only if
    [Arg.collectErrors] returns a non-empty list, and [hasInvalidArg] of an
    Args if and only if [Args.collectErrors] does. *)
Theorem flags_match_collected_errors :
  (forall a, wf_Arg a -> (arg_hasError a = true <-> Arg_collectErrors a <> []))
  /\ (forall a, wf_Args a -> (args_hasInvalidArg a = true <-> Args_collectErrors a <> [])).
Proof. exact wf_flags_exact. Qed.


(** ** What the inference engine returns *)

Lemma wf_new_Arg (o : ArgOptions) :
  match o_value o with
  | AVPlain _ => True
  | AVArgs a => wf_Args a
  | AVArray l =>
      All (fun el => match el with
                     | ElPlain _ => True
                     | ElArgs a => wf_Args a
                     | ElArg a => wf_Arg a
                     end) l
  end ->
  wf_Arg (new_Arg o).
Proof.
  destruct o as [key value isEnum_ error schemaArg inputType]. unfold new_Arg. simpl.
  intros Hv. unfold computed_hasError. destruct value as [v|a|l]; simpl; split;
    try exact I; try exact Hv; try reflexivity.
Qed.

Lemma wf_new_Args (args : list Arg) : All wf_Arg args -> wf_Args (new_Args args).
Proof. intros Hall. split; [reflexivity | exact Hall]. Qed.

Lemma wf_plainArg key value isEnum_ error schemaArg inputType :
  wf_Arg (plainArg key value isEnum_ error schemaArg inputType).
Proof. apply wf_new_Arg. exact I. Qed.

Section EngineResults.

Variable H : Helpers.
Variable N : NumberOps.
Variable dmmf : DMMFHelper.

Lemma valueToArg_loop_invariant (rec : ObjectToArgs) (P : Arg -> Prop)
  key value arg context :
  forall candidates argsWithErrors maybeArg st,
    (forall inputType r, In inputType candidates ->
        tryInferArgs H dmmf rec key value arg inputType context = Normal (Some r) -> P r) ->
    (forall x, In x argsWithErrors -> P (fst x)) ->
    (forall a, maybeArg = Some a -> P a) ->
    valueToArg_loop H dmmf rec key value arg context candidates argsWithErrors maybeArg
    = Normal st ->
    match st with
    | Returned a => P a
    | Pending m awe => (forall x, In x awe -> P (fst x)) /\ (forall a, m = Some a -> P a)
    end.
Proof.
  induction candidates as [|c candidates IH]; intros awe m st Hc Hawe Hm; simpl.
  - intros [= <-]. split; assumption.
  - destruct (tryInferArgs H dmmf rec key value arg c context) as [[a|]| |] eqn:E; simpl;
      try discriminate.
    + assert (Pa : P a) by (apply (Hc c a); [now left | exact E]).
      destruct (length (Arg_collectErrors a) =? 0)%nat.
      * intros [= <-]. exact Pa.
      * apply IH.
        -- intros it r Hin. apply Hc. now right.
        -- intros x Hx. apply in_app_or in Hx. destruct Hx as [Hx|[<-|[]]]; [now apply Hawe|].
           exact Pa.
        -- intros a' [= <-]. exact Pa.
    + apply IH.
      * intros it r Hin. apply Hc. now right.
      * exact Hawe.
      * discriminate.
Qed.

Lemma valueToArg_candidate (rec : ObjectToArgs) key value arg context a :
  valueToArg H N dmmf rec key value arg context = Normal (Some a) ->
  exists inputType,
    In inputType (inputTypes arg)
    /\ tryInferArgs H dmmf rec key value arg inputType context = Normal (Some a).
Proof.
  unfold valueToArg.
  destruct (valueToArg_loop H dmmf rec key value arg context (inputTypes arg) [] None)
    as [st| |] eqn:Eloop; simpl; try discriminate.
  pose proof (valueToArg_loop_invariant rec
                (fun r => exists inputType,
                     In inputType (inputTypes arg)
                     /\ tryInferArgs H dmmf rec key value arg inputType context
                        = Normal (Some r))
                key value arg context (inputTypes arg) [] None st) as Hinv.
  specialize (Hinv (fun it r Hin E => ex_intro _ it (conj Hin E))).
  specialize (Hinv (fun x (Hx : In x []) => match Hx with end)).
  specialize (Hinv (fun a' (E : None = Some a') => ltac:(discriminate))).
  specialize (Hinv Eloop).
  destruct st as [r|m awe].
  - intros [= <-]. exact Hinv.
  - destruct Hinv as [Hawe Hm].
    destruct ((match m with Some a0 => arg_hasError a0 | None => false end)
              && (0 <? length awe)%nat).
    + match goal with
      | |- context [Array_sort ?c ?l] => destruct (Array_sort c l) as [|best rest] eqn:Es
      end; [discriminate|].
      intros [= <-].
      assert (Hb : In best (best :: rest)) by now left.
      rewrite <- Es in Hb. apply Array_sort_In in Hb. apply in_map_iff in Hb.
      destruct Hb as [x [<- Hx]]. simpl. now apply Hawe.
    + intros [= ->]. now apply Hm.
Qed.

(** X2.  Whatever [valueToArg] returns is the result of [tryInferArgs] for
    one of the declared candidate types: scoring only picks among the
    candidates' own results. *)
Theorem valueToArg_returns_a_candidate (rec : ObjectToArgs) key value arg context a :
  valueToArg H N dmmf rec key value arg context = Normal (Some a) ->
  exists inputType,
    In inputType (inputTypes arg)
    /\ tryInferArgs H dmmf rec key value arg inputType context = Normal (Some a).
Proof. exact (valueToArg_candidate rec key value arg context a). Qed.

End EngineResults.


Lemma reduceM_invariant {A B : Type} (P : B -> Prop) (step : B -> A -> Completion B)
  (l : list A) :
  (forall acc x acc', In x l -> P acc -> step acc x = Normal acc' -> P acc') ->
  forall acc r, P acc -> reduceM step l acc = Normal r -> P r.
Proof.
  induction l as [|x l IH]; intros Hstep acc r Hacc; simpl.
  - intros [= <-]. exact Hacc.
  - destruct (step acc x) as [acc'| |] eqn:E; simpl; try discriminate.
    apply IH.
    + intros a y a' Hy. apply Hstep. now right.
    + apply (Hstep acc x acc'); [now left | exact Hacc | exact E].
Qed.

Lemma mapM_Forall {A B : Type} (P : B -> Prop) (f : A -> Completion B) (l : list A) :
  (forall x y, In x l -> f x = Normal y -> P y) ->
  forall r, mapM f l = Normal r -> Forall P r.
Proof.
  induction l as [|x l IH]; intros Hf r; simpl.
  - intros [= <-]. constructor.
  - destruct (f x) as [y| |] eqn:E; simpl; try discriminate.
    destruct (mapM f l) as [ys| |] eqn:El; simpl; try discriminate.
    intros [= <-]. constructor.
    + apply (Hf x); [now left | exact E].
    + apply IH; [|reflexivity]. intros a b Ha. apply Hf. now right.
Qed.

Lemma uniqBy_subset {A : Type} (key : A -> string) (l : list A) (seen : list string) x :
  In x (uniqBy key l seen) -> In x l.
Proof.
  revert seen. induction l as [|y l IH]; intros seen; simpl; [auto|].
  destruct (existsb (String.eqb (key y)) seen).
  - intros Hin. right. exact (IH _ Hin).
  - intros [<-|Hin]; [now left | right; exact (IH _ Hin)].
Qed.

Section EngineInvariants.

Variable H : Helpers.
Variable N : NumberOps.
Variable dmmf : DMMFHelper.

(** An Arg that is well formed and keyed by [key]. *)
Abbreviation keyed key := (fun a : Arg => wf_Arg a /\ arg_key a = key).

Lemma scalarToArg_keyed key value arg inputType context :
  keyed key (scalarToArg H key value arg inputType context).
Proof.
  unfold scalarToArg.
  destruct (isDate value && negb (isValidDate value)); [split; [apply wf_plainArg | reflexivity]|].
  destruct (hasCorrectScalarType H value inputType context);
    (split; [apply wf_plainArg | reflexivity]).
Qed.

Lemma compileElements_wf rec arg inputType context :
  returns_Args wf_Args rec ->
  forall elements i els,
    compileElements rec arg inputType context i elements = Normal els ->
    All (fun el => match el with
                   | ElPlain _ => True
                   | ElArgs a => wf_Args a
                   | ElArg a => wf_Arg a
                   end) els.
Proof.
  intros Hrec. induction elements as [|v rest IH]; intros i els; simpl.
  - intros [= <-]. exact I.
  - match goal with
    | |- bind ?c _ = _ -> _ => destruct c as [el| |] eqn:Eel; simpl; try discriminate
    end.
    destruct (compileElements rec arg inputType context (S i) rest) as [els'| |] eqn:Er;
      simpl; try discriminate.
    intros [= <-]. split; [|now apply (IH (S i))].
    destruct (isList inputType && negb (typeof v =? "object")).
    + injection Eel as <-. exact I.
    + destruct (negb (typeof v =? "object") || Array_isArray v).
      * injection Eel as <-. apply wf_plainArg.
      * destruct (rec v (type inputType) context None NoOutput) as [args| |] eqn:Ea;
          simpl in Eel; try discriminate.
        injection Eel as <-. exact (Hrec _ _ _ _ _ _ Ea).
Qed.

Lemma tryNestedInputTypes_keyed rec key value arg context :
  returns_Args wf_Args rec ->
  forall candidates a,
    tryNestedInputTypes rec key value arg context candidates = Normal (Some a) ->
    keyed key a.
Proof.
  intros Hrec. induction candidates as [|c candidates IH]; intros a; simpl; [discriminate|].
  destruct (rec value (type c) context None NoOutput) as [args| |] eqn:Ea; simpl;
    try discriminate.
  destruct (length (Args_collectErrors args) =? 0)%nat; [|apply IH].
  intros [= <-]. split; [|reflexivity]. apply wf_new_Arg. exact (Hrec _ _ _ _ _ _ Ea).
Qed.

Lemma tryInferArgs_keyed rec key value arg inputType context a :
  returns_Args wf_Args rec ->
  tryInferArgs H dmmf rec key value arg inputType context = Normal (Some a) ->
  keyed key a.
Proof.
  intros Hrec. unfold tryInferArgs.
  destruct (is_undefined value).
  { destruct (negb (isRequired arg)); [discriminate|].
    intros [= <-]. split; [apply wf_plainArg | reflexivity]. }
  destruct (is_null value && negb (isNullable arg) && negb (isRequired arg)
            && negb (isAtLeastOne dmmf inputType)).
  { intros [= <-]. split; [apply wf_plainArg | reflexivity]. }
  destruct (negb (isList inputType)).
  - unfold inferSingleArg. destruct (type inputType) as [n|n vs|n] eqn:Et.
    + intros [= <-]. apply scalarToArg_keyed.
    + intros [= <-]. apply scalarToArg_keyed.
    + destruct (negb (typeof value =? "object") || Array_isArray value
                || FieldLocation_eqb (location inputType) inputObjectTypes
                   && negb (isObject H value)).
      * intros [= <-]. split; [apply wf_plainArg | reflexivity].
      * destruct (is_null (cleanObject value)).
        -- simpl. intros [= <-]. split; [|reflexivity]. apply wf_new_Arg. exact I.
        -- destruct (rec (cleanObject value) (ATInput n) context (Some (inputTypes arg))
                       NoOutput) as [args| |] eqn:Ea; simpl; try discriminate.
           intros [= <-]. split; [|reflexivity]. apply wf_new_Arg.
           exact (Hrec _ _ _ _ _ _ Ea).
  - unfold inferListArg.
    destruct (is_enumTypes inputType || FieldLocation_eqb (location inputType) scalar).
    { intros [= <-]. apply scalarToArg_keyed. }
    destruct (wrapIntoList key value inputType) as [| | | | | | | | | |elements|props];
      try (match goal with
           | |- bind ?c _ = _ -> _ => destruct c as [[a'|]| |] eqn:E; simpl; try discriminate
           end;
           intros [= <-]; exact (tryNestedInputTypes_keyed _ _ _ _ _ Hrec _ _ E)).
    destruct (compileElements rec arg inputType context 0 elements) as [els| |] eqn:Ee;
      simpl; try discriminate.
    intros [= <-]. split; [|reflexivity]. apply wf_new_Arg.
    exact (compileElements_wf _ _ _ _ Hrec _ _ _ Ee).
Qed.

Lemma valueToArg_wf_keyed rec key value arg context a :
  returns_Args wf_Args rec ->
  valueToArg H N dmmf rec key value arg context = Normal (Some a) ->
  wf_Arg a /\ arg_key a = key.
Proof.
  intros Hrec Hv. apply valueToArg_candidate in Hv.
  destruct Hv as [inputType [_ Ht]]. exact (tryInferArgs_keyed _ _ _ _ _ _ _ Hrec Ht).
Qed.

(** X3.  With a callee that returns well-formed Args, the Arg [valueToArg]
    returns is well formed and is keyed by the key it was asked to compile. *)
Theorem valueToArg_keyed rec key value arg context a :
  returns_Args wf_Args rec ->
  valueToArg H N dmmf rec key value arg context = Normal (Some a) ->
  wf_Arg a /\ arg_key a = key.
Proof. exact (valueToArg_wf_keyed rec key value arg context a). Qed.

End EngineInvariants.


Section ObjectInvariants.

Variable H : Helpers.
Variable N : NumberOps.
Variable dmmf : DMMFHelper.

Lemma objectToArgs_step_adds vrec inputType context possibilities outputType_ acc name v acc' :
  (forall key value arg ctx a, vrec key value arg ctx = Normal (Some a) ->
                               wf_Arg a /\ arg_key a = key) ->
  objectToArgs_step H vrec inputType context possibilities outputType_ acc (name, v)
  = Normal acc' ->
  acc' = acc \/ exists a, acc' = acc ++ [a] /\ wf_Arg a /\ arg_key a = name.
Proof.
  intros Hv. unfold objectToArgs_step.
  destruct (find (fun a => arg_name a =? name) (input_fields inputType)) as [schemaArg|].
  - destruct (vrec name v schemaArg context) as [[a|]| |] eqn:E; simpl; try discriminate.
    + intros [= <-]. right. exists a. split; [reflexivity|]. exact (Hv _ _ _ _ _ E).
    + intros [= <-]. now left.
  - match goal with
    | |- bind ?c _ = _ -> _ => destruct c as [isField| |]; simpl; try discriminate
    end.
    intros [= <-]. right. eexists. split; [reflexivity|].
    split; [apply wf_plainArg | reflexivity].
Qed.

Lemma missingArgEntry_keyed inputType arg a :
  missingArgEntry inputType arg = Normal a -> wf_Arg a /\ arg_key a = arg_name arg.
Proof.
  unfold missingArgEntry. destruct (inputTypes arg); [discriminate|].
  intros [= <-]. split; [apply wf_plainArg | reflexivity].
Qed.

Lemma objectToArgs_wf_keys vrec initialObj inputType context possibilities outputType_ args :
  (forall key value arg ctx a, vrec key value arg ctx = Normal (Some a) ->
                               wf_Arg a /\ arg_key a = key) ->
  objectToArgs H vrec initialObj inputType context possibilities outputType_ = Normal args ->
  wf_Args args
  /\ forall a, In a (args_args args) ->
               In (arg_key a) (map fst (own_entries (cleanObject initialObj))
                               ++ map arg_name (input_fields inputType)).
Proof.
  intros Hv. unfold objectToArgs.
  set (ctx := match meta_source inputType with
              | Some source => if source =? "" then context else mkContext (Some source)
              | None => context
              end).
  set (keys := map fst (own_entries (cleanObject initialObj))
               ++ map arg_name (input_fields inputType)).
  set (entries := unionBy (own_entries (cleanObject initialObj))
                    (map (fun arg => (arg_name arg, JUndefined)) (input_fields inputType))
                    fst).
  set (good := fun l : list Arg => Forall (fun a => wf_Arg a /\ In (arg_key a) keys) l).
  assert (Hentries : forall x, In x entries -> In (fst x) keys).
  { intros x Hx. subst entries keys. unfold unionBy in Hx. apply uniqBy_subset in Hx.
    rewrite <- (map_map (fun arg => (arg_name arg, JUndefined)) fst).
    rewrite <- map_app. now apply in_map. }
  destruct (reduceM (objectToArgs_step H vrec inputType ctx possibilities outputType_)
              entries []) as [argsList| |] eqn:Er; simpl; try discriminate.
  assert (Hlist : good argsList).
  { apply (reduceM_invariant good
             (objectToArgs_step H vrec inputType ctx possibilities outputType_) entries)
      with (acc := []) (r := argsList); [|constructor|exact Er].
    intros acc [name v] acc' Hx Hacc Hstep.
    destruct (objectToArgs_step_adds _ _ _ _ _ _ _ _ _ Hv Hstep) as [->|[a [-> [Hw Hk]]]];
      [exact Hacc|].
    apply Forall_app. split; [exact Hacc|]. constructor; [|constructor].
    split; [exact Hw|]. rewrite Hk. exact (Hentries _ Hx). }
  assert (Hfinish : forall l, good l ->
             wf_Args (new_Args l)
             /\ forall a, In a (args_args (new_Args l)) -> In (arg_key a) keys).
  { intros l Hl. split.
    - apply wf_new_Args, All_Forall. eapply Forall_impl; [|exact Hl]. intros a [Hw _].
      exact Hw.
    - intros a Ha. simpl in Ha. unfold good in Hl. rewrite Forall_forall in Hl.
      exact (proj2 (Hl a Ha)). }
  match goal with
  | |- (if ?c then _ else _) = _ -> _ => destruct c
  end.
  - destruct (mapM (missingArgEntry inputType)
                (optionalMissingArgs inputType (cleanObject initialObj))) as [more| |] eqn:Em;
      simpl; try discriminate.
    intros [= <-]. apply Hfinish. apply Forall_app. split; [exact Hlist|].
    apply (mapM_Forall (fun a => wf_Arg a /\ In (arg_key a) keys)
             (missingArgEntry inputType)
             (optionalMissingArgs inputType (cleanObject initialObj)));
      [|exact Em].
    intros arg a Harg Ha. destruct (missingArgEntry_keyed _ _ _ Ha) as [Hw Hk].
    split; [exact Hw|]. rewrite Hk. subst keys. apply in_or_app. right.
    apply in_map. unfold optionalMissingArgs in Harg. apply filter_In in Harg. tauto.
  - intros [= <-]. now apply Hfinish.
Qed.

(** X4.  With a [valueToArg] whose results are well formed and keyed by the
    key asked for, the Args [objectToArgs] returns is well formed, and every
    Arg in it is keyed by a key present in the object (after undefined values
    are dropped) or by the name of a declared field. *)
Theorem objectToArgs_keys vrec initialObj inputType context possibilities outputType_ args :
  (forall key value arg ctx a, vrec key value arg ctx = Normal (Some a) ->
                               wf_Arg a /\ arg_key a = key) ->
  objectToArgs H vrec initialObj inputType context possibilities outputType_ = Normal args ->
  wf_Args args
  /\ forall a, In a (args_args args) ->
               In (arg_key a) (map fst (own_entries (cleanObject initialObj))
                               ++ map arg_name (input_fields inputType)).
Proof. exact (objectToArgs_wf_keys vrec initialObj inputType context possibilities outputType_ args). Qed.

Lemma objectToArgs_at_wf (depth : nat) : returns_Args wf_Args (objectToArgs_at H N dmmf depth).
Proof.
  induction depth as [|depth IH]; intros initialObj t context possibilities outputType_ args.
  - discriminate.
  - simpl. destruct t as [n|n vs|n]; try discriminate.
    intros Ho. apply objectToArgs_wf_keys in Ho; [tauto|].
    intros key value arg ctx a Hv. exact (valueToArg_wf_keyed H N dmmf _ _ _ _ _ _ IH Hv).
Qed.

(** X5.  The argument compiler keeps the flags honest at every depth: an
    Args returned by [objectToArgs] has [hasInvalidArg] set exactly when
    [collectErrors] finds an error in it, and likewise [hasError] for an Arg
    returned by [valueToArg]. *)
Theorem compiled_flags_are_exact (depth : nat) :
  (forall initialObj inputType context possibilities outputType_ args,
      objectToArgs_top H N dmmf depth initialObj inputType context possibilities outputType_
      = Normal args ->
      (args_hasInvalidArg args = true <-> Args_collectErrors args <> []))
  /\ (forall key value arg context a,
        valueToArg_at H N dmmf depth key value arg context = Normal (Some a) ->
        (arg_hasError a = true <-> Arg_collectErrors a <> [])).
Proof.
  split.
  - intros initialObj inputType context possibilities outputType_ args Ho.
    apply (proj2 wf_flags_exact).
    unfold objectToArgs_top in Ho. apply objectToArgs_wf_keys in Ho; [tauto|].
    intros key value arg ctx a Hv.
    exact (valueToArg_wf_keyed H N dmmf _ _ _ _ _ _ (objectToArgs_at_wf depth) Hv).
  - intros key value arg context a Hv.
    apply (proj1 wf_flags_exact).
    exact (proj1 (valueToArg_wf_keyed H N dmmf _ _ _ _ _ _ (objectToArgs_at_wf depth) Hv)).
Qed.

End ObjectInvariants.


Lemma uniqBy_keeps_key {A : Type} (key : A -> string) (l : list A) (seen : list string) x :
  In x l -> existsb (String.eqb (key x)) seen = false ->
  exists y, In y (uniqBy key l seen) /\ key y = key x.
Proof.
  revert seen. induction l as [|z l IH]; intros seen Hin Hseen; [contradiction|].
  simpl. destruct (existsb (String.eqb (key z)) seen) eqn:Ez.
  - destruct Hin as [->|Hin]; [congruence|].
    destruct (IH seen Hin Hseen) as [y [Hy Hk]]. now exists y.
  - destruct (String.eqb_spec (key z) (key x)) as [Heq|Hne].
    + exists z. split; [now left | exact Heq].
    + destruct Hin as [->|Hin]; [congruence|].
      destruct (IH (key z :: seen) Hin) as [y [Hy Hk]].
      * simpl. rewrite Hseen. destruct (String.eqb_spec (key x) (key z)); [congruence|].
        reflexivity.
      * exists y. split; [now right | exact Hk].
Qed.

Lemma reduceM_grows {A B : Type} (step : list B -> A -> Completion (list B)) (l : list A) :
  (forall acc y acc', step acc y = Normal acc' -> exists more, acc' = acc ++ more) ->
  forall acc r, reduceM step l acc = Normal r -> exists more, r = acc ++ more.
Proof.
  intros Hg. induction l as [|y l IH]; intros acc r; simpl.
  - intros [= <-]. exists []. now rewrite app_nil_r.
  - destruct (step acc y) as [acc'| |] eqn:E; simpl; try discriminate.
    intros Hr. destruct (Hg _ _ _ E) as [m1 ->]. destruct (IH _ _ Hr) as [m2 ->].
    exists (m1 ++ m2). now rewrite app_assoc.
Qed.

Lemma reduceM_keeps {A B : Type} (G : B -> Prop)
  (step : list B -> A -> Completion (list B)) (l : list A) (x : A) :
  (forall acc y acc', step acc y = Normal acc' -> exists more, acc' = acc ++ more) ->
  (forall acc acc', step acc x = Normal acc' -> exists b, In b acc' /\ G b) ->
  In x l ->
  forall acc r, reduceM step l acc = Normal r -> exists b, In b r /\ G b.
Proof.
  intros Hg Hx. induction l as [|y l IH]; intros Hin acc r; [contradiction|]. simpl.
  destruct (step acc y) as [acc'| |] eqn:E; simpl; try discriminate.
  intros Hr. destruct Hin as [->|Hin].
  - destruct (Hx _ _ E) as [b [Hb HG]].
    destruct (reduceM_grows step l Hg _ _ Hr) as [more ->].
    exists b. split; [apply in_or_app; now left | exact HG].
  - exact (IH Hin _ _ Hr).
Qed.

Section UnknownKeys.

Variable H : Helpers.

Lemma objectToArgs_step_grows vrec inputType context possibilities outputType_ acc entry acc' :
  objectToArgs_step H vrec inputType context possibilities outputType_ acc entry
  = Normal acc' ->
  exists more, acc' = acc ++ more.
Proof.
  destruct entry as [name v]. unfold objectToArgs_step.
  destruct (find (fun a => arg_name a =? name) (input_fields inputType)) as [schemaArg|].
  - destruct (vrec name v schemaArg context) as [[a|]| |]; simpl; try discriminate;
      intros [= <-]; [now exists [a] | exists []; now rewrite app_nil_r].
  - match goal with
    | |- bind ?c _ = _ -> _ => destruct c as [isField| |]; simpl; try discriminate
    end.
    intros [= <-]. eexists. reflexivity.
Qed.

(** X6.  A key the caller provides (with a value other than [undefined])
    that the input type does not declare is never dropped: when
    [objectToArgs] returns, its Args holds an Arg for that key carrying
    [invalidName], and the Args is flagged invalid. *)
Theorem objectToArgs_reports_unknown_key vrec initialObj inputType context possibilities
  outputType_ args name v :
  In (name, v) (own_entries (cleanObject initialObj)) ->
  find (fun a => arg_name a =? name) (input_fields inputType) = None ->
  objectToArgs H vrec initialObj inputType context possibilities outputType_ = Normal args ->
  (exists a, In a (args_args args)
             /\ arg_key a = name
             /\ own_error_kind a = Some KInvalidName)
  /\ args_hasInvalidArg args = true.
Proof.
  intros Hin Hfind. unfold objectToArgs.
  set (ctx := match meta_source inputType with
              | Some source => if source =? "" then context else mkContext (Some source)
              | None => context
              end).
  set (entries := unionBy (own_entries (cleanObject initialObj))
                    (map (fun arg => (arg_name arg, JUndefined)) (input_fields inputType))
                    fst).
  set (G := fun a : Arg => arg_key a = name /\ own_error_kind a = Some KInvalidName
                           /\ arg_hasError a = true).
  destruct (reduceM (objectToArgs_step H vrec inputType ctx possibilities outputType_)
              entries []) as [argsList| |] eqn:Er; simpl; try discriminate.
  assert (Hentry : exists y, In y entries /\ fst y = name).
  { subst entries. unfold unionBy.
    apply (uniqBy_keeps_key fst _ [] (name, v)); [|reflexivity].
    apply in_or_app. now left. }
  destruct Hentry as [[name' v'] [Hy Hname]]. simpl in Hname. subst name'.
  assert (Hgood : exists a, In a argsList /\ G a).
  { apply (reduceM_keeps G
             (objectToArgs_step H vrec inputType ctx possibilities outputType_)
             entries (name, v')) with (acc := []); [| |exact Hy|exact Er].
    - intros acc y acc'. apply objectToArgs_step_grows.
    - intros acc acc'. unfold objectToArgs_step. rewrite Hfind.
      match goal with
      | |- bind ?c _ = _ -> _ => destruct c as [isField| |]; simpl; try discriminate
      end.
      intros [= <-]. eexists. split; [apply in_or_app; right; now left|].
      repeat split. }
  destruct Hgood as [a [Ha [Hk [He Hh]]]].
  assert (Hfinish : forall more,
             (exists a0, In a0 (args_args (new_Args (argsList ++ more)))
                         /\ arg_key a0 = name /\ own_error_kind a0 = Some KInvalidName)
             /\ args_hasInvalidArg (new_Args (argsList ++ more)) = true).
  { intros more. split.
    - exists a. split; [simpl; apply in_or_app; now left | tauto].
    - simpl. apply existsb_exists. exists a. split; [apply in_or_app; now left | exact Hh]. }
  match goal with
  | |- (if ?c then _ else _) = _ -> _ => destruct c
  end.
  - match goal with
    | |- bind ?c _ = _ -> _ => destruct c as [more| |]; simpl; try discriminate
    end.
    intros [= <-]. apply Hfinish.
  - intros [= <-]. rewrite <- (app_nil_r argsList). apply Hfinish.
Qed.

End UnknownKeys.


(** ** Fields: flags against collected errors *)

Lemma Field_collectErrors_unfold prefix name args children error hc ha sf :
  Field_collectErrors prefix (mkField name args children error hc ha sf)
  = let from_children := match children with
                         | Some cs => collect_children prefix name cs
                         | None => mkCollected [] []
                         end in
    mkCollected
      (match error with Some e => [mkFieldError e [PStr name]] | None => [] end
       ++ fieldErrors from_children)
      (argErrors from_children
       ++ match args with
          | Some a => map (prefix_path [PStr name]) (Args_collectErrors a)
          | None => []
          end).
Proof.
  cbn [Field_collectErrors]. destruct children as [cs|]; [|reflexivity].
  f_equal; f_equal; [f_equal|]; induction cs as [|c cs IH]; try reflexivity;
    cbn [collect_children fieldErrors argErrors]; rewrite <- IH; reflexivity.
Qed.

Lemma collected_nil_iff (c : CollectedErrors) :
  c = mkCollected [] [] <-> fieldErrors c = [] /\ argErrors c = [].
Proof.
  destruct c as [fe ae]. simpl. split; [intros [= -> ->]; now split | intros [-> ->]].
  reflexivity.
Qed.

Lemma map_nil_iff {A B : Type} (f : A -> B) (l : list A) : map f l = [] <-> l = [].
Proof. destruct l; simpl; split; intros; try reflexivity; discriminate. Qed.

Lemma app_nil_iff {A : Type} (l1 l2 : list A) : l1 ++ l2 = [] <-> l1 = [] /\ l2 = [].
Proof. split; [apply app_eq_nil | intros [-> ->]; reflexivity]. Qed.

Lemma not_true_iff_nil {A : Type} (b : bool) (l : list A) :
  (b = true <-> l <> []) -> (b = false <-> l = []).
Proof.
  intros Hb. destruct b; destruct l; split; intros; try reflexivity; try discriminate.
  - exfalso. now apply (proj1 Hb).
  - assert (false = true) by (apply Hb; discriminate). discriminate.
Qed.

Lemma collect_children_unflagged prefix name (cs : list Field) :
  Forall (fun c => flagged c = false <-> Field_collectErrors prefix c = mkCollected [] []) cs ->
  (existsb flagged cs = false <-> collect_children prefix name cs = mkCollected [] []).
Proof.
  induction 1 as [|c cs Hc _ IH]; [split; reflexivity|].
  cbn [existsb collect_children]. rewrite orb_false_iff, Hc, IH.
  rewrite !collected_nil_iff. simpl. rewrite !app_nil_iff, !map_nil_iff. tauto.
Qed.

Lemma Field_flags_step name args children error hc ha sf prefix :
  match children with
  | Some cs =>
      Forall (fun c => wf_Field c ->
                       (flagged c = false
                        <-> Field_collectErrors prefix c = mkCollected [] [])) cs
  | None => True
  end ->
  let f := mkField name args children error hc ha sf in
  wf_Field f ->
  (hc = false <-> match children with
                  | Some cs => collect_children prefix name cs = mkCollected [] []
                  | None => True
                  end)
  /\ (ha = false <-> match args with
                     | Some a => Args_collectErrors a = []
                     | None => True
                     end).
Proof.
  intros IH f [Hc [Ha [Hwa Hwc]]]. subst f. split.
  - subst hc. destruct children as [cs|]; [|split; reflexivity].
    unfold computed_hasInvalidChild.
    apply (collect_children_unflagged prefix name cs).
    apply All_Forall in Hwc. clear - IH Hwc.
    induction IH as [|c cs Hcf _ IHcs]; [constructor|].
    inversion Hwc; subst. constructor; [now apply Hcf | now apply IHcs].
  - subst ha. destruct args as [a|]; [|split; reflexivity].
    apply not_true_iff_nil. now apply (proj2 wf_flags_exact).
Qed.

Lemma Field_unflagged_iff prefix (f : Field) :
  wf_Field f ->
  (flagged f = false <-> Field_collectErrors prefix f = mkCollected [] []).
Proof.
  induction f as [name args children error hc ha sf IH] using Field_tree_ind.
  intros Hwf.
  destruct (Field_flags_step name args children error hc ha sf prefix IH Hwf) as [Hc Ha].
  rewrite Field_collectErrors_unfold. unfold flagged. cbn [f_error f_hasInvalidArg
    f_hasInvalidChild]. rewrite !orb_false_iff, Hc, Ha.
  rewrite collected_nil_iff. cbn [fieldErrors argErrors].
  rewrite !app_nil_iff, map_nil_iff || rewrite !app_nil_iff.
  destruct children as [cs|]; destruct args as [a|]; destruct error as [e|]; simpl;
    rewrite ?collected_nil_iff, ?map_nil_iff; intuition (try discriminate; auto).
Qed.

Lemma Field_unflagged_clean prefix (f : Field) :
  wf_Field f ->
  ((f_hasInvalidChild f || f_hasInvalidArg f) = false <-> clean_below prefix f).
Proof.
  destruct f as [name args children error hc ha sf]. intros Hwf.
  assert (IH : match children with
               | Some cs =>
                   Forall (fun c => wf_Field c ->
                                    (flagged c = false
                                     <-> Field_collectErrors prefix c = mkCollected [] [])) cs
               | None => True
               end).
  { destruct children as [cs|]; [|exact I]. apply Forall_forall.
    intros c _ Hc. now apply Field_unflagged_iff. }
  destruct (Field_flags_step name args children error hc ha sf prefix IH Hwf) as [Hc Ha].
  unfold clean_below, own_field_error. rewrite Field_collectErrors_unfold.
  cbn [f_error f_name f_hasInvalidArg f_hasInvalidChild]. rewrite orb_false_iff, Hc, Ha.
  split.
  - intros [Hcs Hargs].
    destruct children as [cs|]; [rewrite Hcs|]; destruct args as [a|]; try rewrite Hargs;
      simpl; rewrite ?app_nil_r; reflexivity.
  - intros Heq. injection Heq as Hfe Hae.
    apply app_nil_iff in Hae. destruct Hae as [Hac Hfa].
    assert (Hfc : fieldErrors match children with
                              | Some cs => collect_children prefix name cs
                              | None => mkCollected [] []
                              end = []).
    { apply (app_inv_head (match error with
                           | Some e => [mkFieldError e [PStr name]]
                           | None => []
                           end)). now rewrite app_nil_r. }
    split.
    + destruct children as [cs|]; [|exact I]. apply collected_nil_iff. now split.
    + destruct args as [a|]; [|exact I]. now apply map_nil_iff in Hfa.
Qed.

(** X7.  For a well-formed Field the two flags say exactly whether anything
    is wrong below it: [hasInvalidChild] and [hasInvalidArg] are both false
    if and only if [collectErrors] returns no argument error and no field
    error besides the field's own. *)
Theorem Field_flags_match_collected_errors prefix (f : Field) :
  wf_Field f ->
  ((f_hasInvalidChild f || f_hasInvalidArg f) = false <-> clean_below prefix f).
Proof. exact (Field_unflagged_clean prefix f). Qed.


(** ** What the selection compiler returns *)

Lemma wf_new_Field (o : FieldArgs) :
  match fa_args o with Some a => wf_Args a | None => True end ->
  match fa_children o with Some cs => All wf_Field cs | None => True end ->
  wf_Field (new_Field o).
Proof.
  destruct o as [name sf args children error]. simpl. intros Ha Hc.
  repeat split; assumption.
Qed.

Lemma filter_nil_iff {A : Type} (f : A -> bool) (l : list A) :
  filter f l = [] <-> forall x, In x l -> f x = false.
Proof.
  induction l as [|y l IH]; simpl; [split; [intros _ x [] | reflexivity]|].
  destruct (f y) eqn:E; split.
  - discriminate.
  - intros Hall. specialize (Hall y (or_introl eq_refl)). congruence.
  - intros Hnil x [<-|Hx]; [exact E | now apply IH].
  - intros Hall. apply IH. intros x Hx. apply Hall. now right.
Qed.

Section CompilerInvariants.

Variable H : Helpers.
Variable N : NumberOps.
Variable dmmf : DMMFHelper.

Lemma wf_errorField name error : wf_Field (errorField name error).
Proof. apply wf_new_Field; simpl; exact I. Qed.

Lemma wf_containerErrorField name childName error :
  wf_Field (containerErrorField name childName error).
Proof.
  unfold containerErrorField.
  apply wf_new_Field; cbn [fa_args fa_children All]; [exact I|]. split; [|exact I].
  apply wf_new_Field; cbn [fa_args fa_children]; [|exact I]. apply wf_new_Args. exact I.
Qed.

Lemma wf_invalidIncludeFields field keys :
  All wf_Field (invalidIncludeFields H dmmf field keys).
Proof.
  unfold invalidIncludeFields. apply All_Forall, Forall_forall. intros f Hf.
  apply in_map_iff in Hf. destruct Hf as [k [<- _]]. apply wf_containerErrorField.
Qed.

Lemma wf_checkDescent name field value :
  match checkDescent H dmmf name field value with
  | StopWith pushed => All wf_Field pushed
  | GoOn pushed => All wf_Field pushed
  end.
Proof.
  assert (Hone : forall childName error,
             All wf_Field [containerErrorField name childName error]).
  { intros childName error. split; [apply wf_containerErrorField | exact I]. }
  unfold checkDescent.
  destruct (truthy value); [|exact I].
  destruct (truthy (get value "select") && truthy (get value "include")); [apply Hone|].
  destruct (truthy (get value "include")).
  - destruct (length (map fst (own_entries (get value "include"))) =? 0)%nat; [apply Hone|].
    destruct (is_relation field); [|exact I].
    pose proof (wf_invalidIncludeFields field
                  (map fst (own_entries (get value "include")))) as Hinv.
    destruct (invalidIncludeFields H dmmf field
                (map fst (own_entries (get value "include")))); [exact I | exact Hinv].
  - destruct (truthy (get value "select")); [|exact I].
    destruct (length (map snd (own_entries (get value "select"))) =? 0)%nat; [apply Hone|].
    destruct (length (filter truthy (map snd (own_entries (get value "select")))) =? 0)%nat;
      [apply Hone | exact I].
Qed.

Lemma objectToArgs_top_wf depth initialObj inputType context possibilities outputType_ args :
  objectToArgs_top H N dmmf depth initialObj inputType context possibilities outputType_
  = Normal args ->
  wf_Args args.
Proof.
  unfold objectToArgs_top. intros Ho. apply objectToArgs_wf_keys in Ho; [tauto|].
  intros key value arg ctx a Hv.
  exact (valueToArg_wf_keyed H N dmmf _ _ _ _ _ _ (objectToArgs_at_wf H N dmmf depth) Hv).
Qed.

Lemma selectionToFields_step_wf rec depth outputType_ computed context acc entry acc' :
  returns_Fields rec ->
  All wf_Field acc ->
  selectionToFields_step H N dmmf rec depth outputType_ computed context acc entry
  = Normal acc' ->
  All wf_Field acc'.
Proof.
  intros Hrec Hacc. destruct entry as [name value]. unfold selectionToFields_step.
  destruct (find (fun f => field_name f =? name) (output_fields outputType_)) as [field|].
  - destruct (FieldLocation_eqb (out_location (outputType field)) scalar
              && (length (field_args field) =? 0)%nat && negb (typeof value =? "boolean")).
    { intros [= <-]. apply All_app. split; [exact Hacc|]. split; [apply wf_errorField|exact I]. }
    destruct (is_false value); [intros [= <-]; exact Hacc|].
    match goal with
    | |- bind ?c _ = _ -> _ => destruct c as [args| |] eqn:Eargs; simpl; try discriminate
    end.
    assert (Hargs : match args with Some a => wf_Args a | None => True end).
    { destruct (typeof value =? "object"); [|injection Eargs as <-; exact I].
      match type of Eargs with
      | bind ?c _ = _ => destruct c as [a| |] eqn:Ea; simpl in Eargs; try discriminate
      end.
      injection Eargs as <-. exact (objectToArgs_top_wf _ _ _ _ _ _ _ Ea). }
    pose proof (wf_checkDescent name field value) as Hcheck.
    destruct (checkDescent H dmmf name field value) as [pushed|pushed].
    + intros [= <-]. apply All_app. now split.
    + match goal with
      | |- bind ?c _ = _ -> _ => destruct c as [children| |] eqn:Ec; simpl; try discriminate
      end.
      intros [= <-]. apply All_app. split; [exact Hacc|]. apply All_app. split; [exact Hcheck|].
      split; [|exact I]. apply wf_new_Field; simpl; [exact Hargs|].
      destruct (negb (is_false (effectiveSelect H dmmf field value)) && is_relation field);
        [|injection Ec as <-; exact I].
      match type of Ec with
      | bind ?c _ = _ => destruct c as [cs| |] eqn:Er; simpl in Ec; try discriminate
      end.
      injection Ec as <-. exact (Hrec _ _ _ _ Er).
  - destruct (existsb (String.eqb name) computed); intros [= <-]; [exact Hacc|].
    apply All_app. split; [exact Hacc|]. split; [apply wf_errorField | exact I].
Qed.

Lemma selectionToFields_at_wf (depth : nat) :
  returns_Fields (selectionToFields_at H N dmmf depth).
Proof.
  induction depth as [|depth IH]; intros selection schemaField context fields.
  - discriminate.
  - simpl. unfold selectionToFields.
    match goal with
    | |- bind ?c _ = _ -> _ => destruct c as [entries| |]; simpl; try discriminate
    end.
    apply (reduceM_invariant (All wf_Field)); [|exact I].
    intros acc x acc' _ Hacc Hstep.
    exact (selectionToFields_step_wf _ _ _ _ _ _ _ _ IH Hacc Hstep).
Qed.

Lemma makeDocument_wf (depth : nat) (input : DocumentInput) (doc : Document) :
  makeDocument H N dmmf depth input = Normal doc ->
  All wf_Field (doc_children doc).
Proof.
  unfold makeDocument.
  match goal with
  | |- bind ?c _ = _ -> _ => destruct c as [children| |] eqn:Ec; simpl; try discriminate
  end.
  intros [= <-]. simpl. exact (selectionToFields_at_wf depth _ _ _ _ Ec).
Qed.

(** X8.  Every Document [makeDocument] produces is well formed: each Field,
    Args and Arg in it carries exactly the flags its constructor computes
    from its parts. *)
Theorem makeDocument_well_formed (depth : nat) (input : DocumentInput) (doc : Document) :
  makeDocument H N dmmf depth input = Normal doc ->
  All wf_Field (doc_children doc).
Proof. exact (makeDocument_wf depth input doc). Qed.

(** X9.  For a Document [makeDocument] produced, [Document.validate] returns
    without raising if and only if nothing is wrong below any root field:
    every root field collects no argument error and no field error other
    than its own. *)
Theorem validate_returns_iff_clean_below (depth : nat) (input : DocumentInput)
  (doc : Document) (select_ : JsValue) (isTopLevelQuery : bool) (prefix : string) :
  makeDocument H N dmmf depth input = Normal doc ->
  (Document_validate doc select_ isTopLevelQuery = Normal tt
   <-> forall root, In root (doc_children doc) -> clean_below prefix root).
Proof.
  intros Hdoc. apply makeDocument_wf in Hdoc. apply All_Forall in Hdoc.
  rewrite Forall_forall in Hdoc.
  rewrite Document_validate_returns. unfold invalidChildren. rewrite filter_nil_iff.
  split; intros Hall root Hroot.
  - apply Field_unflagged_clean; [now apply Hdoc | now apply Hall].
  - apply (Field_unflagged_clean prefix); [now apply Hdoc | now apply Hall].
Qed.

End CompilerInvariants.


(** ** Arguments with one candidate type *)

Section SingleCandidate.

Variable H : Helpers.
Variable N : NumberOps.
Variable dmmf : DMMFHelper.

(** X10.  For an argument that declares a single candidate type, scoring has
    no effect: [valueToArg] returns, or fails, exactly as [tryInferArgs] does
    for that type. *)
Theorem valueToArg_single_candidate rec key value arg inputType context :
  inputTypes arg = [inputType] ->
  valueToArg H N dmmf rec key value arg context
  = tryInferArgs H dmmf rec key value arg inputType context.
Proof.
  intros Hone. unfold valueToArg. rewrite Hone. simpl.
  destruct (tryInferArgs H dmmf rec key value arg inputType context) as [[a|]| |];
    try reflexivity.
  simpl. destruct (length (Arg_collectErrors a) =? 0)%nat eqn:E; [reflexivity|].
  simpl. rewrite Arg_collectErrors_flag; [reflexivity|].
  intros Hnil. rewrite Hnil in E. discriminate.
Qed.

End SingleCandidate.


(** ** [normalizePath] in general *)

Lemma normalizePath_loop_drops (path : list PathKey) :
  forall pointer newPath result,
    normalizePath_loop path pointer newPath = Normal result ->
    exists r, result = newPath ++ r /\ drops_zeros path r.
Proof.
  induction path as [|key rest IH]; intros pointer newPath result; simpl.
  - intros [= <-]. exists []. split; [now rewrite app_nil_r | constructor].
  - destruct (negb (Array_isArray pointer) && is_zero_index key) eqn:Ez.
    + intros Hl. destruct (IH _ _ _ Hl) as [r [-> Hd]]. exists r. split; [reflexivity|].
      apply andb_true_iff in Ez. destruct Ez as [_ Ez].
      destruct key as [s|[| |]]; try discriminate. now constructor.
    + assert (Hkeep : forall p, normalizePath_loop rest p (newPath ++ [key]) = Normal result ->
                                exists r, result = newPath ++ r /\ drops_zeros (key :: rest) r).
      { intros p Hl. destruct (IH _ _ _ Hl) as [r [-> Hd]]. exists (key :: r).
        split; [now rewrite <- app_assoc | now constructor]. }
      destruct (is_select_key key).
      * destruct (nullish pointer); [discriminate|].
        destruct (negb (truthy (get pointer "select"))); apply Hkeep.
      * destruct (truthy pointer && truthy (get pointer (property_name key))); apply Hkeep.
Qed.

(** X11.  [normalizePath] never adds, renames or reorders a component: when
    it returns, its result is the input path with some components equal to
    the number [0] removed. *)
Theorem normalizePath_only_drops_zeros (path : list PathKey) (select_ : JsValue)
  (result : list PathKey) :
  normalizePath path select_ = Normal result -> drops_zeros path result.
Proof.
  unfold normalizePath. intros Hl.
  destruct (normalizePath_loop_drops _ _ _ _ Hl) as [r [-> Hd]]. exact Hd.
Qed.

Lemma array_free_assoc (props : list (string * JsValue)) (k : string) :
  (fix each (ps : list (string * JsValue)) : bool :=
     match ps with
     | [] => true
     | (_, x) :: rest => array_free x && each rest
     end) props = true ->
  array_free (match assoc k props with Some x => x | None => JUndefined end) = true.
Proof.
  induction props as [|[k' x] props IH]; [reflexivity|].
  intros Hall. apply andb_true_iff in Hall. destruct Hall as [Hx Hrest]. simpl.
  destruct (k' =? k); [exact Hx | now apply IH].
Qed.

Lemma array_free_chars (cs : list JsValue) (i : nat) (k : string) :
  Forall (fun c => array_free c = true) cs ->
  array_free (match assoc k (index_entries_from i cs) with
              | Some x => x
              | None => JUndefined
              end) = true.
Proof.
  intros Hall. revert i. induction Hall as [|c cs Hc _ IH]; intros i; [reflexivity|].
  simpl. destruct (String_of_index i =? k); [exact Hc | apply IH].
Qed.

Lemma array_free_get (v : JsValue) (k : string) :
  array_free v = true -> array_free (get v k) = true.
Proof.
  destruct v; try reflexivity; unfold get; simpl.
  - intros _. apply array_free_chars. induction s; simpl; constructor; auto.
  - discriminate.
  - apply array_free_assoc.
Qed.

(** X12.  When the caller's selection holds no array at all, [normalizePath]
    removes every component equal to the number [0] and keeps the rest. *)
Theorem normalizePath_without_arrays (path : list PathKey) (select_ : JsValue)
  (result : list PathKey) :
  array_free select_ = true ->
  normalizePath path select_ = Normal result ->
  result = filter (fun key => negb (is_zero_index key)) path.
Proof.
  unfold normalizePath. intros Hfree Hl.
  assert (Hgen : forall path pointer newPath,
             array_free pointer = true ->
             normalizePath_loop path pointer newPath = Normal result ->
             result = newPath ++ filter (fun key => negb (is_zero_index key)) path).
  { clear. induction path as [|key rest IH]; intros pointer newPath Hfree; simpl.
    - intros [= <-]. now rewrite app_nil_r.
    - assert (Harr : Array_isArray pointer = false) by (destruct pointer; auto; discriminate).
      rewrite Harr. simpl. destruct (is_zero_index key); simpl; [now apply IH|].
      assert (Hkeep : forall p, array_free p = true ->
                 normalizePath_loop rest p (newPath ++ [key]) = Normal result ->
                 result = newPath ++ key :: filter (fun k => negb (is_zero_index k)) rest).
      { intros p Hp Hl. rewrite (IH _ _ Hp Hl), <- app_assoc. reflexivity. }
      destruct (is_select_key key).
      + destruct (nullish pointer); [discriminate|].
        destruct (negb (truthy (get pointer "select"))); apply Hkeep;
          now apply array_free_get.
      + destruct (truthy pointer && truthy (get pointer (property_name key)));
          apply Hkeep; [now apply array_free_get | exact Hfree]. }
  exact (Hgen _ _ _ Hfree Hl).
Qed.

(** ** [getField] and [unpack] *)

Lemma getField_loop_name (todo : list string) :
  forall pointer f, getField_loop todo pointer = Normal f ->
                    f_name f = last todo (f_name pointer).
Proof.
  induction todo as [|key rest IH]; intros pointer f; simpl.
  - intros [= <-]. reflexivity.
  - destruct (f_children pointer) as [children|]; [|discriminate].
    destruct (find (fun c => f_name c =? key) children) as [child|] eqn:Ef; [|discriminate].
    intros Hl. rewrite (IH _ _ Hl). apply find_some in Ef. destruct Ef as [_ Ek].
    apply String.eqb_eq in Ek. rewrite Ek. symmetry. apply last_cons.
Qed.

(** X13.  [getField] throws on an empty path; when it returns a field, the
    field is named by the last element of the path. *)
Theorem getField_returns_last_name (document : Document) (path : list string) (f : Field) :
  getField document [] = Throw Error_no_field
  /\ (getField document path = Normal f -> path <> [] /\ f_name f = last path "").
Proof.
  split; [reflexivity|]. destruct path as [|first todo]; [discriminate|]. simpl.
  destruct (find (fun c => f_name c =? first) (doc_children document)) as [pointer|] eqn:Ef;
    [|discriminate].
  intros Hl. split; [discriminate|]. rewrite (getField_loop_name _ _ _ Hl).
  apply find_some in Ef. destruct Ef as [_ Ek]. apply String.eqb_eq in Ek. rewrite Ek.
  symmetry. apply last_cons.
Qed.

Lemma getField_loop_app (todo1 todo2 : list string) :
  forall pointer,
    getField_loop (todo1 ++ todo2) pointer
    = (f <- getField_loop todo1 pointer ;; getField_loop todo2 f).
Proof.
  induction todo1 as [|key rest IH]; intros pointer; simpl; [reflexivity|].
  destruct (f_children pointer) as [children|]; [|reflexivity].
  destruct (find (fun c => f_name c =? key) children) as [child|]; [apply IH | reflexivity].
Qed.

(** X14.  Looking a field up along a path composes: for a non-empty path,
    [getField] on the path extended by further names is [getField] on the
    path followed by the walk down those names from the field found. *)
Theorem getField_composes (document : Document) (path todo : list string) :
  path <> [] ->
  getField document (path ++ todo)
  = (f <- getField document path ;; getField_loop todo f).
Proof.
  destruct path as [|first rest]; [congruence|]. intros _. simpl.
  destruct (find (fun c => f_name c =? first) (doc_children document)) as [pointer|];
    [apply getField_loop_app | reflexivity].
Qed.

Lemma mapScalars_null D (field : Field) : mapScalars D field JNull = Normal JNull.
Proof. destruct field as [n a [cs|] e hc ha [sf|]]; reflexivity. Qed.

(** X15.  [unpack] consults the document only for results of type object.
    A result that is not an object is returned as it is, [undefined]
    included, except that the string ["undefined"] is turned into [null]; a
    [null] result is returned as [null] when the path names a field of the
    document, and makes [unpack] throw as [getField] does when it names
    none. *)
Theorem unpack_results D (deepGet : JsValue -> list string -> JsValue)
  (document : Document) (path : list string) (data : JsValue) :
  (deepGet data path = JString "undefined" ->
   unpack D deepGet document path data = Normal JNull)
  /\ (typeof (deepGet data path) <> "object" ->
      deepGet data path <> JString "undefined" ->
      unpack D deepGet document path data = Normal (deepGet data path))
  /\ (deepGet data path = JNull ->
      unpack D deepGet document path data
      = (_ <- getField document path ;; Normal JNull)).
Proof.
  unfold unpack. split; [|split].
  - intros ->. reflexivity.
  - intros Ht Hs. destruct (String.eqb_spec (typeof (deepGet data path)) "object") as [E|_];
      [contradiction|].
    destruct (deepGet data path) as [| | | |s| | | | | | |]; try reflexivity.
    destruct (String.eqb_spec s "undefined") as [->|Hne]; [congruence | reflexivity].
  - intros ->. simpl. destruct (getField document path) as [f| |]; simpl;
      [apply mapScalars_null | reflexivity | reflexivity].
Qed.


(** ** [mapScalars]: what changes and what does not *)

Lemma assoc_update_same {A : Type} (k : string) (v : A) (l : list (string * A)) :
  assoc k l <> None -> assoc k (update_assoc k v l) = Some v.
Proof.
  induction l as [|[k' v'] l IH]; simpl; [congruence|].
  destruct (k' =? k) eqn:E; simpl; rewrite E; [reflexivity | exact IH].
Qed.

Lemma assoc_update_other {A : Type} (k k' : string) (v : A) (l : list (string * A)) :
  k' <> k -> assoc k' (update_assoc k v l) = assoc k' l.
Proof.
  intros Hne. induction l as [|[k0 v0] l IH]; simpl; [reflexivity|].
  destruct (k0 =? k) eqn:E; simpl.
  - apply String.eqb_eq in E. subst k0.
    destruct (String.eqb_spec k k'); [congruence | reflexivity].
  - rewrite IH. reflexivity.
Qed.

Lemma map_fst_update {A : Type} (k : string) (v : A) (l : list (string * A)) :
  map fst (update_assoc k v l) = map fst l.
Proof.
  induction l as [|[k' v'] l IH]; simpl; [reflexivity|].
  destruct (k' =? k); simpl; [reflexivity | now rewrite IH].
Qed.

Lemma update_assoc_id {A : Type} (k : string) (v : A) (l : list (string * A)) :
  assoc k l = Some v -> update_assoc k v l = l.
Proof.
  induction l as [|[k' v'] l IH]; simpl; [reflexivity|].
  destruct (k' =? k); [intros [= ->]; reflexivity | intros Ha; now rewrite IH].
Qed.

Lemma map_snd_index_entries (l : list JsValue) (i : nat) :
  map snd (index_entries_from i l) = l.
Proof. revert i. induction l as [|x l IH]; intros i; simpl; [reflexivity | now rewrite IH]. Qed.

(** X16.  On an object entry [deserializeLeaf] changes the named leaf and
    nothing else: when it returns, the entry has the same keys in the same
    order, every other property reads as before, and the named property
    reads as the deserialized leaf (element by element for a list); a leaf
    that is [undefined] or [null] leaves the entry as it was. *)
Theorem deserializeLeaf_changes_only_the_leaf deserializer name props entry' :
  deserializeLeaf deserializer name (JObject props) = Normal entry' ->
  map fst (own_entries entry') = map fst props
  /\ (forall k, k <> name -> get entry' k = get (JObject props) k)
  /\ (if nullish (get (JObject props) name) then entry' = JObject props
      else deserialized deserializer (get (JObject props) name)
           = Normal (get entry' name)).
Proof.
  unfold deserializeLeaf, get_checked. cbn [nullish is_undefined is_null orb bind].
  remember (get (JObject props) name) as leaf eqn:Hleaf.
  unfold nullish. destruct (negb (is_undefined leaf) && negb (is_null leaf)) eqn:En.
  - assert (Hnn : is_undefined leaf || is_null leaf = false).
    { destruct (is_undefined leaf), (is_null leaf); simpl in *; congruence. }
    rewrite Hnn.
    assert (Hsome : assoc name props <> None).
    { unfold get in Hleaf. simpl in Hleaf. destruct (assoc name props); [discriminate|].
      subst leaf. simpl in En. discriminate. }
    assert (Hset : forall v, set_property (JObject props) name v = Normal entry' ->
               map fst (own_entries entry') = map fst props
               /\ (forall k, k <> name -> get entry' k = get (JObject props) k)
               /\ get entry' name = v).
    { intros v [= <-]. simpl. split; [apply map_fst_update|]. split.
      - intros k Hk. unfold get. simpl. now rewrite assoc_update_other.
      - unfold get. simpl. now rewrite assoc_update_same. }
    unfold deserialized. destruct leaf;
      try (destruct (deserializer _) as [leaf'| |]; simpl; try discriminate;
           intros Hs; destruct (Hset _ Hs) as [Hk [Ho Hn]]; rewrite Hn; tauto).
    destruct (mapM deserializer elements) as [l'| |]; simpl; try discriminate.
    intros Hs; destruct (Hset _ Hs) as [Hk [Ho Hn]]; rewrite Hn; tauto.
  - assert (Hnn : is_undefined leaf || is_null leaf = true).
    { destruct (is_undefined leaf), (is_null leaf); simpl in *; congruence. }
    rewrite Hnn. intros [= <-]. simpl. tauto.
Qed.

Lemma mapM_identity {A : Type} (f : A -> Completion A) (l : list A) :
  (forall x y, In x l -> f x = Normal y -> y = x) ->
  forall r, mapM f l = Normal r -> r = l.
Proof.
  induction l as [|x l IH]; intros Hf r; simpl.
  - intros [= <-]. reflexivity.
  - destruct (f x) as [y| |] eqn:E; simpl; try discriminate.
    destruct (mapM f l) as [ys| |] eqn:El; simpl; try discriminate.
    intros [= <-]. f_equal.
    + apply (Hf x); [now left | exact E].
    + apply IH; [|reflexivity]. intros a b Ha. apply Hf. now right.
Qed.

Lemma set_property_same entry name v entry' :
  get entry name = v -> v <> JUndefined ->
  set_property entry name v = Normal entry' -> entry' = entry.
Proof.
  intros Hget Hv. unfold get in Hget.
  destruct entry; simpl; try (intros [= <-]; reflexivity); try discriminate.
  - simpl in Hget. intros [= <-]. f_equal.
    rewrite update_assoc_id; [apply map_snd_index_entries|].
    destruct (assoc name (index_entries_from 0 elements)); congruence.
  - simpl in Hget. intros [= <-]. f_equal. apply update_assoc_id.
    destruct (assoc name properties); congruence.
Qed.

Section MapScalarsIdentity.

Variable D : Deserializers.

Lemma deserializers_undesignated kind :
  existsb (String.eqb kind) designatedKinds = false -> deserializers D kind = None.
Proof.
  unfold deserializers, designatedKinds. simpl.
  repeat match goal with
         | |- context [String.eqb kind ?k] => destruct (String.eqb kind k)
         end; simpl; try discriminate; reflexivity.
Qed.

Lemma descend_identity recur name entry entry' :
  (forall v v', recur v = Normal v' -> v' = v) ->
  descend recur name entry = Normal entry' -> entry' = entry.
Proof.
  intros Hr. unfold descend, get_checked. destruct (nullish entry); [discriminate|]. simpl.
  destruct (recur (get entry name)) as [nested'| |] eqn:E; simpl; try discriminate.
  apply Hr in E. subst nested'.
  destruct (truthy (get entry name) && (typeof (get entry name) =? "object")) eqn:Et.
  - apply set_property_same; [reflexivity|].
    intros Hu. rewrite Hu in Et. discriminate.
  - intros [= <-]. reflexivity.
Qed.

Lemma mapScalars_identity (field : Field) :
  no_designated_leaf field = true ->
  forall data data', mapScalars D field data = Normal data' -> data' = data.
Proof.
  induction field as [name args children error h1 h2 sf IH] using Field_tree_ind.
  intros Hno data data'. cbn [mapScalars].
  destruct children as [cs|]; [|intros [= <-]; reflexivity].
  destruct sf as [sf|]; [|intros [= <-]; reflexivity].
  destruct (negb (truthy data) || negb (typeof data =? "object")); [intros [= <-]; reflexivity|].
  cbn [no_designated_leaf] in Hno. revert data Hno.
  induction IH as [|child cs Hchild _ IHcs]; intros data Hno; [intros [= <-]; reflexivity|].
  apply andb_true_iff in Hno. destruct Hno as [Hno Hrest].
  apply andb_true_iff in Hno. destruct Hno as [Hkind Hsub].
  assert (Hd : deserializeChild D child data = Normal data).
  { unfold deserializeChild. destruct (scalarKind child) as [kind|]; [|reflexivity].
    rewrite deserializers_undesignated; [reflexivity|].
    now apply negb_true_iff in Hkind. }
  rewrite Hd. cbn [bind].
  match goal with
  | |- bind ?c _ = _ -> _ => destruct c as [data2| |] eqn:E2; cbn [bind]; try discriminate
  end.
  assert (H2 : data2 = data).
  { destruct (is_relation_child child); [|now injection E2 as <-].
    assert (Hrec : forall v v', mapScalars D child v = Normal v' -> v' = v).
    { intros v v'. now apply Hchild. }
    destruct data; try (now apply (descend_identity _ _ _ _ Hrec E2)).
    destruct (mapM (descend (mapScalars D child) (f_name child)) elements) as [es| |] eqn:Em;
      simpl in E2; try discriminate.
    injection E2 as <-. f_equal.
    apply (mapM_identity _ _) with (r := es) in Em; [exact Em|].
    intros x y _. now apply descend_identity. }
  subst data2. now apply IHcs.
Qed.

(** X17.  When no field of the tree has one of the designated kinds,
    [mapScalars] changes nothing: if it returns, it returns the payload it
    was given. *)
Theorem mapScalars_without_designated_kinds (field : Field) :
  no_designated_leaf field = true ->
  forall data data', mapScalars D field data = Normal data' -> data' = data.
Proof. exact (mapScalars_identity field). Qed.

End MapScalarsIdentity.

(** ** [getDefaultSelection] *)

Lemma assoc_uniqBy {A : Type} (k : string) (l : list (string * A)) (seen : list string) :
  existsb (String.eqb k) seen = false ->
  assoc k (uniqBy fst l seen) = assoc k l.
Proof.
  revert seen. induction l as [|[k' v] l IH]; intros seen Hseen; simpl; [reflexivity|].
  destruct (existsb (String.eqb k') seen) eqn:Ek'.
  - destruct (String.eqb_spec k' k) as [->|Hne]; [congruence|]. now apply IH.
  - simpl. destruct (String.eqb_spec k' k) as [->|Hne]; [reflexivity|].
    apply IH. simpl. rewrite Hseen.
    destruct (String.eqb_spec k k'); [congruence | reflexivity].
Qed.

(** X18.  The default selection of an output type selects, with [true],
    exactly the fields that are scalars, enums or known to the type map: a
    name reads as [true] if a field of that name is one of these, and as
    [undefined] otherwise. *)
Theorem getDefaultSelection_selects (dmmf : DMMFHelper) (outputType_ : OutputType)
  (name : string) :
  get (getDefaultSelection dmmf outputType_) name
  = if existsb (fun f => (field_name f =? name) && selected_by_default dmmf f)
         (output_fields outputType_)
    then JBool true else JUndefined.
Proof.
  unfold getDefaultSelection, get. simpl. rewrite assoc_uniqBy by reflexivity.
  fold (selected_by_default dmmf).
  induction (output_fields outputType_) as [|f fs IH]; simpl; [reflexivity|].
  change (in_typeMap dmmf f
          || FieldLocation_eqb (out_location (outputType f)) scalar
          || FieldLocation_eqb (out_location (outputType f)) enumTypes)
    with (selected_by_default dmmf f).
  destruct (selected_by_default dmmf f) eqn:Es; simpl.
  - destruct (field_name f =? name); simpl; [reflexivity | exact IH].
  - rewrite andb_false_r. simpl. exact IH.
Qed.


(** ** [removeSelectFromPath] *)

Lemma split_dot_not_nil (s : string) : split_dot s <> [].
Proof.
  induction s as [|c s IH]; simpl; [discriminate|].
  destruct (Ascii.eqb c "."); [discriminate|]. destruct (split_dot s); discriminate.
Qed.

Lemma split_dot_dot_free (s : string) : Forall (fun p => dot_free p = true) (split_dot s).
Proof.
  induction s as [|c s IH]; simpl; [repeat constructor|].
  destruct (Ascii.eqb c ".") eqn:E; [constructor; [reflexivity | exact IH]|].
  destruct (split_dot s) as [|p ps]; [repeat constructor; simpl; now rewrite E|].
  inversion IH; subst. constructor; [simpl; rewrite E; assumption | assumption].
Qed.

Lemma concat_cons (x y : string) (l : list string) :
  String.concat "." (x :: y :: l) = (x ++ "." ++ String.concat "." (y :: l))%string.
Proof. reflexivity. Qed.

Lemma concat_split_dot (s : string) : String.concat "." (split_dot s) = s.
Proof.
  induction s as [|c s IH]; [reflexivity|]. simpl.
  destruct (Ascii.eqb_spec c ".") as [->|Hne].
  - pose proof (split_dot_not_nil s) as Hn. destruct (split_dot s) as [|p ps]; [congruence|].
    rewrite concat_cons, IH. reflexivity.
  - pose proof (split_dot_not_nil s) as Hn. destruct (split_dot s) as [|p ps]; [congruence|].
    rewrite <- IH. destruct ps as [|q qs]; reflexivity.
Qed.

Lemma split_dot_single (x : string) : dot_free x = true -> split_dot x = [x].
Proof.
  induction x as [|c x IH]; [reflexivity|]. simpl. intros Hx.
  apply andb_true_iff in Hx. destruct Hx as [Hc Hx]. apply negb_true_iff in Hc.
  rewrite Hc, (IH Hx). reflexivity.
Qed.

Lemma split_dot_app (x rest : string) :
  dot_free x = true -> split_dot (x ++ "." ++ rest) = x :: split_dot rest.
Proof.
  induction x as [|c x IH]; [reflexivity|]. simpl. intros Hx.
  apply andb_true_iff in Hx. destruct Hx as [Hc Hx]. apply negb_true_iff in Hc.
  rewrite Hc. simpl in IH. rewrite (IH Hx). reflexivity.
Qed.

Lemma split_dot_concat (l : list string) :
  l <> [] -> Forall (fun p => dot_free p = true) l -> split_dot (String.concat "." l) = l.
Proof.
  induction l as [|x l IH]; [congruence|]. intros _ Hl. inversion Hl as [|x' l' Hx Hrest]; subst.
  destruct l as [|y l]; [now apply split_dot_single|].
  rewrite concat_cons, split_dot_app by exact Hx. f_equal. apply IH; [discriminate | exact Hrest].
Qed.

Lemma filter_idempotent {A : Type} (f : A -> bool) (l : list A) :
  filter f (filter f l) = filter f l.
Proof.
  induction l as [|x l IH]; simpl; [reflexivity|].
  destruct (f x) eqn:E; simpl; [rewrite E; now f_equal | exact IH].
Qed.

(** X19.  [removeSelectFromPath] is idempotent, its result has no [select]
    segment, and a path without a [select] segment is returned as it is. *)
Theorem removeSelectFromPath_idempotent (path : string) :
  removeSelectFromPath (removeSelectFromPath path) = removeSelectFromPath path
  /\ ~ In "select" (split_dot (removeSelectFromPath path))
  /\ (~ In "select" (split_dot path) -> removeSelectFromPath path = path).
Proof.
  unfold removeSelectFromPath.
  set (keep := fun p => negb (p =? "select")).
  assert (Hsplit : split_dot (String.concat "." (filter keep (split_dot path)))
                   = match filter keep (split_dot path) with
                     | [] => [""]
                     | l => l
                     end).
  { destruct (filter keep (split_dot path)) as [|x l] eqn:E; [reflexivity|].
    apply split_dot_concat; [discriminate|].
    rewrite <- E. apply Forall_forall. intros p Hp. apply filter_In in Hp.
    pose proof (split_dot_dot_free path) as Hf. rewrite Forall_forall in Hf. now apply Hf. }
  split; [|split].
  - rewrite Hsplit. destruct (filter keep (split_dot path)) as [|x l] eqn:E; [reflexivity|].
    rewrite <- E, filter_idempotent. reflexivity.
  - rewrite Hsplit. destruct (filter keep (split_dot path)) as [|x l] eqn:E.
    + intros [Hs|[]]. discriminate.
    + rewrite <- E. intros Hin. apply filter_In in Hin. destruct Hin as [_ Hk].
      discriminate.
  - intros Hno. rewrite <- (concat_split_dot path) at 2. f_equal.
    apply forallb_filter_id. apply forallb_forall. intros p Hp. unfold keep.
    destruct (String.eqb_spec p "select") as [->|_]; [contradiction | reflexivity].
Qed.

(** ** Where collected paths start *)

Lemma collect_children_paths prefix name (cs : list Field) :
  (forall e, In e (fieldErrors (collect_children prefix name cs)) ->
             exists rest, fe_path e = PStr name :: PStr prefix :: rest)
  /\ (forall e, In e (argErrors (collect_children prefix name cs)) ->
                exists rest, ae_path e = PStr name :: PStr prefix :: rest).
Proof.
  induction cs as [|c cs [IHf IHa]]; simpl; [split; intros e []|].
  split; intros e He; apply in_app_or in He; destruct He as [He|He];
    try (now apply IHf); try (now apply IHa);
    apply in_map_iff in He; destruct He as [e0 [<- _]]; simpl; eexists; reflexivity.
Qed.

(** X20.  Every error [Field.collectErrors] returns has a path that starts
    with the name of the field it was called on; this is the component
    [Document.validate] removes with [slice(1)].  Likewise every error
    [Arg.collectErrors] returns has a path that starts with the Arg's key. *)
Theorem collected_paths_start_with_the_name :
  (forall prefix f e,
      In e (fieldErrors (Field_collectErrors prefix f)) ->
      exists rest, fe_path e = PStr (f_name f) :: rest)
  /\ (forall prefix f e,
        In e (argErrors (Field_collectErrors prefix f)) ->
        exists rest, ae_path e = PStr (f_name f) :: rest)
  /\ (forall a e,
        In e (Arg_collectErrors a) -> exists rest, ae_path e = PStr (arg_key a) :: rest).
Proof.
  split; [|split].
  - intros prefix [name args children error hc ha sf] e.
    rewrite Field_collectErrors_unfold. cbn [fieldErrors f_name]. intros He.
    apply in_app_or in He. destruct He as [He|He].
    + destruct error; [|contradiction]. destruct He as [<-|[]]. eexists. reflexivity.
    + destruct children as [cs|]; [|contradiction].
      destruct (proj1 (collect_children_paths prefix name cs) e He) as [rest ->].
      eexists. reflexivity.
  - intros prefix [name args children error hc ha sf] e.
    rewrite Field_collectErrors_unfold. cbn [argErrors f_name]. intros He.
    apply in_app_or in He. destruct He as [He|He].
    + destruct children as [cs|]; [|contradiction].
      destruct (proj2 (collect_children_paths prefix name cs) e He) as [rest ->].
      eexists. reflexivity.
    + destruct args as [a|]; [|contradiction].
      apply in_map_iff in He. destruct He as [e0 [<- _]]. eexists. reflexivity.
  - intros [key value error hasError isEnum_ schemaArg isNullable_ inputType] e.
    cbn [Arg_collectErrors arg_key]. destruct (negb hasError); [contradiction|].
    assert (Hown : forall x, In x match error with
                                  | Some e0 => [mkArgError e0 [PStr key] (error_id inputType)]
                                  | None => []
                                  end ->
                             exists rest, ae_path x = PStr key :: rest).
    { intros x Hx. destruct error; [|contradiction]. destruct Hx as [<-|[]].
      eexists. reflexivity. }
    destruct value as [v|a|l].
    + apply Hown.
    + intros He. apply in_app_or in He. destruct He as [He|He]; [now apply Hown|].
      apply in_map_iff in He. destruct He as [e0 [<- _]]. eexists. reflexivity.
    + intros He. apply in_app_or in He. destruct He as [He|He]; [now apply Hown|].
      revert He. generalize 0%nat. induction l as [|el l IH]; intros index He; [contradiction|].
      apply in_app_or in He. destruct He as [He|He]; [|exact (IH _ He)].
      destruct el as [v|a|a]; [contradiction| |];
        apply in_map_iff in He; destruct He as [e0 [<- _]]; eexists; reflexivity.
Qed.


(** ** [isDecimalString] and the language of its pattern *)

Ltac ascii_cases c :=
  destruct c as [[] [] [] [] [] [] [] []]; try reflexivity.

Lemma isDecimalString_eq (value : string) :
  isDecimalString value
  = match match_mantissa (strip_char (fun c => Ascii.eqb c "-") value) with
    | Some rest => match_exponent_end rest
    | None => false
    end.
Proof. destruct value as [|c t]; [reflexivity|]. ascii_cases c. Qed.

Lemma match_mantissa_eq (s : string) :
  match_mantissa s
  = match fst (span_digits s), snd (span_digits s) with
    | S _, String c r' =>
        if Ascii.eqb c "." then Some (snd (span_digits r')) else Some (String c r')
    | S _, EmptyString => Some EmptyString
    | O, String c r' =>
        if Ascii.eqb c "." then
          match fst (span_digits r') with
          | S _ => Some (snd (span_digits r'))
          | O => None
          end
        else None
    | O, EmptyString => None
    end.
Proof.
  unfold match_mantissa. destruct (span_digits s) as [n r]. cbn [fst snd].
  destruct n; (destruct r as [|c r']; [reflexivity|]).
  - destruct (Ascii.eqb_spec c ".") as [->|Hne].
    + destruct (span_digits r') as [m r'']. reflexivity.
    + revert Hne. ascii_cases c. congruence.
  - destruct (Ascii.eqb_spec c ".") as [->|Hne]; [reflexivity|].
    revert Hne. ascii_cases c. congruence.
Qed.

Lemma match_exponent_end_eq (s : string) :
  match_exponent_end s
  = match s with
    | EmptyString => true
    | String c r =>
        if (Ascii.eqb c "e" || Ascii.eqb c "E")%char then
          let r' := strip_char (fun c => Ascii.eqb c "+" || Ascii.eqb c "-")%char r in
          match fst (span_digits r'), snd (span_digits r') with
          | S _, EmptyString => true
          | _, _ => false
          end
        else false
    end.
Proof.
  destruct s as [|c r]; [reflexivity|]. cbn [match_exponent_end].
  destruct (Ascii.eqb c "e" || Ascii.eqb c "E")%char; [|reflexivity].
  assert (Hstrip : match r with
                   | String "+"%char t => t
                   | String "-"%char t => t
                   | _ => r
                   end = strip_char (fun c => Ascii.eqb c "+" || Ascii.eqb c "-")%char r).
  { destruct r as [|c' t]; [reflexivity|]. ascii_cases c'. }
  cbv zeta. rewrite Hstrip. destruct (span_digits _) as [n rest]. reflexivity.
Qed.

Lemma string_app_assoc (a b c : string) : ((a ++ b) ++ c = a ++ (b ++ c))%string.
Proof. induction a as [|x a IH]; simpl; [reflexivity | now rewrite IH]. Qed.

Lemma string_app_nil_r (a : string) : (a ++ "")%string = a.
Proof. induction a as [|x a IH]; simpl; [reflexivity | now rewrite IH]. Qed.

Lemma span_digits_spec (s : string) :
  exists d, s = (d ++ snd (span_digits s))%string
            /\ all_digits d = true
            /\ String.length d = fst (span_digits s)
            /\ starts_nondigit (snd (span_digits s)).
Proof.
  induction s as [|c s IH]; simpl.
  - exists EmptyString. repeat split.
  - destruct (is_digit c) eqn:E.
    + destruct IH as [d (H1 & H2 & H3 & H4)].
      destruct (span_digits s) as [n r]. simpl in *.
      exists (String c d). simpl. rewrite E, H2. repeat split; congruence.
    + exists EmptyString. simpl. repeat split. exact E.
Qed.

Lemma span_digits_app (d r : string) :
  all_digits d = true -> starts_nondigit r ->
  span_digits (d ++ r) = (String.length d, r).
Proof.
  induction d as [|c d IH]; simpl; intros Hd Hr.
  - destruct r as [|c r]; [reflexivity|]. simpl in *. now rewrite Hr.
  - apply andb_true_iff in Hd. destruct Hd as [Hc Hd]. now rewrite Hc, (IH Hd Hr).
Qed.

Lemma digits1_length (d : string) : digits1 d -> exists n, String.length d = S n.
Proof. intros [_ Hne]. destruct d; [congruence|]. simpl. eauto. Qed.

Lemma length_digits1 (d : string) n :
  all_digits d = true -> String.length d = S n -> digits1 d.
Proof. intros Hd Hl. split; [exact Hd|]. intros ->. discriminate. Qed.

Lemma match_mantissa_sound (s rest : string) :
  match_mantissa s = Some rest -> exists m, is_mantissa m /\ s = (m ++ rest)%string.
Proof.
  rewrite match_mantissa_eq.
  destruct (span_digits_spec s) as [d (H1 & H2 & H3 & _)].
  destruct (span_digits s) as [n r]. cbn [fst snd] in *.
  destruct n as [|n].
  - destruct d; [|discriminate]. simpl in H1. subst s.
    destruct r as [|c r']; [discriminate|].
    destruct (Ascii.eqb_spec c ".") as [->|_]; [|discriminate].
    destruct (span_digits_spec r') as [d2 (K1 & K2 & K3 & _)].
    destruct (span_digits r') as [m r'']. cbn [fst snd] in *.
    destruct m as [|m]; [discriminate|]. intros [= <-].
    exists ("." ++ d2)%string. split.
    + apply mantissa_frac. eapply length_digits1; eassumption.
    + simpl. now rewrite <- K1.
  - pose proof (length_digits1 d n H2 H3) as Hd.
    destruct r as [|c r'].
    + intros [= <-]. exists d. split; [now apply mantissa_int | exact H1].
    + destruct (Ascii.eqb_spec c ".") as [->|_].
      * destruct (span_digits_spec r') as [d2 (K1 & K2 & _ & _)].
        intros [= <-]. exists (d ++ "." ++ d2)%string. split.
        -- now apply mantissa_int_frac.
        -- rewrite string_app_assoc. simpl. now rewrite <- K1.
      * intros [= <-]. exists d. split; [now apply mantissa_int | exact H1].
Qed.

Lemma match_exponent_end_sound (e : string) :
  match_exponent_end e = true -> is_exponent e.
Proof.
  rewrite match_exponent_end_eq. destruct e as [|c r]; [constructor|].
  destruct (Ascii.eqb c "e" || Ascii.eqb c "E")%char eqn:Ec; [|discriminate].
  cbv zeta. set (r' := strip_char _ r).
  assert (Hsg : exists sg, r = (sg ++ r')%string
                           /\ (sg = EmptyString \/ sg = "+"%string \/ sg = "-"%string)).
  { subst r'. destruct r as [|c' t]; [exists EmptyString; auto|]. simpl.
    destruct (Ascii.eqb_spec c' "+") as [->|_]; [exists "+"%string; auto|].
    destruct (Ascii.eqb_spec c' "-") as [->|_]; [exists "-"%string; auto|].
    exists EmptyString. auto. }
  clearbody r'. destruct Hsg as [sg [-> Hsg]].
  destruct (span_digits_spec r') as [d (H1 & H2 & H3 & _)].
  destruct (span_digits r') as [n rest]. cbn [fst snd] in *.
  destruct n as [|n]; [discriminate|]. destruct rest; [|discriminate]. intros _.
  rewrite string_app_nil_r in H1. subst d.
  apply exponent_some; [|exact Hsg | eapply length_digits1; eassumption].
  apply orb_true_iff in Ec. destruct Ec as [Ec|Ec]; apply Ascii.eqb_eq in Ec; auto.
Qed.

Lemma match_mantissa_complete (m e : string) :
  is_mantissa m -> exponent_start e -> match_mantissa (m ++ e) = Some e.
Proof.
  intros Hm He. rewrite match_mantissa_eq.
  assert (Hnd : starts_nondigit e) by (destruct e; [exact I | exact (proj1 He)]).
  destruct Hm as [i Hi | i f Hi Hf | f Hf].
  - rewrite span_digits_app by (apply Hi || exact Hnd). cbn [fst snd].
    destruct (digits1_length i Hi) as [n ->].
    destruct e as [|c r]; [reflexivity|]. destruct He as [_ Hne].
    destruct (Ascii.eqb_spec c "."); [contradiction | reflexivity].
  - rewrite string_app_assoc. change ("." ++ f)%string with (String "." f).
    change (String "." f ++ e)%string with (String "." (f ++ e)).
    rewrite span_digits_app by (apply Hi || reflexivity). cbn [fst snd].
    destruct (digits1_length i Hi) as [n ->].
    rewrite Ascii.eqb_refl, span_digits_app by assumption. reflexivity.
  - change (("." ++ f) ++ e)%string with (String "." (f ++ e)).
    change (span_digits (String "." (f ++ e))) with (O, String "." (f ++ e)).
    cbn [fst snd]. rewrite Ascii.eqb_refl, span_digits_app by (apply Hf || exact Hnd).
    cbn [fst snd]. destruct (digits1_length f Hf) as [n ->]. reflexivity.
Qed.

Lemma digit_is_no_sign (c : ascii) :
  is_digit c = true -> (Ascii.eqb c "+" || Ascii.eqb c "-")%char = false.
Proof.
  intros Hc. destruct (Ascii.eqb_spec c "+") as [->|_]; [discriminate|].
  destruct (Ascii.eqb_spec c "-") as [->|_]; [discriminate | reflexivity].
Qed.

Lemma strip_sign_digits (sg d : string) :
  sg = EmptyString \/ sg = "+"%string \/ sg = "-"%string -> digits1 d ->
  strip_char (fun c => Ascii.eqb c "+" || Ascii.eqb c "-")%char (sg ++ d) = d.
Proof.
  intros [->|[->| ->]] [Hd Hne]; [|reflexivity|reflexivity].
  destruct d as [|c d]; [congruence|]. simpl in *.
  apply andb_true_iff in Hd. now rewrite (digit_is_no_sign c (proj1 Hd)).
Qed.

Lemma match_exponent_end_complete (e : string) :
  is_exponent e -> match_exponent_end e = true.
Proof.
  intros He. rewrite match_exponent_end_eq. destruct He as [|c sg d Hc Hsg Hd]; [reflexivity|].
  assert (Ec : (Ascii.eqb c "e" || Ascii.eqb c "E")%char = true)
    by (destruct Hc as [-> | ->]; reflexivity).
  rewrite Ec. cbv zeta. rewrite strip_sign_digits by assumption.
  rewrite <- (string_app_nil_r d), span_digits_app by (apply Hd || exact I).
  cbn [fst snd]. destruct (digits1_length d Hd) as [n ->].
  reflexivity.
Qed.

Lemma mantissa_head (m : string) :
  is_mantissa m -> exists c r, m = String c r /\ (is_digit c = true \/ c = "."%char).
Proof.
  assert (Hd : forall i, digits1 i -> exists c r, i = String c r /\ is_digit c = true).
  { intros i [Hi Hne]. destruct i as [|c r]; [congruence|]. simpl in Hi.
    apply andb_true_iff in Hi. exists c, r. tauto. }
  intros [i Hi | i f Hi _ | f _].
  - destruct (Hd i Hi) as [c [r [-> Hc]]]. eauto.
  - destruct (Hd i Hi) as [c [r [-> Hc]]]. simpl. eauto.
  - simpl. eauto.
Qed.

(** X21.  [isDecimalString] accepts exactly the strings of the pattern's
    language: an optional minus sign; digits optionally followed by a dot and
    more digits, or a dot followed by digits; and optionally [e] or [E], an
    optional sign and digits. *)
Theorem isDecimalString_accepts_the_pattern (value : string) :
  isDecimalString value = true <-> is_decimal value.
Proof.
  rewrite isDecimalString_eq. split.
  - intros Hv.
    set (s := strip_char _ value) in Hv.
    assert (Hsg : exists sg, value = (sg ++ s)%string
                             /\ (sg = EmptyString \/ sg = "-"%string)).
    { subst s. destruct value as [|c t]; [exists EmptyString; auto|]. simpl.
      destruct (Ascii.eqb_spec c "-") as [->|_]; [exists "-"%string; auto|].
      exists EmptyString. auto. }
    clearbody s. destruct Hsg as [sg [-> Hsg]].
    destruct (match_mantissa s) as [rest|] eqn:Em; [|discriminate].
    destruct (match_mantissa_sound s rest Em) as [m [Hm ->]].
    constructor; [exact Hsg | exact Hm | now apply match_exponent_end_sound].
  - intros [sg m e Hsg Hm He].
    assert (Hstrip : strip_char (fun c => Ascii.eqb c "-") (sg ++ m ++ e) = (m ++ e)%string).
    { destruct Hsg as [-> | ->]; [|reflexivity].
      destruct (mantissa_head m Hm) as [c [r [-> Hc]]]. simpl.
      destruct (Ascii.eqb_spec c "-") as [->|_]; [|reflexivity].
      destruct Hc; discriminate. }
    rewrite Hstrip, match_mantissa_complete.
    + now apply match_exponent_end_complete.
    + exact Hm.
    + destruct He as [|c sg' d [-> | ->] _ _]; simpl; [exact I| |]; split;
        (reflexivity || discriminate).
Qed.


(** ** The argument compiler at growing depth *)

Lemma below_refl {A : Type} (c : Completion A) : below c c.
Proof. right. reflexivity. Qed.

Lemma below_trans {A : Type} (a b c : Completion A) : below a b -> below b c -> below a c.
Proof.
  intros [->| ->] Hbc; [left; reflexivity | exact Hbc].
Qed.

Lemma below_bind {A B : Type} (c c' : Completion A) (k k' : A -> Completion B) :
  below c c' -> (forall x, below (k x) (k' x)) -> below (bind c k) (bind c' k').
Proof.
  intros [->| ->] Hk; [left; reflexivity|].
  destruct c; simpl; [apply Hk | right; reflexivity | left; reflexivity].
Qed.

Lemma below_reduceM {A B : Type} (step step' : B -> A -> Completion B) (l : list A) :
  (forall acc x, below (step acc x) (step' acc x)) ->
  forall acc, below (reduceM step l acc) (reduceM step' l acc).
Proof.
  intros Hs. induction l as [|x l IH]; intros acc; simpl; [apply below_refl|].
  apply below_bind; [apply Hs | exact IH].
Qed.

Ltac below_auto :=
  repeat first
    [ apply below_refl
    | assumption
    | apply below_bind; [|intros ?]
    | match goal with
      | |- below (if ?b then _ else _) (if ?b then _ else _) => destruct b
      | |- below (match ?x with _ => _ end) (match ?x with _ => _ end) => destruct x
      end ].

Section DepthArgs.

Variable H : Helpers.
Variable N : NumberOps.
Variable dmmf : DMMFHelper.

Section OneLevelBelow.

Variables rec rec' : ObjectToArgs.
Hypothesis Hrec : below_ObjectToArgs rec rec'.

Lemma tryNestedInputTypes_below key value arg context candidates :
  below (tryNestedInputTypes rec key value arg context candidates)
        (tryNestedInputTypes rec' key value arg context candidates).
Proof.
  induction candidates as [|c cs IH]; simpl; [apply below_refl|].
  apply below_bind; [apply Hrec|]. intros args. below_auto.
Qed.

Lemma compileElements_below arg inputType context i elements :
  below (compileElements rec arg inputType context i elements)
        (compileElements rec' arg inputType context i elements).
Proof.
  revert i. induction elements as [|v vs IH]; intros i; simpl; [apply below_refl|].
  apply below_bind.
  - below_auto. apply Hrec.
  - intros el. apply below_bind; [apply IH | intros; apply below_refl].
Qed.

Lemma inferListArg_below key value arg inputType context :
  below (inferListArg H dmmf rec key value arg inputType context)
        (inferListArg H dmmf rec' key value arg inputType context).
Proof.
  unfold inferListArg.
  destruct (is_enumTypes inputType || FieldLocation_eqb (location inputType) scalar);
    [apply below_refl|].
  cbv zeta.
  destruct value;
    try (apply below_bind; [apply tryNestedInputTypes_below | intros; apply below_refl]).
  apply below_bind; [apply compileElements_below | intros; apply below_refl].
Qed.

Lemma inferSingleArg_below key value arg inputType context :
  below (inferSingleArg H dmmf rec key value arg inputType context)
        (inferSingleArg H dmmf rec' key value arg inputType context).
Proof.
  unfold inferSingleArg. destruct (type inputType); try apply below_refl.
  match goal with |- below (if ?b then _ else _) _ => destruct b end; [apply below_refl|].
  cbv zeta. apply below_bind; [|intros; apply below_refl].
  destruct (is_null (cleanObject value)); [apply below_refl|].
  apply below_bind; [apply Hrec | intros; apply below_refl].
Qed.

Lemma tryInferArgs_below key value arg inputType context :
  below (tryInferArgs H dmmf rec key value arg inputType context)
        (tryInferArgs H dmmf rec' key value arg inputType context).
Proof.
  unfold tryInferArgs.
  repeat match goal with
         | |- below (if ?b then _ else _) _ => destruct b; try apply below_refl
         end.
  - apply inferSingleArg_below.
  - apply inferListArg_below.
Qed.

Lemma valueToArg_loop_below key value arg context candidates acc maybeArg :
  below (valueToArg_loop H dmmf rec key value arg context candidates acc maybeArg)
        (valueToArg_loop H dmmf rec' key value arg context candidates acc maybeArg).
Proof.
  revert acc maybeArg. induction candidates as [|c cs IH]; intros acc maybeArg; simpl;
    [apply below_refl|].
  apply below_bind; [apply tryInferArgs_below|]. intros [a|]; [|apply IH].
  destruct (length (Arg_collectErrors a) =? 0)%nat; [apply below_refl | apply IH].
Qed.

Lemma valueToArg_below : below_ValueToArg (valueToArg H N dmmf rec) (valueToArg H N dmmf rec').
Proof.
  intros key value arg context. unfold valueToArg.
  apply below_bind; [apply valueToArg_loop_below | intros; apply below_refl].
Qed.

End OneLevelBelow.

Lemma objectToArgs_below (vrec vrec' : ValueToArg) :
  below_ValueToArg vrec vrec' ->
  forall initialObj inputType context possibilities outputType_,
    below (objectToArgs H vrec initialObj inputType context possibilities outputType_)
          (objectToArgs H vrec' initialObj inputType context possibilities outputType_).
Proof.
  intros Hv initialObj inputType context possibilities outputType_. unfold objectToArgs.
  cbv zeta. apply below_bind; [|intros; apply below_refl].
  apply below_reduceM. intros acc [argName value]. unfold objectToArgs_step.
  destruct (find _ _); [|apply below_refl].
  apply below_bind; [apply Hv | intros; apply below_refl].
Qed.

Lemma objectToArgs_at_step (depth : nat) :
  below_ObjectToArgs (objectToArgs_at H N dmmf depth) (objectToArgs_at H N dmmf (S depth)).
Proof.
  induction depth as [|depth IH]; intros v t context possibilities outputType_.
  - left. reflexivity.
  - change (below
              match t with
              | ATInput name =>
                  objectToArgs H (valueToArg H N dmmf (objectToArgs_at H N dmmf depth)) v
                    (resolveInput dmmf name) context possibilities outputType_
              | _ => Throw "TypeError: Cannot read properties of undefined (reading 'map')"
              end
              match t with
              | ATInput name =>
                  objectToArgs H (valueToArg H N dmmf (objectToArgs_at H N dmmf (S depth))) v
                    (resolveInput dmmf name) context possibilities outputType_
              | _ => Throw "TypeError: Cannot read properties of undefined (reading 'map')"
              end).
    destruct t; try apply below_refl.
    apply objectToArgs_below. apply valueToArg_below. exact IH.
Qed.

Lemma objectToArgs_at_below (depth depth' : nat) :
  (depth <= depth')%nat ->
  below_ObjectToArgs (objectToArgs_at H N dmmf depth) (objectToArgs_at H N dmmf depth').
Proof.
  induction 1 as [|depth' _ IH]; intros v t context possibilities outputType_;
    [apply below_refl|].
  eapply below_trans; [apply IH | apply objectToArgs_at_step].
Qed.

End DepthArgs.

(** ** Termination of the argument compiler *)


Lemma finishes_bind {A B : Type} (c : Completion A) (k : A -> Completion B) :
  finishes c -> (forall x, finishes (k x)) -> finishes (bind c k).
Proof.
  unfold finishes. intros Hc Hk. destruct c; simpl; [apply Hk | discriminate | congruence].
Qed.

Lemma finishes_Normal {A : Type} (x : A) : finishes (Normal x).
Proof. discriminate. Qed.

Lemma finishes_Throw {A : Type} (e : string) : finishes (@Throw A e).
Proof. discriminate. Qed.

Lemma finishes_reduceM {A B : Type} (step : B -> A -> Completion B) (l : list A) :
  (forall acc x, In x l -> finishes (step acc x)) ->
  forall acc, finishes (reduceM step l acc).
Proof.
  induction l as [|x l IH]; intros Hs acc; simpl; [apply finishes_Normal|].
  apply finishes_bind; [apply Hs; now left|].
  intros acc'. apply IH. intros a y Hy. apply Hs. now right.
Qed.

Lemma finishes_mapM {A B : Type} (f : A -> Completion B) (l : list A) :
  (forall x, finishes (f x)) -> finishes (mapM f l).
Proof.
  intros Hf. induction l as [|x l IH]; simpl; [apply finishes_Normal|].
  apply finishes_bind; [apply Hf|]. intros y.
  apply finishes_bind; [exact IH | intros; apply finishes_Normal].
Qed.

Lemma list_max_In (l : list nat) (n : nat) : In n l -> (n <= list_max l)%nat.
Proof.
  intros Hin. pose proof (proj1 (list_max_le l (list_max l)) (le_n _)) as Hall.
  rewrite Forall_forall in Hall. now apply Hall.
Qed.

Lemma height_element (l : list JsValue) (x : JsValue) :
  In x l -> (height x < height (JArray l))%nat.
Proof.
  intros Hin. cbn [height]. apply Nat.lt_succ_r. apply list_max_In. now apply in_map.
Qed.

Lemma height_property (props : list (string * JsValue)) (k : string) (x : JsValue) :
  In (k, x) props -> (height x < height (JObject props))%nat.
Proof.
  intros Hin. cbn [height]. apply Nat.lt_succ_r. apply list_max_In.
  apply in_map_iff. exists (k, x). split; [reflexivity | exact Hin].
Qed.

Lemma index_entries_values (l : list JsValue) (i : nat) (k : string) (x : JsValue) :
  In (k, x) (index_entries_from i l) -> In x l /\ exists j, k = String_of_index j.
Proof.
  revert i. induction l as [|y l IH]; intros i; simpl; [contradiction|].
  intros [[= <- <-]|Hin]; [split; [now left | now exists i]|].
  destruct (IH _ Hin) as [Hx Hk]. split; [now right | exact Hk].
Qed.

Lemma digit_of_is_digit (k : nat) : (k < 10)%nat -> is_digit (digit_of k) = true.
Proof. intros Hk. do 10 (destruct k as [|k]; [reflexivity|]). lia. Qed.

Lemma string_of_nat_aux_digits (fuel n : nat) (acc : string) :
  all_digits acc = true -> all_digits (string_of_nat_aux fuel n acc) = true.
Proof.
  revert n acc. induction fuel as [|fuel IH]; intros n acc Hacc; [exact Hacc|].
  cbn [string_of_nat_aux].
  assert (Hacc' : all_digits (String (digit_of (n mod 10)) acc) = true).
  { cbn [all_digits]. rewrite digit_of_is_digit, Hacc; [reflexivity|].
    apply Nat.mod_upper_bound. discriminate. }
  destruct (n / 10)%nat; [exact Hacc' | now apply IH].
Qed.

Lemma index_key_is_not_updateMany (j : nat) : String_of_index j <> "updateMany".
Proof.
  intros He. pose proof (string_of_nat_aux_digits (S j) j "" eq_refl) as Hd.
  unfold String_of_index in He. rewrite He in Hd. discriminate.
Qed.

Lemma chars_of_typeof (s : string) (x : JsValue) :
  In x (chars_of s) -> typeof x = "string".
Proof.
  induction s as [|c s IH]; simpl; [contradiction|]. intros [<-|Hin]; [reflexivity | now apply IH].
Qed.

Lemma height_cleanObject (v : JsValue) : (height (cleanObject v) <= height v)%nat.
Proof.
  unfold cleanObject.
  destruct (negb (truthy v) || negb (typeof v =? "object")) eqn:E; [lia|].
  assert (Hentries : forall k x, In (k, x) (own_entries v) -> (height x < height v)%nat).
  { intros k x Hin. destruct v; simpl in Hin; try contradiction.
    - simpl in E. rewrite orb_true_r in E. discriminate E.
    - apply index_entries_values in Hin. now apply height_element.
    - now apply (height_property _ k). }
  assert (Hpos : (1 <= height v)%nat).
  { destruct v; simpl in E; try discriminate E;
      try (rewrite orb_true_r in E; discriminate E); cbn [height]; lia. }
  cbn [height]. destruct (height v) as [|h]; [lia|]. apply le_n_S.
  apply list_max_le. apply Forall_forall. intros n Hn.
  apply in_map_iff in Hn. destruct Hn as [[k x] [<- Hin]].
  apply filter_In in Hin. destruct Hin as [Hin _].
  specialize (Hentries k x Hin). lia.
Qed.

Lemma own_entries_shallow (v : JsValue) (d : nat) (k : string) (x : JsValue) :
  (height v <= d)%nat -> In (k, x) (own_entries (cleanObject v)) -> shallow d k x.
Proof.
  intros Hv Hin.
  assert (Hraw : forall w, (height w <= d)%nat -> In (k, x) (own_entries w) -> shallow d k x).
  { intros w Hw Hx. destruct w; simpl in Hx; try contradiction.
    - apply index_entries_values in Hx. destruct Hx as [Hx [j ->]].
      right. left. split; [|apply index_key_is_not_updateMany].
      rewrite (chars_of_typeof _ _ Hx). discriminate.
    - apply index_entries_values in Hx. destruct Hx as [Hx _].
      left. pose proof (height_element _ _ Hx). lia.
    - left. pose proof (height_property _ _ _ Hx). lia. }
  apply (Hraw (cleanObject v)); [|exact Hin].
  pose proof (height_cleanObject v). lia.
Qed.

Section Termination.

Variable H : Helpers.
Variable N : NumberOps.
Variable dmmf : DMMFHelper.

Section OneLevelFinishes.

Variable rec : ObjectToArgs.
Variable d : nat.
Hypothesis Hrec :
  forall v t context possibilities outputType_,
    (height v < d)%nat -> finishes (rec v t context possibilities outputType_).

Lemma tryNestedInputTypes_finishes key value arg context candidates :
  (height value < d)%nat ->
  finishes (tryNestedInputTypes rec key value arg context candidates).
Proof.
  intros Hv. induction candidates as [|c cs IH]; simpl; [apply finishes_Normal|].
  apply finishes_bind; [now apply Hrec|]. intros args.
  destruct (length (Args_collectErrors args) =? 0)%nat; [apply finishes_Normal | exact IH].
Qed.

Lemma compileElements_finishes arg inputType context i elements :
  (forall e, In e elements -> typeof e = "object" -> (height e < d)%nat) ->
  finishes (compileElements rec arg inputType context i elements).
Proof.
  revert i. induction elements as [|v vs IH]; intros i Hel; simpl; [apply finishes_Normal|].
  apply finishes_bind.
  - destruct (isList inputType && negb (typeof v =? "object")); [apply finishes_Normal|].
    destruct (String.eqb_spec (typeof v) "object") as [Ht|Ht]; simpl;
      [|apply finishes_Normal].
    destruct (Array_isArray v); [apply finishes_Normal|].
    apply finishes_bind; [|intros; apply finishes_Normal].
    apply Hrec. apply Hel; [now left | exact Ht].
  - intros el. apply finishes_bind; [|intros; apply finishes_Normal].
    apply IH. intros e He. apply Hel. now right.
Qed.

Lemma tryInferArgs_finishes key value arg inputType context :
  shallow d key value ->
  finishes (tryInferArgs H dmmf rec key value arg inputType context).
Proof.
  intros Hs. unfold tryInferArgs.
  destruct (is_undefined value) eqn:Hu;
    [destruct (negb (isRequired arg)); apply finishes_Normal|].
  match goal with |- finishes (if ?b then _ else _) => destruct b end;
    [apply finishes_Normal|].
  assert (Hobj : typeof value = "object" -> (height value < d)%nat).
  { intros Ht. destruct Hs as [Hh|[[Hn _]|Hundef]]; [exact Hh | contradiction | congruence]. }
  destruct (isList inputType) eqn:Hl; cbn [negb].
  - (* list-shaped candidate *)
    unfold inferListArg.
    destruct (is_enumTypes inputType || FieldLocation_eqb (location inputType) scalar);
      [apply finishes_Normal|].
    cbv zeta. unfold wrapIntoList. rewrite Hl, andb_true_r.
    destruct value as [| | | | | | | | | | elements | props];
      cbn [Array_isArray negb];
      try (destruct (String.eqb_spec key "updateMany") as [Hk|Hk]; cbn [negb];
           [ apply finishes_bind;
             [ apply tryNestedInputTypes_finishes;
               destruct Hs as [Hh|[[_ Hn]|Hundef]];
               [exact Hh | contradiction | discriminate]
             | intros [a|]; [apply finishes_Normal | apply finishes_Throw] ]
           | apply finishes_bind; [|intros; apply finishes_Normal];
             apply compileElements_finishes;
             intros e [<-|[]] Ht; now apply Hobj ]).
    apply finishes_bind; [|intros; apply finishes_Normal].
    apply compileElements_finishes. intros e He _.
    pose proof (height_element _ _ He). specialize (Hobj eq_refl). lia.
  - (* single candidate *)
    unfold inferSingleArg. destruct (type inputType); try apply finishes_Normal.
    destruct (String.eqb_spec (typeof value) "object") as [Ht|Ht]; cbn [negb orb];
      [|apply finishes_Normal].
    match goal with |- finishes (if ?b then _ else _) => destruct b end;
      [apply finishes_Normal|].
    cbv zeta. apply finishes_bind; [|intros; apply finishes_Normal].
    destruct (is_null (cleanObject value)); [apply finishes_Normal|].
    apply finishes_bind; [|intros; apply finishes_Normal].
    apply Hrec. pose proof (height_cleanObject value). specialize (Hobj Ht). lia.
Qed.

Lemma valueToArg_loop_finishes key value arg context candidates acc maybeArg :
  shallow d key value ->
  finishes (valueToArg_loop H dmmf rec key value arg context candidates acc maybeArg).
Proof.
  intros Hs. revert acc maybeArg.
  induction candidates as [|c cs IH]; intros acc maybeArg; simpl; [apply finishes_Normal|].
  apply finishes_bind; [now apply tryInferArgs_finishes|]. intros [a|]; [|apply IH].
  destruct (length (Arg_collectErrors a) =? 0)%nat; [apply finishes_Normal | apply IH].
Qed.

Lemma valueToArg_finishes key value arg context :
  shallow d key value -> finishes (valueToArg H N dmmf rec key value arg context).
Proof.
  intros Hs. unfold valueToArg.
  apply finishes_bind; [now apply valueToArg_loop_finishes|].
  intros [a|maybeArg argsWithErrors]; [apply finishes_Normal|].
  match goal with |- finishes (if ?b then _ else _) => destruct b end;
    [|apply finishes_Normal].
  cbv zeta. destruct (Array_sort _ _); [apply finishes_Throw | apply finishes_Normal].
Qed.

End OneLevelFinishes.

Lemma objectToArgs_finishes_level (vrec : ValueToArg) (d : nat) :
  (forall key value arg context, shallow d key value ->
                                 finishes (vrec key value arg context)) ->
  forall initialObj inputType context possibilities outputType_,
    (height initialObj <= d)%nat ->
    finishes (objectToArgs H vrec initialObj inputType context possibilities outputType_).
Proof.
  intros Hv initialObj inputType context possibilities outputType_ Hh.
  unfold objectToArgs. cbv zeta. apply finishes_bind.
  - apply finishes_reduceM. intros acc [argName value] Hin.
    unfold unionBy in Hin. apply uniqBy_subset in Hin. apply in_app_or in Hin.
    assert (Hs : shallow d argName value).
    { destruct Hin as [Hin|Hin]; [now apply (own_entries_shallow initialObj)|].
      apply in_map_iff in Hin. destruct Hin as [a [[= <- <-] _]]. right. right. reflexivity. }
    unfold objectToArgs_step. destruct (find _ _) as [schemaArg|].
    + apply finishes_bind; [now apply Hv|]. intros [a|]; apply finishes_Normal.
    + apply finishes_bind; [|intros; apply finishes_Normal].
      destruct (typeof value =? "boolean"); [|apply finishes_Normal].
      destruct outputType_; (apply finishes_Normal || apply finishes_Throw).
  - intros argsList.
    match goal with |- finishes (if ?b then _ else _) => destruct b end;
      [|apply finishes_Normal].
    apply finishes_bind; [|intros; apply finishes_Normal].
    apply finishes_mapM. intros arg. unfold missingArgEntry.
    destruct (inputTypes arg); [apply finishes_Throw | apply finishes_Normal].
Qed.

Lemma objectToArgs_at_finishes (depth : nat) :
  forall v t context possibilities outputType_,
    (height v < depth)%nat ->
    finishes (objectToArgs_at H N dmmf depth v t context possibilities outputType_).
Proof.
  induction depth as [|depth IH]; intros v t context possibilities outputType_ Hh; [lia|].
  change (finishes
            match t with
            | ATInput name =>
                objectToArgs H (valueToArg H N dmmf (objectToArgs_at H N dmmf depth)) v
                  (resolveInput dmmf name) context possibilities outputType_
            | _ => Throw "TypeError: Cannot read properties of undefined (reading 'map')"
            end).
  destruct t; try apply finishes_Throw.
  apply (objectToArgs_finishes_level _ depth); [|lia].
  intros key value arg ctx Hs. now apply (valueToArg_finishes _ depth IH).
Qed.

(** X24.  The argument compiler terminates on every value: at a depth above
    the nesting of the object it is given, [objectToArgs] returns or throws,
    and every larger depth gives the same outcome. *)
Theorem objectToArgs_terminates (depth depth' : nat) v t context possibilities outputType_ :
  (height v < depth)%nat ->
  (depth <= depth')%nat ->
  objectToArgs_at H N dmmf depth v t context possibilities outputType_ <> Diverge
  /\ objectToArgs_at H N dmmf depth' v t context possibilities outputType_
     = objectToArgs_at H N dmmf depth v t context possibilities outputType_.
Proof.
  intros Hh Hle.
  pose proof (objectToArgs_at_finishes depth v t context possibilities outputType_ Hh)
    as Hfin.
  split; [exact Hfin|].
  destruct (objectToArgs_at_below H N dmmf depth depth' Hle v t context possibilities
              outputType_) as [Hd|He]; [contradiction | exact He].
Qed.

End Termination.

(** ** Unknown fields of a selection *)

Section UnknownFields.

Variable H : Helpers.
Variable N : NumberOps.
Variable dmmf : DMMFHelper.



End UnknownFields.

(** ** [mapScalars]: failures, and what is left alone *)
















Section MapScalarsBehaviour.

Variable D : Deserializers.















End MapScalarsBehaviour.

Module SampleRemap.

Import Sample.


End SampleRemap.

(** ** The further properties on the sample client *)

Module SampleExtras.

Import Sample.

Lemma valueToArg_returns_a_candidate_witness :
  exists a inputType,
    valueToArg helpers reals dmmf inferArgs "id" (JString "Ann") idOrName noContext
    = Normal (Some a)
    /\ In inputType (inputTypes idOrName)
    /\ tryInferArgs helpers dmmf inferArgs "id" (JString "Ann") idOrName inputType noContext
       = Normal (Some a).
Proof.
  eexists.
  assert (E : valueToArg helpers reals dmmf inferArgs "id" (JString "Ann") idOrName noContext
              = Normal (Some _)) by (lazy; reflexivity).
  destruct (valueToArg_returns_a_candidate helpers reals dmmf inferArgs _ _ _ _ _ E)
    as [inputType [Hin Ht]].
  exists inputType. split; [exact E|]. split; assumption.
Defined.

Lemma valueToArg_keyed_witness :
  returns_Args wf_Args inferArgs
  /\ exists a,
       valueToArg helpers reals dmmf inferArgs "id" (JNumber 1) idOrName noContext
       = Normal (Some a)
       /\ wf_Arg a /\ arg_key a = "id".
Proof.
  split; [exact (objectToArgs_at_wf helpers reals dmmf 3)|].
  eexists.
  assert (E : valueToArg helpers reals dmmf inferArgs "id" (JNumber 1) idOrName noContext
              = Normal (Some _)) by (lazy; reflexivity).
  split; [exact E|].
  exact (valueToArg_keyed helpers reals dmmf inferArgs _ _ _ _ _
           (objectToArgs_at_wf helpers reals dmmf 3) E).
Defined.

Lemma objectToArgs_keys_witness :
  exists args,
    objectToArgs helpers (valueToArg_at helpers reals dmmf 3) nameAndFoo UserCreateInput
      noContext None NoOutput = Normal args
    /\ wf_Args args
    /\ forall a, In a (args_args args) ->
                 In (arg_key a) (map fst (own_entries (cleanObject nameAndFoo))
                                 ++ map arg_name (input_fields UserCreateInput)).
Proof.
  eexists.
  assert (E : objectToArgs helpers (valueToArg_at helpers reals dmmf 3) nameAndFoo
                UserCreateInput noContext None NoOutput = Normal _) by (lazy; reflexivity).
  split; [exact E|].
  refine (objectToArgs_keys helpers _ _ _ _ _ _ _ _ E).
  intros key value arg ctx a Hv.
  exact (valueToArg_wf_keyed helpers reals dmmf _ _ _ _ _ _
           (objectToArgs_at_wf helpers reals dmmf 3) Hv).
Defined.

Lemma objectToArgs_reports_unknown_key_witness :
  In ("foo", JNumber 1) (own_entries (cleanObject nameAndFoo))
  /\ find (fun a => arg_name a =? "foo") (input_fields UserCreateInput) = None
  /\ exists args,
       objectToArgs helpers (valueToArg_at helpers reals dmmf 3) nameAndFoo UserCreateInput
         noContext None NoOutput = Normal args
       /\ (exists a, In a (args_args args)
                     /\ arg_key a = "foo"
                     /\ own_error_kind a = Some KInvalidName)
       /\ args_hasInvalidArg args = true.
Proof.
  assert (Hin : In ("foo", JNumber 1) (own_entries (cleanObject nameAndFoo)))
    by (right; left; reflexivity).
  assert (Hfind : find (fun a => arg_name a =? "foo") (input_fields UserCreateInput) = None)
    by reflexivity.
  split; [exact Hin|]. split; [exact Hfind|].
  eexists.
  assert (E : objectToArgs helpers (valueToArg_at helpers reals dmmf 3) nameAndFoo
                UserCreateInput noContext None NoOutput = Normal _) by (lazy; reflexivity).
  split; [exact E|].
  exact (objectToArgs_reports_unknown_key helpers _ _ _ _ _ _ _ "foo" (JNumber 1)
           Hin Hfind E).
Defined.

Lemma Field_flags_match_collected_errors_witness :
  wf_Field postsField
  /\ ((f_hasInvalidChild postsField || f_hasInvalidArg postsField) = false
      <-> clean_below "select" postsField).
Proof.
  assert (Hwf : wf_Field postsField) by (simpl; repeat split).
  split; [exact Hwf|].
  exact (Field_flags_match_collected_errors "select" postsField Hwf).
Defined.

Lemma makeDocument_well_formed_witness :
  exists doc,
    compile "findManyUser" whereAndId = Normal doc
    /\ All wf_Field (doc_children doc).
Proof.
  eexists.
  assert (E : compile "findManyUser" whereAndId = Normal _) by (lazy; reflexivity).
  split; [exact E|].
  exact (makeDocument_well_formed helpers reals dmmf 8 _ _ E).
Defined.

Lemma validate_returns_iff_clean_below_witness :
  exists doc,
    compile "findManyUser" whereAndId = Normal doc
    /\ (Document_validate doc whereAndId false = Normal tt
        <-> forall root, In root (doc_children doc) -> clean_below "select" root).
Proof.
  eexists.
  assert (E : compile "findManyUser" whereAndId = Normal _) by (lazy; reflexivity).
  split; [exact E|].
  exact (validate_returns_iff_clean_below helpers reals dmmf 8 _ _ whereAndId false
           "select" E).
Defined.

Lemma valueToArg_single_candidate_witness :
  inputTypes optionalName = [String_]
  /\ valueToArg helpers reals dmmf inferArgs "name" (JNumber 1) optionalName noContext
     = tryInferArgs helpers dmmf inferArgs "name" (JNumber 1) optionalName String_ noContext.
Proof.
  split; [reflexivity|].
  exact (valueToArg_single_candidate helpers reals dmmf inferArgs "name" (JNumber 1)
           optionalName String_ noContext eq_refl).
Defined.

Lemma normalizePath_only_drops_zeros_witness :
  normalizePath [PStr "where"; PStr "AND"; PNum 0; PStr "id"] whereAndId
  = Normal [PStr "where"; PStr "AND"; PStr "id"]
  /\ drops_zeros [PStr "where"; PStr "AND"; PNum 0; PStr "id"]
       [PStr "where"; PStr "AND"; PStr "id"].
Proof.
  split; [reflexivity|].
  exact (normalizePath_only_drops_zeros [PStr "where"; PStr "AND"; PNum 0; PStr "id"]
           whereAndId [PStr "where"; PStr "AND"; PStr "id"] eq_refl).
Defined.

Lemma normalizePath_without_arrays_witness :
  array_free whereAndId = true
  /\ normalizePath [PStr "where"; PNum 0; PStr "AND"; PNum 0] whereAndId
     = Normal [PStr "where"; PStr "AND"]
  /\ [PStr "where"; PStr "AND"]
     = filter (fun key => negb (is_zero_index key))
         [PStr "where"; PNum 0; PStr "AND"; PNum 0].
Proof.
  split; [reflexivity|]. split; [reflexivity|].
  exact (normalizePath_without_arrays [PStr "where"; PNum 0; PStr "AND"; PNum 0]
           whereAndId [PStr "where"; PStr "AND"] eq_refl eq_refl).
Defined.

Lemma getField_composes_witness :
  ["posts"] <> []
  /\ getField (mkDocument query [postsField]) (["posts"] ++ ["createdAt"])
     = (f <- getField (mkDocument query [postsField]) ["posts"] ;;
        getField_loop ["createdAt"] f).
Proof.
  assert (Hne : ["posts"] <> []) by discriminate.
  split; [exact Hne|].
  exact (getField_composes (mkDocument query [postsField]) ["posts"] ["createdAt"] Hne).
Defined.

Lemma deserializeLeaf_changes_only_the_leaf_witness :
  exists entry',
    deserializeLeaf (new_Date deserializers) "createdAt"
      (JObject [("createdAt", JString "2020"); ("title", JNull)]) = Normal entry'
    /\ map fst (own_entries entry') = ["createdAt"; "title"]
    /\ (forall k, k <> "createdAt" ->
                  get entry' k = get (JObject [("createdAt", JString "2020"); ("title", JNull)]) k)
    /\ new_Date deserializers (JString "2020") = Normal (get entry' "createdAt").
Proof.
  eexists.
  assert (E : deserializeLeaf (new_Date deserializers) "createdAt"
                (JObject [("createdAt", JString "2020"); ("title", JNull)]) = Normal _)
    by reflexivity.
  split; [exact E|].
  exact (deserializeLeaf_changes_only_the_leaf (new_Date deserializers) "createdAt"
           [("createdAt", JString "2020"); ("title", JNull)] _ E).
Defined.

Lemma mapScalars_without_designated_kinds_witness :
  no_designated_leaf postTitles = true
  /\ exists data',
       mapScalars deserializers postTitles (JArray [JObject [("title", JString "Hello")]])
       = Normal data'
       /\ data' = JArray [JObject [("title", JString "Hello")]].
Proof.
  split; [reflexivity|].
  eexists.
  assert (E : mapScalars deserializers postTitles
                (JArray [JObject [("title", JString "Hello")]]) = Normal _)
    by reflexivity.
  split; [exact E|].
  exact (mapScalars_without_designated_kinds deserializers postTitles eq_refl _ _ E).
Defined.

Lemma objectToArgs_terminates_witness :
  (height (JObject [("AND", JObject [("id", JString "x")])]) < 3)%nat
  /\ objectToArgs_at helpers reals dmmf 3 (JObject [("AND", JObject [("id", JString "x")])])
       (ATInput "UserWhereInput") noContext None NoOutput <> Diverge
  /\ objectToArgs_at helpers reals dmmf 4 (JObject [("AND", JObject [("id", JString "x")])])
       (ATInput "UserWhereInput") noContext None NoOutput
     = objectToArgs_at helpers reals dmmf 3
         (JObject [("AND", JObject [("id", JString "x")])])
         (ATInput "UserWhereInput") noContext None NoOutput.
Proof.
  assert (Hh : (height (JObject [("AND", JObject [("id", JString "x")])]) < 3)%nat)
    by (repeat constructor).
  assert (Hle : (3 <= 4)%nat) by (repeat constructor).
  split; [exact Hh|].
  exact (objectToArgs_terminates helpers reals dmmf 3 4 _ (ATInput "UserWhereInput")
           noContext None NoOutput Hh Hle).
Defined.


End SampleExtras.
